(** * Graph similarity: HITS scores, profile matching and shortest-path draining

    A shallow embedding of the three Python scripts of the repository

    - [hits.py]                           ([Module Hits]),
    - [closest_nodes/good_neighbors.py]   ([Module GoodNeighbors]),
    - [closest_nodes/shortest_path_dist.py] ([Module ShortestPathDist]),

    and of the random graph generator the last two share
    ([Module RandomGraph]), together with the properties their specification states about them.

    Conventions of the embedding.
    - A Python call either returns or raises: fallible code lives in the
      [outcome] monad of [Module Py].
    - [np.float64] is IEEE 754 binary64: the HITS scores are primitive floats,
      so NaN, infinities and rounding are those of the program.
    - Edge weights are Python integers ([random.randint]); profile vectors and
      path-weight sums are lists of [Z].  A Euclidean distance between integer
      vectors is kept exactly, as the square root of an integer ([Scipy.root]),
      with its meaning as a real number given by [Scipy.root_R].
    - What the libraries decide and the scripts do not is an interface with
      laws, and the properties hold for every implementation of it: the order
      in which BLAS sums a row and the last bit of [pow] ([Hits.Arith]), the
      comparison of two distances once rounded to binary64
      ([Scipy.Float64]), and which of several equally short paths networkx
      returns ([Nx.Search]).  Each interface has one implementation in this
      file, on which the examples run.
    - Python lists are mutable and shared: the profile vectors live in a
      [store] and the functions that pad them in place thread that store. *)

From Stdlib Require Import ZArith List Lia Bool Arith.
From Stdlib Require String.
From Stdlib Require Import Sorting.Permutation Sorting.Sorted.
From Stdlib Require Import Floats.
From Stdlib Require Reals Lra.
Import ListNotations.

(* ================================================================== *)
(** * Python outcomes *)
(* ================================================================== *)

Module Py.

(** The exceptions the modelled code paths can raise. *)
Inductive exn : Type :=
| ValueError      (* numpy: operands could not be broadcast / shapes not aligned *)
| IndexError      (* random.choice on an empty sequence *)
| KeyError        (* G[u][v] on a missing edge *)
| NodeNotFound    (* networkx: source or target not in the graph *)
| NetworkXError   (* networkx: remove_edge on a missing edge *)
| NetworkXNoPath. (* networkx: shortest_path without a path *)

Inductive outcome (A : Type) : Type :=
| Returned (a : A)
| Raised (e : exn).

Arguments Returned {A} a.
Arguments Raised {A} e.

Definition bind {A B : Type} (m : outcome A) (k : A -> outcome B) : outcome B :=
  match m with
  | Returned a => k a
  | Raised e => Raised e
  end.

Definition returns {A : Type} (m : outcome A) : bool :=
  match m with Returned _ => true | Raised _ => false end.

Declare Scope py_scope.
Delimit Scope py_scope with py.

Notation "x <- m ;; k" := (bind m (fun x => k))
  (at level 100, m at next level, right associativity) : py_scope.
Notation "' p <- m ;; k" := (bind m (fun p => k))
  (at level 100, p pattern, m at next level, right associativity) : py_scope.

(** A [for] loop over [l] whose body updates a state and may raise. *)
Fixpoint for_each {A S : Type} (l : list A) (body : A -> S -> outcome S) (s : S)
    : outcome S :=
  match l with
  | [] => Returned s
  | x :: rest =>
      match body x s with
      | Returned s' => for_each rest body s'
      | Raised e => Raised e
      end
  end.

Lemma bind_returned {A B : Type} (a : A) (k : A -> outcome B) :
  bind (Returned a) k = k a.
Proof. reflexivity. Qed.

Lemma bind_inv {A B : Type} (m : outcome A) (k : A -> outcome B) (b : B) :
  bind m k = Returned b -> exists a, m = Returned a /\ k a = Returned b.
Proof.
  destruct m as [a|e]; simpl; intros H.
  - exists a; split; [reflexivity | exact H].
  - discriminate H.
Qed.

Lemma for_each_from {A S : Type} (body : A -> S -> outcome S)
    (P : list A -> S -> Prop) (l : list A) :
  (forall done x rest s, l = done ++ x :: rest -> P done s ->
     exists s', body x s = Returned s' /\ P (done ++ [x]) s') ->
  forall rest done s, l = done ++ rest -> P done s ->
    exists s', for_each rest body s = Returned s' /\ P l s'.
Proof.
  intros Hbody. induction rest as [|x rest IH]; intros done s Hl HP.
  - exists s. rewrite app_nil_r in Hl. subst l. split; [reflexivity | exact HP].
  - destruct (Hbody done x rest s Hl HP) as (s1 & E1 & HP1).
    cbn [for_each]. rewrite E1.
    apply (IH (done ++ [x])); [|exact HP1].
    rewrite <- app_assoc. exact Hl.
Qed.

Lemma for_each_invariant {A S : Type} (body : A -> S -> outcome S)
    (P : list A -> S -> Prop) (l : list A) (s : S) :
  (forall done x rest s, l = done ++ x :: rest -> P done s ->
     exists s', body x s = Returned s' /\ P (done ++ [x]) s') ->
  P [] s ->
  exists s', for_each l body s = Returned s' /\ P l s'.
Proof.
  intros Hbody HP. apply (for_each_from body P l Hbody l [] s); [reflexivity | exact HP].
Qed.

End Py.

Import Py.

(** The texts the scripts print. *)
Module Text.

Import String.
#[local] Open Scope string_scope.

Definition authority_A : string := "Authority score for A are {0} with {1} step(s)".
Definition hub_A : string := "Hub score for A are {0} with {1} step(s)".
Definition authority_B : string := "Authority score for B are {0} with {1} step(s)".
Definition hub_B : string := "Hub score for B are {0} with {1} step(s)".
Definition similar : string := "Similar!!".
Definition not_similar : string := "Opss...".
Definition graph1_exhausted : string :=
  "SPECIAL CASE: Graph 1 does not have enough shortest paths.".
Definition graph2_exhausted : string :=
  "SPECIAL CASE: Graph 2 does not have enough shortest paths.".

End Text.

(* ================================================================== *)
(** * hits.py *)
(* ================================================================== *)

Module Hits.

#[local] Open Scope float_scope.
#[local] Open Scope py_scope.

(** A one-dimensional array of [np.float64] and a two-dimensional one, as
    the list of its rows. *)
Definition vec := list float.
Definition matrix := list vec.

(** ** The arithmetic numpy hands on

    Two steps of [hits.py] are computed outside Python and numpy: [np.dot]
    hands the product of a matrix and a vector to the BLAS library, and [**]
    on an [np.float64] is the [pow] of the C library.  Neither the order in
    which BLAS adds the products of a row (nor whether it fuses a
    multiplication with an addition), nor the last bit of [pow], is fixed by
    the program, so both are operations of an interface, with what is known
    of them as its laws:
    - terms with a factor [+0] and product [+0] add nothing: a row of such
      terms sums to [+0], and a row with one other term sums to that term's
      product, in whatever order the terms are added and whether or not a
      multiplication is fused with an addition;
    - a NaN among the products makes the sum NaN;
    - [pow(+0, y) = +0] for [y > 0], and [pow(x, 2)] has no minus sign
      (C11, F.10.4.4);
    - [pow(x, 2)], and [pow(x, 0.5)] for an [x] without a minus sign, are
      within one unit in the last place of the correctly rounded result. *)

(** The products of the entries of a row and a vector, each rounded once. *)
Definition products (r v : vec) : vec :=
  map (fun xy => fst xy * snd xy) (combine r v).

(** A term of a row sum that is exactly [+0]: one factor is [+0], and so is
    the product (the other factor is finite and has no minus sign). *)
Definition zero_term (ax : float * float) : Prop :=
  (fst ax = 0 \/ snd ax = 0) /\ fst ax * snd ax = 0.

(** [x] and the two floats next to it. *)
Definition near (x : float) : list float := [next_down x; x; next_up x].

(** [x] carries no minus sign: it is [+0], a positive number, [+infinity]
    or NaN. *)
Definition unsigned_SF (s : spec_float) : bool :=
  match s with
  | S754_zero b | S754_infinity b | S754_finite b _ _ => negb b
  | S754_nan => true
  end.

Definition unsigned (x : float) : bool := unsigned_SF (Prim2SF x).

Class Arith : Type := {
  (** [np.dot(m, v)] for a two-dimensional [m] with rows as long as [v];
      [transposed] tells whether [m] is the view [np.transpose] made. *)
  blas_gemv : bool -> matrix -> vec -> vec;
  (** [x ** 2] and [x ** 0.5] on [np.float64]. *)
  pow_2 : float -> float;
  pow_half : float -> float;
  blas_gemv_length : forall t m v, length (blas_gemv t m v) = length m;
  blas_gemv_zero : forall t m v i,
    (i < length m)%nat -> Forall zero_term (combine (nth i m []) v) ->
    nth i (blas_gemv t m v) 0 = 0;
  blas_gemv_nan : forall t m v i,
    (i < length m)%nat -> In nan (products (nth i m []) v) ->
    nth i (blas_gemv t m v) 0 = nan;
  blas_gemv_single : forall t m v i zs ax zs',
    (i < length m)%nat ->
    combine (nth i m []) v = zs ++ ax :: zs' ->
    Forall zero_term zs -> Forall zero_term zs' ->
    fst ax * snd ax <> neg_zero ->
    nth i (blas_gemv t m v) 0 = fst ax * snd ax;
  pow_2_zero : pow_2 0 = 0;
  pow_half_zero : pow_half 0 = 0;
  pow_2_unsigned : forall x, unsigned (pow_2 x) = true;
  pow_2_near : forall x, In (pow_2 x) (near (x * x));
  pow_half_near : forall x,
    unsigned x = true -> In (pow_half x) (near (PrimFloat.sqrt x))
}.

Section Program.

Context {arith : Arith}.

(** [np.size(a)]: the number of entries. *)
Definition np_size (a : matrix) : nat := length (concat a).

(** [np.ones(n, dtype=np.float64)]. *)
Definition np_ones (n : nat) : vec := repeat 1 n.

(** The second dimension of the array's shape. *)
Definition ncols (a : matrix) : nat :=
  match a with
  | [] => 0%nat
  | r :: _ => length r
  end.

(** [np.transpose(a)]: row [j] of the result is column [j] of [a]. *)
Fixpoint columns (c : nat) (a : matrix) : matrix :=
  match c with
  | O => []
  | S c' => map (hd 0) a :: columns c' (map (@tl float) a)
  end.

Definition np_transpose (a : matrix) : matrix := columns (ncols a) a.

(** [np.dot(m, v)] of a two-dimensional [m] and a one-dimensional [v]:
    numpy raises [ValueError] when the rows of [m] and [v] differ in length,
    and leaves the product to BLAS otherwise. *)
Definition np_dot (transposed : bool) (m : matrix) (v : vec) : outcome vec :=
  if forallb (fun r => Nat.eqb (length r) (length v)) m
  then Returned (blas_gemv transposed m v)
  else Raised ValueError.

(** [normalization(score)], lines 78-100.
<<
    denominator = 0.0
    for i in score: denominator += (i ** 2)
    denominator = denominator ** 0.5
    score = score / denominator
>>
    The loop adds in Python, from the left; the two powers are [pow]'s.
    Dividing an array by a zero scalar raises nothing in numpy: the quotient is
    computed in binary64. *)
Definition normalization (score : vec) : vec :=
  let denominator := fold_left (fun d i => d + pow_2 i) score 0 in
  let denominator := pow_half denominator in
  map (fun x => x / denominator) score.

(** The body of [for i in range(k)], lines 64-73, run [k] times. *)
Fixpoint hits_loop (k : nat) (a aT : matrix) (normalize : bool)
    (authorityScore hubScore : vec) : outcome (vec * vec) :=
  match k with
  | O => Returned (authorityScore, hubScore)
  | S k' =>
      authorityScore <- np_dot true aT hubScore ;;
      let authorityScore :=
        if normalize then normalization authorityScore else authorityScore in
      hubScore <- np_dot false a authorityScore ;;
      let hubScore := if normalize then normalization hubScore else hubScore in
      hits_loop k' a aT normalize authorityScore hubScore
  end.

(** [hits(a, k, normalize)], lines 41-75.  [int(np.size(a) ** 0.5)] is the
    integer square root of the number of entries. *)
Definition hits (a : matrix) (k : nat) (normalize : bool) : outcome (vec * vec) :=
  let numOfVertices := Nat.sqrt (np_size a) in
  let aT := np_transpose a in
  let authorityScore := np_ones numOfVertices in
  let hubScore := np_ones numOfVertices in
  hits_loop k a aT normalize authorityScore hubScore.

(** [hits(a)]: the defaults of the signature, [k=40, normalize=True]. *)
Definition default_k : nat := 40.
Definition default_normalize : bool := true.
Definition hits_default (a : matrix) : outcome (vec * vec) :=
  hits a default_k default_normalize.

(** ** [comparison]: sorting, closeness and the printed report *)

(** numpy's order for sorting [float64]: NaN sorts after every number. *)
Definition np_le (x y : float) : bool := is_nan y || (x <=? y).

Fixpoint np_insert (x : float) (l : vec) : vec :=
  match l with
  | [] => [x]
  | y :: l' => if np_le x y then x :: l else y :: np_insert x l'
  end.

(** [np.sort(v)]: the entries of [v] in ascending order. *)
Definition np_sort (v : vec) : vec := fold_right np_insert [] v.

#[local] Set Warnings "-inexact-float".
Definition rtol : float := 1e-05.
Definition atol : float := 1e-08.
#[local] Set Warnings "inexact-float".

(** [np.isclose(x, y)] on one pair of entries:
    [|x - y| <= atol + rtol * |y|] for a finite [y], or [x == y]. *)
Definition np_isclose (x y : float) : bool :=
  ((abs (x - y) <=? atol + rtol * abs y) && is_finite y) || (x =? y).

(** numpy broadcasting of two one-dimensional arrays: equal lengths, or one
    of them of length one; otherwise [ValueError]. *)
Definition broadcast (x y : vec) : outcome (vec * vec) :=
  if Nat.eqb (length x) (length y) then Returned (x, y)
  else if Nat.eqb (length x) 1 then Returned (repeat (hd 0 x) (length y), y)
  else if Nat.eqb (length y) 1 then Returned (x, repeat (hd 0 y) (length x))
  else Raised ValueError.

(** [np.allclose(x, y)] with the default tolerances. *)
Definition np_allclose (x y : vec) : outcome bool :=
  ' (x', y') <- broadcast x y ;;
  Returned (forallb (fun p => np_isclose (fst p) (snd p)) (combine x' y')).

(** One line written by [print]: a format string applied to a score vector
    and a step count, or a plain text. *)
Inductive line : Type :=
| ScoreLine (fmt : String.string) (scores : vec) (steps : nat)
| TextLine (text : String.string).

Definition verdict_line (similar : bool) : line :=
  if similar then TextLine Text.similar else TextLine Text.not_similar.

(** [comparison(a, b)], lines 3-38.  The function returns [None]; what it
    produces is what it prints, so the embedding returns the printed lines.
    Every call that can raise comes before the first [print]. *)
Definition comparison (a b : matrix) : outcome (list line) :=
  ' (authorityA, hubA) <- hits_default a ;;
  ' (authorityB, hubB) <- hits_default b ;;
  let authorityA := np_sort authorityA in
  let authorityB := np_sort authorityB in
  let hubA := np_sort hubA in
  let hubB := np_sort hubB in
  authorityEqual <- np_allclose authorityA authorityB ;;
  hubEqual <- np_allclose hubA hubB ;;
  Returned
    [ ScoreLine Text.authority_A authorityA 40;
      ScoreLine Text.hub_A hubA 40;
      ScoreLine Text.authority_B authorityB 40;
      ScoreLine Text.hub_B hubB 40;
      verdict_line (authorityEqual && hubEqual) ].

(** ** The HITS state machine, as the specification words it

    Modelled from the spec: scores start at all ones of length [n]; one round
    is authority <- a^T . hub, L2-normalized when enabled, then
    hub <- a . authority, L2-normalized when enabled.  The transpose is
    written entry by entry, (a^T)_ji = a_ij; the products and the powers are
    those of the arithmetic the program runs on. *)

Definition entry (a : matrix) (i j : nat) : float := nth j (nth i a []) 0.

Definition all_ones (n : nat) : vec := map (fun _ => 1) (seq 0 n).

Definition transposed (n : nat) (a : matrix) : matrix :=
  map (fun j => map (fun i => entry a i j) (seq 0 n)) (seq 0 n).

Definition sum_squares (v : vec) : float :=
  fold_left (fun acc x => acc + pow_2 x) v 0.

Definition l2_norm (v : vec) : float := pow_half (sum_squares v).

Definition l2_normalize (v : vec) : vec := map (fun x => x / l2_norm v) v.

Definition authority_update (n : nat) (a : matrix) (hub : vec) : vec :=
  blas_gemv true (transposed n a) hub.

Definition hub_update (a : matrix) (authority : vec) : vec :=
  blas_gemv false a authority.

Definition hits_round (n : nat) (a : matrix) (normalize : bool)
    (s : vec * vec) : vec * vec :=
  let authority := authority_update n a (snd s) in
  let authority := if normalize then l2_normalize authority else authority in
  let hub := hub_update a authority in
  let hub := if normalize then l2_normalize hub else hub in
  (authority, hub).

Definition hits_machine (n : nat) (a : matrix) (k : nat) (normalize : bool)
    : vec * vec :=
  Nat.iter k (hits_round n a normalize) (all_ones n, all_ones n).

(** An [n] by [n] array. *)
Definition square (n : nat) (a : matrix) : Prop :=
  length a = n /\ Forall (fun r => length r = n) a.

Definition zero_matrix (n : nat) : matrix := repeat (repeat 0 n) n.

(** A vector in ascending numpy order. *)
Definition np_sorted (v : vec) : Prop := Sorted (fun x y => np_le x y = true) v.

(** The adjacency matrix of the two-node cycle. *)
Definition two_cycle : matrix := [[0; 1]; [1; 0]].

(** The scores the two-node cycle can have after a normalization: the floats
    from two below to three above [1 / sqrt 2]. *)
Definition cycle_scores : list float :=
  let s := 1 / PrimFloat.sqrt 2 in
  [next_down (next_down s); next_down s; s;
   next_up s; next_up (next_up s); next_up (next_up (next_up s))].

(** ** Properties of [hits.py] *)

Lemma SFcompare_antisym (a b : spec_float) :
  SFcompare b a = option_map CompOpp (SFcompare a b).
Proof.
  destruct a as [sa|sa| |sa ma ea], b as [sb|sb| |sb mb eb]; simpl;
    try reflexivity;
    try (destruct sa; reflexivity);
    try (destruct sb; reflexivity);
    try (destruct sa, sb; reflexivity).
  destruct sa, sb; simpl; try reflexivity;
    rewrite (Z.compare_antisym ea eb);
    destruct (ea ?= eb)%Z; simpl; try reflexivity; f_equal.
  - rewrite CompOpp_involutive. exact (Pos.compare_cont_antisym mb ma Eq).
  - symmetry. exact (Pos.compare_cont_antisym ma mb Eq).
Qed.

Lemma SFcompare_None (a b : spec_float) :
  SFcompare a b = None -> SFcompare a a = None \/ SFcompare b b = None.
Proof.
  destruct a as [sa|sa| |sa ma ea], b as [sb|sb| |sb mb eb]; simpl; auto;
    try discriminate; try (destruct sa; discriminate).
Qed.

Lemma np_le_total (x y : float) : np_le x y = false -> np_le y x = true.
Proof.
  unfold np_le, is_nan. rewrite !leb_spec, !eqb_spec.
  unfold SFleb, SFeqb.
  rewrite (SFcompare_antisym (Prim2SF x) (Prim2SF y)).
  destruct (SFcompare (Prim2SF x) (Prim2SF y)) as [c|] eqn:E.
  - destruct c; simpl; intros H.
    + destruct (SFcompare (Prim2SF y) (Prim2SF y)) as [[]|]; simpl in H; discriminate.
    + destruct (SFcompare (Prim2SF y) (Prim2SF y)) as [[]|]; simpl in H; discriminate.
    + apply orb_true_r.
  - intros H. destruct (SFcompare_None _ _ E) as [E1|E1]; rewrite E1 in *; simpl in *.
    + reflexivity.
    + discriminate.
Qed.

Lemma np_insert_perm x l : Permutation (x :: l) (np_insert x l).
Proof.
  induction l as [|y l IH]; simpl.
  - apply Permutation_refl.
  - destruct (np_le x y).
    + apply Permutation_refl.
    + eapply perm_trans; [apply perm_swap | apply perm_skip, IH].
Qed.

Lemma np_sort_perm v : Permutation v (np_sort v).
Proof.
  induction v as [|x v IH]; simpl.
  - apply perm_nil.
  - eapply perm_trans; [apply perm_skip, IH | apply np_insert_perm].
Qed.

Lemma np_insert_sorted x l : np_sorted l -> np_sorted (np_insert x l).
Proof.
  unfold np_sorted. induction l as [|y l IH]; simpl; intros Hs.
  - repeat constructor.
  - destruct (np_le x y) eqn:E.
    + constructor; [exact Hs | constructor; exact E].
    + inversion Hs as [|? ? Hs' Hhd]; subst.
      constructor; [apply IH; exact Hs'|].
      destruct l as [|z l]; simpl.
      * constructor. apply np_le_total, E.
      * destruct (np_le x z); constructor.
        -- apply np_le_total, E.
        -- inversion Hhd; assumption.
Qed.

Lemma np_sort_sorted v : np_sorted (np_sort v).
Proof.
  induction v as [|x v IH]; simpl.
  - constructor.
  - apply np_insert_sorted, IH.
Qed.

Lemma np_sort_length v : length (np_sort v) = length v.
Proof. symmetry. apply Permutation_length, np_sort_perm. Qed.


Lemma map_ext_seq {A : Type} (f g : nat -> A) (s n : nat) :
  (forall i, (s <= i < s + n)%nat -> f i = g i) ->
  map f (seq s n) = map g (seq s n).
Proof.
  intros H. apply map_ext_in. intros i Hi. apply in_seq in Hi. apply H, Hi.
Qed.

Lemma list_as_map_nth {A : Type} (d : A) (l : list A) :
  l = map (fun i => nth i l d) (seq 0 (length l)).
Proof.
  induction l as [|x l IH]; simpl.
  - reflexivity.
  - f_equal. rewrite <- seq_shift, map_map. exact IH.
Qed.

Lemma columns_by_index (c : nat) (a : matrix) :
  columns c a = map (fun j => map (fun r => nth j r 0) a) (seq 0 c).
Proof.
  revert a. induction c as [|c IH]; intros a; simpl.
  - reflexivity.
  - f_equal.
    + apply map_ext. intros [|x r]; reflexivity.
    + rewrite IH, <- seq_shift, map_map.
      apply map_ext. intros j. rewrite map_map.
      apply map_ext. intros [|x r]; simpl; [destruct j|]; reflexivity.
Qed.

Lemma square_ncols n a : square n a -> ncols a = n.
Proof.
  intros [Hl Hr]. destruct a as [|r a]; simpl in *.
  - exact Hl.
  - inversion Hr; assumption.
Qed.

Lemma square_row n a i : square n a -> (i < n)%nat -> length (nth i a []) = n.
Proof.
  intros [Hl Hr] Hi. rewrite Forall_forall in Hr. apply Hr, nth_In. lia.
Qed.

Lemma concat_rows_length (c : nat) (a : matrix) :
  Forall (fun r => length r = c) a -> length (concat a) = (length a * c)%nat.
Proof.
  induction 1 as [|r a Hr _ IH]; simpl.
  - reflexivity.
  - rewrite length_app, Hr, IH. reflexivity.
Qed.

Lemma square_size n a : square n a -> np_size a = (n * n)%nat.
Proof.
  intros [Hl Hr]. unfold np_size.
  rewrite (concat_rows_length n a Hr), Hl. reflexivity.
Qed.

Lemma square_vertices n a : square n a -> Nat.sqrt (np_size a) = n.
Proof. intros H. rewrite (square_size n a H). apply Nat.sqrt_square. Qed.

Lemma nth_column (a : matrix) (i j : nat) :
  nth i (map (fun r : vec => nth j r 0) a) 0 = entry a i j.
Proof.
  unfold entry. revert i. induction a as [|r a IH]; intros [|i]; simpl; auto.
  - destruct j; reflexivity.
  - destruct j; reflexivity.
Qed.

Lemma normalization_l2 (v : vec) : normalization v = l2_normalize v.
Proof. reflexivity. Qed.

Lemma normalization_length v : length (normalization v) = length v.
Proof. unfold normalization. apply length_map. Qed.

Lemma np_transpose_transposed n a : square n a -> np_transpose a = transposed n a.
Proof.
  intros Hsq. unfold np_transpose, transposed.
  rewrite (square_ncols n a Hsq), columns_by_index.
  apply map_ext. intros j.
  rewrite (list_as_map_nth [] a) at 1. rewrite map_map.
  destruct Hsq as [Hl _]. unfold matrix, vec in *. rewrite Hl. reflexivity.
Qed.

Lemma transposed_length n a : length (transposed n a) = n.
Proof. unfold transposed. rewrite length_map. apply length_seq. Qed.

Lemma np_dot_transpose n a hub :
  square n a -> length hub = n ->
  np_dot true (np_transpose a) hub = Returned (authority_update n a hub).
Proof.
  intros Hsq Hh. unfold np_dot, authority_update.
  rewrite (np_transpose_transposed n a Hsq).
  replace (forallb _ _) with true; [reflexivity|].
  symmetry. apply forallb_forall. intros r Hin.
  unfold transposed in Hin. apply in_map_iff in Hin. destruct Hin as [j [<- _]].
  rewrite length_map, length_seq, Hh. apply Nat.eqb_refl.
Qed.

Lemma np_dot_rows n a authority :
  square n a -> length authority = n ->
  np_dot false a authority = Returned (hub_update a authority).
Proof.
  intros [Hl Hr] Ha. unfold np_dot, hub_update.
  replace (forallb _ _) with true; [reflexivity|].
  symmetry. apply forallb_forall. intros r Hin.
  rewrite Forall_forall in Hr. rewrite (Hr r Hin), Ha. apply Nat.eqb_refl.
Qed.

Lemma authority_update_length n a hub : length (authority_update n a hub) = n.
Proof. unfold authority_update. rewrite blas_gemv_length. apply transposed_length. Qed.

Lemma hub_update_length n a authority :
  square n a -> length (hub_update a authority) = n.
Proof. intros [Hl _]. unfold hub_update. rewrite blas_gemv_length. exact Hl. Qed.

Lemma l2_normalize_length v : length (l2_normalize v) = length v.
Proof. unfold l2_normalize. apply length_map. Qed.

Lemma hits_round_lengths n a normalize s :
  square n a ->
  length (fst (hits_round n a normalize s)) = n /\
  length (snd (hits_round n a normalize s)) = n.
Proof.
  intros Hsq. unfold hits_round. simpl.
  destruct normalize; simpl;
    rewrite ?l2_normalize_length, ?(hub_update_length n a _ Hsq), ?authority_update_length;
    split; reflexivity.
Qed.

Lemma np_ones_length n : length (np_ones n) = n.
Proof. apply repeat_length. Qed.

Lemma all_ones_length n : length (all_ones n) = n.
Proof. unfold all_ones. rewrite length_map. apply length_seq. Qed.

Lemma np_ones_all_ones n : np_ones n = all_ones n.
Proof.
  unfold np_ones, all_ones. generalize 0%nat.
  induction n as [|n IH]; intros s; simpl; [reflexivity | rewrite (IH (S s)); reflexivity].
Qed.

Lemma hits_machine_lengths n a k normalize :
  square n a ->
  length (fst (hits_machine n a k normalize)) = n /\
  length (snd (hits_machine n a k normalize)) = n.
Proof.
  intros Hsq. unfold hits_machine. destruct k as [|k]; simpl.
  - split; apply all_ones_length.
  - apply hits_round_lengths, Hsq.
Qed.

Lemma hits_loop_S k a aT normalize authority hub :
  hits_loop (S k) a aT normalize authority hub =
  (authorityScore <- np_dot true aT hub ;;
   let authorityScore :=
     if normalize then normalization authorityScore else authorityScore in
   hubScore <- np_dot false a authorityScore ;;
   let hubScore := if normalize then normalization hubScore else hubScore in
   hits_loop k a aT normalize authorityScore hubScore).
Proof. reflexivity. Qed.

Lemma hits_loop_rounds n a normalize :
  square n a ->
  forall k authority hub,
    length hub = n ->
    hits_loop k a (np_transpose a) normalize authority hub =
    Returned (Nat.iter k (hits_round n a normalize) (authority, hub)).
Proof.
  intros Hsq. induction k as [|k IH]; intros authority hub Hh.
  - reflexivity.
  - rewrite Nat.iter_succ_r, hits_loop_S.
    rewrite (np_dot_transpose n a hub Hsq Hh). cbn [bind].
    match goal with
    | |- context [np_dot false a ?x] => rewrite (np_dot_rows n a x Hsq)
    end.
    + cbn [bind]. rewrite IH.
      * unfold hits_round. cbn [snd]. rewrite !normalization_l2. reflexivity.
      * destruct normalize; rewrite ?normalization_length; apply hub_update_length, Hsq.
    + destruct normalize;
        rewrite ?normalization_length; apply authority_update_length.
Qed.

Lemma hits_rounds (n : nat) (a : matrix) (k : nat) (normalize : bool) :
  square n a ->
  hits a k normalize =
    Returned (Nat.iter k (hits_round n a normalize) (all_ones n, all_ones n)).
Proof.
  intros Hsq. unfold hits. rewrite (square_vertices n a Hsq), np_ones_all_ones.
  apply hits_loop_rounds; [exact Hsq | apply all_ones_length].
Qed.

(** C4.  For every square [n] by [n] matrix [a], [hits a k normalize]
    starts both score vectors at all ones of length [sqrt (size a) = n] and
    runs exactly [k] rounds of: authority <- a^T . hub, L2-normalized when
    [normalize] holds, then hub <- a . authority, L2-normalized when
    [normalize] holds; it returns the pair reached after the [k]-th round,
    whatever the scores are (there is no convergence test), and the defaults
    are [k = 40] and [normalize = true].  The start, the transpose, the round
    and the L2 normalization are those of the specification, written
    independently of the program's; the products and powers are the ones the
    program's arithmetic computes. *)
Theorem hits_is_k_rounds (n : nat) (a : matrix) (k : nat) (normalize : bool) :
  square n a ->
  Nat.sqrt (np_size a) = n /\
  hits a k normalize = Returned (hits_machine n a k normalize) /\
  hits_machine n a 0 normalize = (map (fun _ => 1) (seq 0 n), map (fun _ => 1) (seq 0 n)) /\
  hits_machine n a (S k) normalize =
    hits_round n a normalize (hits_machine n a k normalize) /\
  (forall i j, (i < n)%nat -> (j < n)%nat ->
     nth i (nth j (transposed n a) []) 0 = nth j (nth i a []) 0) /\
  (forall v, l2_normalize v =
             map (fun x => x / pow_half (fold_left (fun acc y => acc + pow_2 y) v 0)) v) /\
  hits_default a = hits a 40 true.
Proof.
  intros Hsq. split; [apply square_vertices, Hsq | split; [|split; [|split; [|split; [|split]]]]].
  - apply hits_rounds, Hsq.
  - reflexivity.
  - reflexivity.
  - intros i j Hi Hj. unfold transposed.
    rewrite (nth_indep _ [] (map (fun i => entry a i 0) (seq 0 n)))
      by (rewrite length_map, length_seq; exact Hj).
    rewrite (map_nth (fun j => map (fun i => entry a i j) (seq 0 n)) (seq 0 n) 0%nat j).
    rewrite seq_nth by exact Hj.
    rewrite (nth_indep _ 0 (entry a 0 (0 + j))) by (rewrite length_map, length_seq; exact Hi).
    rewrite (map_nth (fun i => entry a i (0 + j)) (seq 0 n) 0%nat i).
    rewrite seq_nth by exact Hi. reflexivity.
  - intros v. reflexivity.
  - reflexivity.
Qed.

Lemma add_nan_r x : x + nan = nan.
Proof.
  apply Prim2SF_inj. rewrite add_spec.
  change (Prim2SF nan) with S754_nan.
  destruct (Prim2SF x); reflexivity.
Qed.

Lemma add_nan_l x : nan + x = nan.
Proof.
  apply Prim2SF_inj. rewrite add_spec.
  change (Prim2SF nan) with S754_nan. reflexivity.
Qed.

Lemma add_zero_l p : p <> neg_zero -> 0 + p = p.
Proof.
  intros H. apply Prim2SF_inj. rewrite add_spec.
  change (Prim2SF 0) with (S754_zero false).
  destruct (Prim2SF p) as [[|]| | |] eqn:E; try reflexivity.
  exfalso. apply H. apply Prim2SF_inj. rewrite E. reflexivity.
Qed.

Lemma add_zero_r p : p <> neg_zero -> p + 0 = p.
Proof.
  intros H. apply Prim2SF_inj. rewrite add_spec.
  change (Prim2SF 0) with (S754_zero false).
  destruct (Prim2SF p) as [[|]| | |] eqn:E; try reflexivity.
  exfalso. apply H. apply Prim2SF_inj. rewrite E. reflexivity.
Qed.

Lemma near_nan x : In x (near nan) -> x = nan.
Proof. intros [H|[H|[H|[]]]]; symmetry; exact H. Qed.

Lemma pow_2_nan : pow_2 nan = nan.
Proof. apply near_nan. exact (pow_2_near nan). Qed.

Lemma pow_half_nan : pow_half nan = nan.
Proof. apply near_nan. exact (pow_half_near nan eq_refl). Qed.

(** Sums of squares carry no minus sign. *)
Lemma binary_round_aux_unsigned prec emax mx ex lx :
  unsigned_SF (binary_round_aux prec emax false mx ex lx) = true.
Proof.
  unfold binary_round_aux.
  destruct (shr_fexp prec emax mx ex lx) as [mrs e].
  destruct (shr_fexp prec emax _ e loc_Exact) as [mrs' e'].
  destruct (shr_m mrs'); [reflexivity | | reflexivity].
  destruct (e' <=? emax - prec)%Z; reflexivity.
Qed.

Lemma binary_normalize_unsigned prec emax m e :
  (0 <= m)%Z -> unsigned_SF (binary_normalize prec emax m e false) = true.
Proof.
  intros Hm. unfold binary_normalize. destruct m as [|p|p]; [reflexivity | | lia].
  unfold binary_round. destruct (shl_align p e _) as [mz ez].
  apply binary_round_aux_unsigned.
Qed.

Lemma SFadd_unsigned prec emax a b :
  unsigned_SF a = true -> unsigned_SF b = true ->
  unsigned_SF (SFadd prec emax a b) = true.
Proof.
  destruct a as [[|]|[|]| |[|] ma ea], b as [[|]|[|]| |[|] mb eb];
    intros Ha Hb; try discriminate; try reflexivity.
  unfold SFadd. apply binary_normalize_unsigned. cbn [cond_Zopp]. lia.
Qed.

Lemma SFmul_self_unsigned prec emax a : unsigned_SF (SFmul prec emax a a) = true.
Proof.
  destruct a as [[|]|[|]| |[|] ma ea]; try reflexivity;
    unfold SFmul; cbn [xorb]; apply binary_round_aux_unsigned.
Qed.

Lemma add_unsigned x y :
  unsigned x = true -> unsigned y = true -> unsigned (x + y) = true.
Proof. unfold unsigned. rewrite add_spec. apply SFadd_unsigned. Qed.

Lemma mul_self_unsigned x : unsigned (x * x) = true.
Proof. unfold unsigned. rewrite mul_spec. apply SFmul_self_unsigned. Qed.

Lemma fold_squares_unsigned (v : vec) : forall acc,
  unsigned acc = true ->
  unsigned (fold_left (fun d i => d + pow_2 i) v acc) = true.
Proof.
  induction v as [|x v IH]; intros acc Hacc; [exact Hacc|].
  cbn [fold_left]. apply IH, add_unsigned; [exact Hacc | apply pow_2_unsigned].
Qed.

Lemma sum_squares_unsigned (v : vec) : unsigned (sum_squares v) = true.
Proof. apply fold_squares_unsigned. reflexivity. Qed.

Lemma nth_repeat_lt {A : Type} (x d : A) (n i : nat) :
  (i < n)%nat -> nth i (repeat x n) d = x.
Proof.
  revert i. induction n as [|n IH]; intros [|i] H; simpl; try lia; auto.
  apply IH. lia.
Qed.

Lemma map_const_repeat {A B : Type} (c : B) (f : A -> B) (l : list A) :
  (forall x, In x l -> f x = c) -> map f l = repeat c (length l).
Proof.
  induction l as [|x l IH]; intros H; simpl.
  - reflexivity.
  - rewrite (H x (or_introl eq_refl)), IH; [reflexivity|].
    intros y Hy. apply H. right; exact Hy.
Qed.

Lemma seq_map_const {B : Type} (c : B) (f : nat -> B) (n : nat) :
  (forall i, (i < n)%nat -> f i = c) -> map f (seq 0 n) = repeat c n.
Proof.
  intros H. rewrite (map_const_repeat c).
  - rewrite length_seq. reflexivity.
  - intros i Hi. apply in_seq in Hi. apply H. lia.
Qed.

Lemma constant_list {A : Type} (c d : A) (n : nat) (l : list A) :
  length l = n -> (forall i, (i < n)%nat -> nth i l d = c) -> l = repeat c n.
Proof.
  intros Hl H. apply (nth_ext _ _ d d).
  - rewrite repeat_length. exact Hl.
  - intros i Hi. rewrite Hl in Hi. rewrite (H i Hi), nth_repeat_lt by exact Hi.
    reflexivity.
Qed.

Lemma sum_squares_zeros n : sum_squares (repeat 0 n) = 0.
Proof.
  unfold sum_squares. induction n as [|n IH]; [reflexivity|].
  cbn [repeat fold_left]. rewrite pow_2_zero.
  change (0 + 0) with 0. exact IH.
Qed.

Lemma fold_add_nan {B : Type} (f : B -> float) (l : list B) :
  fold_left (fun acc x => acc + f x) l nan = nan.
Proof.
  induction l as [|x l IH]; [reflexivity|].
  cbn [fold_left]. rewrite add_nan_l. exact IH.
Qed.

Lemma sum_squares_nans n : sum_squares (repeat nan (S n)) = nan.
Proof.
  unfold sum_squares. cbn [repeat fold_left].
  rewrite pow_2_nan, add_nan_r. apply fold_add_nan.
Qed.

Lemma l2_normalize_zeros n : l2_normalize (repeat 0 n) = repeat nan n.
Proof.
  unfold l2_normalize, l2_norm. rewrite sum_squares_zeros, pow_half_zero.
  rewrite (map_const_repeat nan).
  - rewrite repeat_length. reflexivity.
  - intros x Hx. apply repeat_spec in Hx. subst x. reflexivity.
Qed.

Lemma l2_normalize_nans n : l2_normalize (repeat nan n) = repeat nan n.
Proof.
  destruct n as [|n]; [reflexivity|].
  unfold l2_normalize, l2_norm. rewrite sum_squares_nans, pow_half_nan.
  rewrite (map_const_repeat nan).
  - rewrite repeat_length. reflexivity.
  - intros x Hx. apply repeat_spec in Hx. subst x. reflexivity.
Qed.

Lemma entry_zero_matrix n i j : entry (zero_matrix n) i j = 0.
Proof.
  unfold entry, zero_matrix.
  destruct (Nat.lt_ge_cases i n) as [Hi|Hi].
  - rewrite nth_repeat_lt by exact Hi.
    destruct (Nat.lt_ge_cases j n) as [Hj|Hj].
    + apply nth_repeat_lt, Hj.
    + apply nth_overflow. rewrite repeat_length. exact Hj.
  - rewrite (nth_overflow (repeat (repeat 0 n) n) [])
      by (rewrite repeat_length; exact Hi).
    destruct j; reflexivity.
Qed.

Lemma square_zero_matrix n : square n (zero_matrix n).
Proof.
  unfold square, zero_matrix. split.
  - apply repeat_length.
  - apply Forall_forall. intros r Hr. apply repeat_spec in Hr. subst r.
    apply repeat_length.
Qed.

Lemma transposed_zero_matrix n : transposed n (zero_matrix n) = zero_matrix n.
Proof.
  unfold transposed. apply seq_map_const. intros j _.
  apply seq_map_const. intros i _. apply entry_zero_matrix.
Qed.

Lemma zero_terms_zeros_ones n : Forall zero_term (combine (repeat 0 n) (repeat 1 n)).
Proof.
  induction n as [|n IH]; [constructor|].
  cbn [repeat combine]. constructor; [|exact IH].
  split; [left; reflexivity | reflexivity].
Qed.

Lemma products_zeros_nans n : products (repeat 0 n) (repeat nan n) = repeat nan n.
Proof.
  unfold products. induction n as [|n IH]; [reflexivity|].
  cbn [repeat combine map fst snd]. rewrite IH. reflexivity.
Qed.

Lemma gemv_zero_matrix_ones t n :
  blas_gemv t (zero_matrix n) (repeat 1 n) = repeat 0 n.
Proof.
  apply (constant_list 0 0).
  - rewrite blas_gemv_length. apply repeat_length.
  - intros i Hi. apply blas_gemv_zero.
    + unfold zero_matrix. rewrite repeat_length. exact Hi.
    + unfold zero_matrix. rewrite nth_repeat_lt by exact Hi.
      apply zero_terms_zeros_ones.
Qed.

Lemma gemv_zero_matrix_nans t n :
  blas_gemv t (zero_matrix (S n)) (repeat nan (S n)) = repeat nan (S n).
Proof.
  apply (constant_list nan 0).
  - rewrite blas_gemv_length. apply repeat_length.
  - intros i Hi. apply blas_gemv_nan.
    + unfold zero_matrix. rewrite repeat_length. exact Hi.
    + unfold zero_matrix. rewrite nth_repeat_lt by exact Hi.
      rewrite products_zeros_nans. left. reflexivity.
Qed.

Lemma zero_round_from_ones n :
  hits_round (S n) (zero_matrix (S n)) true (all_ones (S n), all_ones (S n)) =
  (repeat nan (S n), repeat nan (S n)).
Proof.
  unfold hits_round, authority_update, hub_update. cbn [snd].
  rewrite transposed_zero_matrix, <- np_ones_all_ones.
  unfold np_ones. rewrite gemv_zero_matrix_ones, l2_normalize_zeros.
  rewrite gemv_zero_matrix_nans, l2_normalize_nans. reflexivity.
Qed.

Lemma zero_round_from_nans n authority :
  hits_round (S n) (zero_matrix (S n)) true (authority, repeat nan (S n)) =
  (repeat nan (S n), repeat nan (S n)).
Proof.
  unfold hits_round, authority_update, hub_update. cbn [snd].
  rewrite transposed_zero_matrix.
  rewrite gemv_zero_matrix_nans, l2_normalize_nans.
  rewrite gemv_zero_matrix_nans, l2_normalize_nans. reflexivity.
Qed.

Lemma zero_matrix_rounds n k :
  Nat.iter (S k) (hits_round (S n) (zero_matrix (S n)) true)
    (all_ones (S n), all_ones (S n)) = (repeat nan (S n), repeat nan (S n)).
Proof.
  induction k as [|k IH].
  - apply zero_round_from_ones.
  - change (Nat.iter (S (S k)) ?f ?x) with (f (Nat.iter (S k) f x)).
    rewrite IH. apply zero_round_from_nans.
Qed.

(** C5, as amended.  [normalization] raises nothing: for every vector it
    returns the components divided by one divisor, the [** 0.5] of the sum
    of the [** 2] of the components, which is within one unit in the last
    place of the correctly rounded square root of that sum; on an identically
    zero vector the divisor is 0 and every component is 0/0 = NaN, and [hits]
    on a zero matrix carries the NaNs on to its result. *)
Theorem normalization_of_zero_vector_is_nan :
  (forall v, exists d,
     normalization v = map (fun x => x / d) v /\
     d = pow_half (fold_left (fun acc x => acc + pow_2 x) v 0) /\
     In d (near (PrimFloat.sqrt (fold_left (fun acc x => acc + pow_2 x) v 0)))) /\
  (forall n, normalization (repeat 0 n) = repeat nan n) /\
  (forall n k, hits (zero_matrix (S n)) (S k) true =
               Returned (repeat nan (S n), repeat nan (S n))).
Proof.
  split; [|split].
  - intros v. eexists. split; [reflexivity | split; [reflexivity|]].
    apply pow_half_near, sum_squares_unsigned.
  - intros n. rewrite normalization_l2. apply l2_normalize_zeros.
  - intros n k.
    rewrite (hits_rounds (S n) (zero_matrix (S n)) (S k) true
               (square_zero_matrix (S n))).
    f_equal. apply zero_matrix_rounds.
Qed.

Lemma np_allclose_same_length (x y : vec) :
  length x = length y ->
  np_allclose x y =
  Returned (forallb (fun p => np_isclose (fst p) (snd p)) (combine x y)).
Proof.
  intros H. unfold np_allclose, broadcast.
  rewrite H, Nat.eqb_refl. reflexivity.
Qed.

Lemma verdict_line_similar (b : bool) :
  verdict_line b = TextLine Text.similar <-> b = true.
Proof.
  destruct b; simpl; split; intros H; try reflexivity; discriminate H.
Qed.

Lemma hits_lengths n a k normalize authority hub :
  square n a -> hits a k normalize = Returned (authority, hub) ->
  length authority = n /\ length hub = n.
Proof.
  intros Hsq H. rewrite (hits_rounds n a k normalize Hsq) in H.
  pose proof (hits_machine_lengths n a k normalize Hsq) as L.
  unfold hits_machine in L. injection H as H. rewrite H in L. exact L.
Qed.

(** C8, as amended.  For two square matrices of the same size,
    [comparison a b] runs [hits] with the defaults on each, sorts the two
    authority vectors and the two hub vectors ascending, tests each sorted
    pair for element-wise closeness, and prints the four sorted score
    vectors followed by the verdict, which is "Similar!!" exactly when both
    tests succeed. *)
Theorem comparison_prints_verdict_and_scores (n : nat) (a b : matrix) :
  square n a -> square n b ->
  exists authorityA hubA authorityB hubB authorityEqual hubEqual,
    hits a 40 true = Returned (authorityA, hubA) /\
    hits b 40 true = Returned (authorityB, hubB) /\
    (np_sorted (np_sort authorityA) /\ Permutation authorityA (np_sort authorityA)) /\
    (np_sorted (np_sort authorityB) /\ Permutation authorityB (np_sort authorityB)) /\
    (np_sorted (np_sort hubA) /\ Permutation hubA (np_sort hubA)) /\
    (np_sorted (np_sort hubB) /\ Permutation hubB (np_sort hubB)) /\
    authorityEqual =
      forallb (fun p => np_isclose (fst p) (snd p))
        (combine (np_sort authorityA) (np_sort authorityB)) /\
    hubEqual =
      forallb (fun p => np_isclose (fst p) (snd p))
        (combine (np_sort hubA) (np_sort hubB)) /\
    comparison a b =
      Returned
        [ ScoreLine Text.authority_A (np_sort authorityA) 40;
          ScoreLine Text.hub_A (np_sort hubA) 40;
          ScoreLine Text.authority_B (np_sort authorityB) 40;
          ScoreLine Text.hub_B (np_sort hubB) 40;
          verdict_line (authorityEqual && hubEqual) ] /\
    (verdict_line (authorityEqual && hubEqual) = TextLine Text.similar <->
     authorityEqual = true /\ hubEqual = true).
Proof.
  intros Ha Hb.
  destruct (hits a 40 true) as [[authorityA hubA]|e] eqn:HA.
  2:{ rewrite (hits_rounds n a 40 true Ha) in HA. discriminate HA. }
  destruct (hits b 40 true) as [[authorityB hubB]|e] eqn:HB.
  2:{ rewrite (hits_rounds n b 40 true Hb) in HB. discriminate HB. }
  destruct (hits_lengths n a 40 true authorityA hubA Ha HA) as [LA1 LA2].
  destruct (hits_lengths n b 40 true authorityB hubB Hb HB) as [LB1 LB2].
  exists authorityA, hubA, authorityB, hubB.
  eexists. eexists.
  split; [reflexivity | split; [reflexivity|]].
  repeat (split; [split; [apply np_sort_sorted | apply np_sort_perm] |]).
  split; [reflexivity | split; [reflexivity | split]].
  - unfold comparison, hits_default, default_k, default_normalize.
    rewrite HA, HB. cbn [bind].
    rewrite !np_allclose_same_length by (rewrite !np_sort_length; congruence).
    reflexivity.
  - rewrite verdict_line_similar. apply andb_true_iff.
Qed.

(** *** The two-node cycle *)

Definition float_mem (x : float) (l : list float) : bool :=
  existsb (Leibniz.eqb x) l.

Lemma float_mem_In x l : float_mem x l = true -> In x l.
Proof.
  unfold float_mem. intros H. apply existsb_exists in H.
  destruct H as (y & Hy & E). apply Leibniz.eqb_spec in E. subst y. exact Hy.
Qed.

(** The scores a normalization can start from: the ones of the first round,
    and its own results. *)
Definition cycle_start : list float := 1 :: cycle_scores.

(** From [[y; y]] every admissible rounding of the two powers leads to a
    score of [cycle_scores]; [0 * y] and [1 * y] are exact. *)
Definition cycle_step_ok (y : float) : bool :=
  Leibniz.eqb (0 * y) 0 && Leibniz.eqb (1 * y) y && negb (Leibniz.eqb y neg_zero) &&
  forallb (fun p =>
             forallb (fun d => float_mem (y / d) cycle_scores)
                     (near (PrimFloat.sqrt (0 + p + p))))
          (near (y * y)).

Lemma cycle_steps_ok : forallb cycle_step_ok cycle_start = true.
Proof. vm_compute. reflexivity. Qed.

Lemma cycle_scores_close :
  forallb (fun x => np_isclose x (1 / PrimFloat.sqrt 2)) cycle_scores = true.
Proof. vm_compute. reflexivity. Qed.

Lemma cycle_step_facts y :
  In y cycle_start ->
  0 * y = 0 /\ 1 * y = y /\ y <> neg_zero /\
  forall p d, In p (near (y * y)) -> In d (near (PrimFloat.sqrt (0 + p + p))) ->
    In (y / d) cycle_scores.
Proof.
  intros Hy. pose proof cycle_steps_ok as H.
  rewrite forallb_forall in H. specialize (H y Hy). unfold cycle_step_ok in H.
  apply andb_true_iff in H. destruct H as [H H4].
  apply andb_true_iff in H. destruct H as [H H3].
  apply andb_true_iff in H. destruct H as [H1 H2].
  apply Leibniz.eqb_spec in H1. apply Leibniz.eqb_spec in H2.
  split; [exact H1 | split; [exact H2 | split]].
  - intros E. subst y. discriminate H3.
  - intros p d Hp Hd. rewrite forallb_forall in H4. specialize (H4 p Hp).
    rewrite forallb_forall in H4. apply float_mem_In, H4, Hd.
Qed.

Lemma cycle_gemv t y : In y cycle_start -> blas_gemv t two_cycle [y; y] = [y; y].
Proof.
  intros Hy. destruct (cycle_step_facts y Hy) as (H0 & H1 & Hn & _).
  pose proof (blas_gemv_length t two_cycle [y; y]) as Hl.
  assert (Hz : zero_term (0, y)) by (split; [left; reflexivity | exact H0]).
  assert (E0 : nth 0 (blas_gemv t two_cycle [y; y]) 0 = y).
  { rewrite (blas_gemv_single t two_cycle [y; y] 0 [(0, y)] (1, y) []);
      cbn [fst snd]; rewrite ?H1; auto; simpl; lia. }
  assert (E1 : nth 1 (blas_gemv t two_cycle [y; y]) 0 = y).
  { rewrite (blas_gemv_single t two_cycle [y; y] 1 [] (1, y) [(0, y)]);
      cbn [fst snd]; rewrite ?H1; auto; simpl; lia. }
  destruct (blas_gemv t two_cycle [y; y]) as [|a [|b [|c l]]]; try discriminate Hl.
  cbn [nth] in E0, E1. subst a b. reflexivity.
Qed.

Lemma cycle_normalization y :
  In y cycle_start ->
  exists x, normalization [y; y] = [x; x] /\ In x cycle_scores.
Proof.
  intros Hy. destruct (cycle_step_facts y Hy) as (_ & _ & _ & H).
  unfold normalization. cbn [fold_left map].
  eexists. split; [reflexivity|].
  apply (H (pow_2 y)); [apply pow_2_near | apply pow_half_near].
  apply (fold_squares_unsigned [y; y] 0). reflexivity.
Qed.

Lemma cycle_loop k : forall authority y,
  In y cycle_start ->
  exists x z,
    hits_loop (S k) two_cycle two_cycle true authority [y; y] =
      Returned ([x; x], [z; z]) /\
    In x cycle_scores /\ In z cycle_scores.
Proof.
  induction k as [|k IH]; intros authority y Hy; rewrite hits_loop_S;
    unfold np_dot; cbn [two_cycle forallb length Nat.eqb andb];
    rewrite (cycle_gemv true y Hy); cbn [bind];
    destruct (cycle_normalization y Hy) as (x & Ex & Hx); rewrite Ex;
    cbn [forallb length Nat.eqb andb];
    rewrite (cycle_gemv false x (or_intror Hx)); cbn [bind];
    destruct (cycle_normalization x (or_intror Hx)) as (z & Ez & Hz); rewrite Ez.
  - exists x, z. split; [reflexivity | split; assumption].
  - apply IH. right. exact Hz.
Qed.

Lemma cycle_scores_allclose x :
  In x cycle_scores ->
  np_allclose [x; x] [1 / PrimFloat.sqrt 2; 1 / PrimFloat.sqrt 2] = Returned true.
Proof.
  intros Hx. pose proof cycle_scores_close as H.
  rewrite forallb_forall in H. specialize (H x Hx).
  rewrite np_allclose_same_length by reflexivity.
  cbn [combine forallb fst snd]. rewrite H. reflexivity.
Qed.

(** C9.  On the two-node cycle [[0,1],[1,0]] with [k = 40] and
    normalization, [hits] returns authority and hub vectors that both agree
    with [1/sqrt 2, 1/sqrt 2] within numpy's default tolerance, whichever way
    the arithmetic rounds its powers. *)
Theorem hits_two_cycle_scores :
  exists authority hub,
    hits two_cycle 40 true = Returned (authority, hub) /\
    np_allclose authority [1 / PrimFloat.sqrt 2; 1 / PrimFloat.sqrt 2] = Returned true /\
    np_allclose hub [1 / PrimFloat.sqrt 2; 1 / PrimFloat.sqrt 2] = Returned true.
Proof.
  destruct (cycle_loop 39 [1; 1] 1 (or_introl eq_refl)) as (x & z & E & Hx & Hz).
  exists [x; x], [z; z]. split; [exact E | split; apply cycle_scores_allclose; assumption].
Qed.

(** ** Shapes [hits] accepts, and a matrix compared with itself *)

(** An array with [r] rows and [c] columns. *)
Definition shaped (r c : nat) (a : matrix) : Prop :=
  length a = r /\ Forall (fun row => length row = c) a.

Lemma shaped_size r c a : shaped r c a -> np_size a = (r * c)%nat.
Proof.
  intros [Hl Hr]. unfold np_size. rewrite (concat_rows_length c a Hr), Hl. reflexivity.
Qed.

Lemma shaped_ncols r c a : shaped (S r) c a -> ncols a = c.
Proof.
  intros [Hl Hr]. destruct a as [|row a]; [discriminate|].
  inversion Hr; assumption.
Qed.

Lemma transpose_rows r c a :
  shaped (S r) c a ->
  length (np_transpose a) = c /\
  Forall (fun row => length row = S r) (np_transpose a).
Proof.
  intros H. unfold np_transpose. rewrite (shaped_ncols r c a H), columns_by_index.
  split.
  - rewrite length_map, length_seq. reflexivity.
  - apply Forall_forall. intros row Hin. apply in_map_iff in Hin.
    destruct Hin as (j & <- & _). rewrite length_map. apply H.
Qed.

Lemma np_dot_shape t r c (m : matrix) (v : vec) :
  length m = r -> Forall (fun row => length row = c) m -> length v = c ->
  exists w, np_dot t m v = Returned w /\ length w = r.
Proof.
  intros Hl Hr Hv. unfold np_dot.
  replace (forallb _ m) with true.
  - eexists. split; [reflexivity|]. rewrite blas_gemv_length. exact Hl.
  - symmetry. apply forallb_forall. intros row Hin. rewrite Forall_forall in Hr.
    rewrite (Hr row Hin), Hv. apply Nat.eqb_refl.
Qed.

Lemma np_dot_mismatch t c (m : matrix) (v : vec) :
  m <> [] -> Forall (fun row => length row = c) m -> length v <> c ->
  np_dot t m v = Raised ValueError.
Proof.
  intros Hne Hr Hv. unfold np_dot. destruct m as [|row m]; [contradiction|].
  inversion Hr as [|? ? Hrow _]; subst. cbn [forallb].
  replace (Nat.eqb (length row) (length v)) with false; [reflexivity|].
  symmetry. apply Nat.eqb_neq. intros E. apply Hv. symmetry. exact E.
Qed.

Lemma hits_loop_shape r c a normalize :
  shaped (S r) c a ->
  forall k authority hub,
    length authority = c -> length hub = S r ->
    exists authority' hub',
      hits_loop k a (np_transpose a) normalize authority hub =
        Returned (authority', hub') /\
      length authority' = c /\ length hub' = S r.
Proof.
  intros Hs. destruct (transpose_rows r c a Hs) as [HTl HTr].
  induction k as [|k IH]; intros authority hub Ha Hh.
  - exists authority, hub. repeat split; assumption.
  - rewrite hits_loop_S.
    destruct (np_dot_shape true c (S r) (np_transpose a) hub HTl HTr Hh) as (au & Eau & Lau).
    rewrite Eau. cbn [bind].
    set (au' := if normalize then normalization au else au).
    assert (Lau' : length au' = c).
    { unfold au'. destruct normalize; rewrite ?normalization_length; exact Lau. }
    destruct Hs as [Hl Hr].
    destruct (np_dot_shape false (S r) c a au' Hl Hr Lau') as (hu & Ehu & Lhu).
    rewrite Ehu. cbn [bind].
    apply IH; [exact Lau'|].
    destruct normalize; rewrite ?normalization_length; exact Lhu.
Qed.

Lemma sqrt_rows r c : Nat.sqrt (S r * c) = S r <-> (S r <= c <= S r + 2)%nat.
Proof.
  split.
  - intros H. pose proof (Nat.sqrt_spec (S r * c) (Nat.le_0_l _)) as [H1 H2].
    rewrite H in H1, H2. simpl in H1, H2. nia.
  - intros H. apply Nat.sqrt_unique. simpl. nia.
Qed.

(** X1.  [hits] takes the number of vertices to be the integer square root
    of the number of entries, so it does not only accept square matrices: for
    an array with [r >= 1] rows and [c >= 1] columns and at least one round,
    it returns an authority vector of length [c] and a hub vector of length
    [r] exactly when [r <= c <= r + 2], and raises [ValueError] (from the first
    [np.dot]) for every other shape; with no round at all it returns two
    vectors of ones and never looks at the shape. *)
Theorem hits_accepts_near_square (r c : nat) (a : matrix) (k : nat) (normalize : bool) :
  shaped (S r) (S c) a ->
  ((S r <= S c <= S r + 2)%nat ->
   exists authority hub,
     hits a (S k) normalize = Returned (authority, hub) /\
     length authority = S c /\ length hub = S r) /\
  (~ (S r <= S c <= S r + 2)%nat -> hits a (S k) normalize = Raised ValueError) /\
  hits a 0 normalize =
    Returned (np_ones (Nat.sqrt (S r * S c)), np_ones (Nat.sqrt (S r * S c))).
Proof.
  intros Hs. pose proof (shaped_size _ _ _ Hs) as Hsize.
  destruct (transpose_rows r (S c) a Hs) as [HTl HTr].
  split; [|split].
  - intros Hrc. apply sqrt_rows in Hrc. unfold hits. rewrite Hsize, Hrc.
    rewrite hits_loop_S.
    destruct (np_dot_shape true (S c) (S r) (np_transpose a) (np_ones (S r)) HTl HTr
                (np_ones_length (S r))) as (au & Eau & Lau).
    rewrite Eau. cbn [bind].
    set (au' := if normalize then normalization au else au).
    assert (Lau' : length au' = S c).
    { unfold au'. destruct normalize; rewrite ?normalization_length; exact Lau. }
    destruct (np_dot_shape false (S r) (S c) a au' (proj1 Hs) (proj2 Hs) Lau') as (hu & Ehu & Lhu).
    rewrite Ehu. cbn [bind].
    apply (hits_loop_shape r (S c) a normalize Hs); [exact Lau'|].
    destruct normalize; rewrite ?normalization_length; exact Lhu.
  - intros Hrc. unfold hits. rewrite Hsize, hits_loop_S.
    rewrite (np_dot_mismatch true (S r)); [reflexivity | | exact HTr |].
    + intros E. rewrite E in HTl. discriminate.
    + rewrite np_ones_length. intros E. apply Hrc. apply sqrt_rows. exact E.
  - unfold hits. rewrite Hsize. reflexivity.
Qed.

(** No entry of [v] is NaN. *)
Definition no_nan (v : vec) : bool := forallb (fun x => negb (is_nan x)) v.

Lemma np_isclose_self x : np_isclose x x = negb (is_nan x).
Proof.
  unfold np_isclose, is_finite, is_nan. destruct (x =? x).
  - apply orb_true_r.
  - simpl. rewrite andb_false_r. reflexivity.
Qed.

Lemma forallb_combine_self (v : vec) :
  forallb (fun p => np_isclose (fst p) (snd p)) (combine v v) = no_nan v.
Proof.
  unfold no_nan. induction v as [|x v IH]; [reflexivity|].
  simpl. rewrite IH, np_isclose_self. reflexivity.
Qed.

Lemma forallb_perm {A : Type} (f : A -> bool) (l l' : list A) :
  Permutation l l' -> forallb f l = forallb f l'.
Proof.
  induction 1 as [|x l l' _ IH|x y l|l l' l'' _ IH1 _ IH2]; simpl.
  - reflexivity.
  - rewrite IH. reflexivity.
  - rewrite !andb_assoc, (andb_comm (f y)). reflexivity.
  - congruence.
Qed.

Lemma np_allclose_self (v : vec) : np_allclose v v = Returned (no_nan v).
Proof.
  rewrite np_allclose_same_length by reflexivity.
  rewrite forallb_combine_self. reflexivity.
Qed.

(** X2.  Comparing a matrix with itself: when [hits] returns scores for it,
    [comparison a a] prints the same sorted scores twice, and the verdict is
    [Similar] exactly when no score is NaN (a NaN is not close to itself). *)
Theorem comparison_with_itself (a : matrix) (authority hub : vec) :
  hits a 40 true = Returned (authority, hub) ->
  comparison a a =
    Returned
      [ ScoreLine Text.authority_A (np_sort authority) 40;
        ScoreLine Text.hub_A (np_sort hub) 40;
        ScoreLine Text.authority_B (np_sort authority) 40;
        ScoreLine Text.hub_B (np_sort hub) 40;
        verdict_line (no_nan authority && no_nan hub) ].
Proof.
  intros H. unfold comparison, hits_default, default_k, default_normalize.
  rewrite H. cbn [bind]. rewrite !np_allclose_self. cbn [bind].
  unfold no_nan.
  rewrite <- (forallb_perm _ _ _ (np_sort_perm authority)).
  rewrite <- (forallb_perm _ _ _ (np_sort_perm hub)). reflexivity.
Qed.

Lemma np_sort_nans n : np_sort (repeat nan n) = repeat nan n.
Proof.
  induction n as [|n IH]; [reflexivity|].
  cbn [repeat np_sort fold_right]. fold (np_sort (repeat nan n)). rewrite IH.
  destruct n; reflexivity.
Qed.

(** X3.  The all-zero matrix of any size is reported as not similar to
    itself: its normalized scores are all NaN, which [np.allclose] never
    accepts. *)
Theorem comparison_zero_matrix_with_itself (n : nat) :
  comparison (zero_matrix (S n)) (zero_matrix (S n)) =
    Returned
      [ ScoreLine Text.authority_A (repeat nan (S n)) 40;
        ScoreLine Text.hub_A (repeat nan (S n)) 40;
        ScoreLine Text.authority_B (repeat nan (S n)) 40;
        ScoreLine Text.hub_B (repeat nan (S n)) 40;
        TextLine Text.not_similar ].
Proof.
  assert (E : hits (zero_matrix (S n)) 40 true =
              Returned (repeat nan (S n), repeat nan (S n))).
  { rewrite (hits_rounds (S n) (zero_matrix (S n)) 40 true (square_zero_matrix (S n))).
    f_equal. apply (zero_matrix_rounds n 39). }
  unfold comparison, hits_default, default_k, default_normalize.
  rewrite E. cbn [bind]. rewrite !np_sort_nans, !np_allclose_self. cbn [bind].
  replace (no_nan (repeat nan (S n))) with false; reflexivity.
Qed.


End Program.

(** ** A reference arithmetic

    One arithmetic that obeys the laws: every row is summed from the left,
    each product and each sum rounded once, and the two powers are the
    correctly rounded product and square root.  It serves to run the program
    on examples; the properties above hold for any other arithmetic of the
    interface as well. *)

Definition dot_left_to_right (r v : vec) : float :=
  fold_left (fun acc p => acc + p) (products r v) 0.

Lemma fold_add_zeros (l : vec) :
  Forall (fun p => p = 0) l -> fold_left (fun acc p => acc + p) l 0 = 0.
Proof.
  induction 1 as [|p l Hp _ IH]; [reflexivity|].
  cbn [fold_left]. rewrite Hp. change (0 + 0) with 0. exact IH.
Qed.

Lemma fold_add_from_nan (l : vec) : fold_left (fun acc p => acc + p) l nan = nan.
Proof.
  induction l as [|p l IH]; [reflexivity|].
  cbn [fold_left]. rewrite add_nan_l. exact IH.
Qed.

Lemma fold_add_with_nan (l : vec) : forall acc,
  In nan l -> fold_left (fun acc p => acc + p) l acc = nan.
Proof.
  induction l as [|p l IH]; intros acc Hin; [destruct Hin|].
  cbn [fold_left]. destruct Hin as [->|Hin].
  - rewrite add_nan_r. apply fold_add_from_nan.
  - apply IH, Hin.
Qed.

Lemma fold_add_repeat_zero k p :
  p <> neg_zero -> fold_left (fun acc q => acc + q) (repeat 0 k) p = p.
Proof.
  intros Hp. induction k as [|k IH]; [reflexivity|].
  cbn [repeat fold_left]. rewrite (add_zero_r p Hp). exact IH.
Qed.

Lemma nth_map_rows (f : vec -> float) (m : matrix) (i : nat) :
  (i < length m)%nat -> nth i (map f m) 0 = f (nth i m []).
Proof.
  intros Hi. rewrite (nth_indep _ 0 (f [])) by (rewrite length_map; exact Hi).
  apply map_nth.
Qed.

Definition gemv_left_to_right (m : matrix) (v : vec) : vec :=
  map (fun r => dot_left_to_right r v) m.

Lemma zero_terms_products (l : list (float * float)) :
  Forall zero_term l -> map (fun xy => fst xy * snd xy) l = repeat 0 (length l).
Proof.
  induction 1 as [|ax l [_ Hp] _ IH]; [reflexivity|].
  cbn [map length repeat]. rewrite Hp, IH. reflexivity.
Qed.

Lemma repeat_zeros n : Forall (fun p => p = 0) (repeat 0 n).
Proof. apply Forall_forall. intros q Hq. apply repeat_spec in Hq. exact Hq. Qed.

Lemma gemv_left_to_right_zero m v i :
  (i < length m)%nat -> Forall zero_term (combine (nth i m []) v) ->
  nth i (gemv_left_to_right m v) 0 = 0.
Proof.
  intros Hi Hz. unfold gemv_left_to_right. rewrite nth_map_rows by exact Hi.
  cbv beta. unfold dot_left_to_right, products. unfold matrix, vec in *.
  rewrite (zero_terms_products _ Hz). apply fold_add_zeros, repeat_zeros.
Qed.

Lemma gemv_left_to_right_nan m v i :
  (i < length m)%nat -> In nan (products (nth i m []) v) ->
  nth i (gemv_left_to_right m v) 0 = nan.
Proof.
  intros Hi Hn. unfold gemv_left_to_right. rewrite nth_map_rows by exact Hi.
  cbv beta. apply fold_add_with_nan, Hn.
Qed.

Lemma gemv_left_to_right_single m v i zs ax zs' :
  (i < length m)%nat ->
  combine (nth i m []) v = zs ++ ax :: zs' ->
  Forall zero_term zs -> Forall zero_term zs' ->
  fst ax * snd ax <> neg_zero ->
  nth i (gemv_left_to_right m v) 0 = fst ax * snd ax.
Proof.
  intros Hi Hc Hzs Hzs' Hneg. unfold gemv_left_to_right.
  rewrite nth_map_rows by exact Hi.
  cbv beta. unfold dot_left_to_right, products. unfold matrix, vec in *.
  rewrite Hc, map_app. cbn [map].
  rewrite (zero_terms_products _ Hzs), (zero_terms_products _ Hzs'), fold_left_app.
  rewrite fold_add_zeros by apply repeat_zeros.
  cbn [fold_left]. rewrite (add_zero_l _ Hneg).
  apply fold_add_repeat_zero, Hneg.
Qed.

#[export] Instance left_to_right : Arith := {|
  blas_gemv := fun _ => gemv_left_to_right;
  pow_2 := fun x => x * x;
  pow_half := PrimFloat.sqrt;
  blas_gemv_length := fun _ m v => length_map (fun r => dot_left_to_right r v) m;
  blas_gemv_zero := fun _ => gemv_left_to_right_zero;
  blas_gemv_nan := fun _ => gemv_left_to_right_nan;
  blas_gemv_single := fun _ => gemv_left_to_right_single;
  pow_2_zero := eq_refl;
  pow_half_zero := eq_refl;
  pow_2_unsigned := mul_self_unsigned;
  pow_2_near := fun x => or_intror (or_introl eq_refl);
  pow_half_near := fun x _ => or_intror (or_introl eq_refl)
|}.

(** *** The program on examples *)

Lemma hits_is_k_rounds_witness :
  square 2 [[0; 1]; [1; 0]] /\
  hits [[0; 1]; [1; 0]] 3 true = Returned (hits_machine 2 [[0; 1]; [1; 0]] 3 true).
Proof.
  assert (H : square 2 [[0; 1]; [1; 0]]) by (split; [reflexivity | repeat constructor]).
  split; [exact H | exact (proj1 (proj2 (hits_is_k_rounds 2 _ 3 true H)))].
Defined.

(** C5, counterexample: on [[0; 0]] the call returns [[nan; nan]], and the
    computation that called it ([hits] on the zero matrix) is not aborted.
    By the theorem above every arithmetic of the interface gives these
    values. *)
Lemma normalization_zero_returns_nan :
  normalization [0; 0] = [nan; nan] /\
  hits [[0; 0]; [0; 0]] 1 true = Returned ([nan; nan], [nan; nan]).
Proof. split; reflexivity. Qed.

Lemma comparison_prints_verdict_and_scores_witness :
  square 2 [[0; 1]; [1; 0]] /\ square 2 [[0; 1]; [0; 0]] /\
  exists lines, comparison [[0; 1]; [1; 0]] [[0; 1]; [0; 0]] = Returned lines.
Proof.
  assert (Ha : square 2 [[0; 1]; [1; 0]]) by (split; [reflexivity | repeat constructor]).
  assert (Hb : square 2 [[0; 1]; [0; 0]]) by (split; [reflexivity | repeat constructor]).
  split; [exact Ha | split; [exact Hb |]].
  destruct (comparison_prints_verdict_and_scores 2 _ _ Ha Hb)
    as (aA & hA & aB & hB & ae & he & _ & _ & _ & _ & _ & _ & _ & _ & H & _).
  eexists. exact H.
Defined.

(** C8, counterexample: for a 2 by 2 and a 3 by 3 adjacency matrix
    [np.allclose] cannot broadcast the score vectors, and [comparison]
    raises before it prints anything.  Only the lengths of the score vectors
    matter here, not how the scores are rounded. *)
Lemma comparison_raises_on_different_sizes :
  comparison [[0; 1]; [1; 0]] [[0; 1; 0]; [1; 0; 1]; [0; 1; 0]] = Raised ValueError.
Proof. vm_compute. reflexivity. Qed.

(** With the reference arithmetic all scores of the two-node cycle are the
    float just above [1 / sqrt 2]. *)
Example hits_two_cycle_reference :
  hits two_cycle 40 true =
  Returned ([next_up (1 / PrimFloat.sqrt 2); next_up (1 / PrimFloat.sqrt 2)],
            [next_up (1 / PrimFloat.sqrt 2); next_up (1 / PrimFloat.sqrt 2)]).
Proof. vm_compute. reflexivity. Qed.

Lemma hits_accepts_near_square_witness :
  shaped 2 3 [[1; 1; 1]; [1; 1; 1]] /\
  exists authority hub,
    hits [[1; 1; 1]; [1; 1; 1]] 3 true = Returned (authority, hub) /\
    length authority = 3%nat /\ length hub = 2%nat.
Proof.
  assert (H : shaped 2 3 [[1; 1; 1]; [1; 1; 1]]) by (split; [reflexivity | repeat constructor]).
  split; [exact H|].
  apply (proj1 (hits_accepts_near_square 1 2 _ 2 true H)). lia.
Defined.

Lemma comparison_with_itself_witness :
  exists lines, comparison two_cycle two_cycle = Returned lines /\
                nth 4 lines (TextLine Text.not_similar) = TextLine Text.similar.
Proof.
  eexists. split.
  - apply (comparison_with_itself two_cycle). vm_compute. reflexivity.
  - vm_compute. reflexivity.
Defined.

End Hits.

(* ================================================================== *)
(** * scipy.spatial.distance.euclidean on integer vectors *)
(* ================================================================== *)

Module Scipy.

#[local] Open Scope Z_scope.

(** The non-negative real number [sqrt radicand]: the value of a Euclidean
    distance between two integer vectors, kept exactly. *)
Record root : Type := Root { radicand : Z }.

Definition root_R (r : root) : Rdefinitions.R :=
  R_sqrt.sqrt (Rdefinitions.IZR (radicand r)).

(** ** How the program compares distances

    The program never holds the exact root: [euclidean] returns its float64
    value, and [min] and [list.index] in [closest_node] compare those values
    with [<] and [==].  The two comparisons are the operations of an
    interface, with what is known of them as its laws:
    - while the squared distance is below 2^52, the sum of squares is exact
      in float64 and the correctly rounded square root is strictly
      increasing, so the floats compare as the squared distances do;
    - the distance of a vector to itself is the float 0, and every other
      distance is a float above 0;
    - a distance equals itself (it is never NaN). *)
Class Float64 : Type := {
  root_ltb : root -> root -> bool;
  root_eqb : root -> root -> bool;
  root_ltb_exact : forall a b,
    0 <= a < 2 ^ 52 -> 0 <= b < 2 ^ 52 -> root_ltb (Root a) (Root b) = (a <? b);
  root_eqb_exact : forall a b,
    0 <= a < 2 ^ 52 -> 0 <= b < 2 ^ 52 -> root_eqb (Root a) (Root b) = (a =? b);
  root_ltb_zero_r : forall a, 0 <= a -> root_ltb (Root a) (Root 0) = false;
  root_ltb_zero_l : forall a, 0 < a -> root_ltb (Root 0) (Root a) = true;
  root_eqb_zero : forall a, 0 <= a -> root_eqb (Root a) (Root 0) = (a =? 0);
  root_eqb_refl : forall a, root_eqb a a = true
}.

(** The comparisons of the exact values.  By the first law they are the
    program's on every input whose squared distances stay below 2^52; they
    serve to run the program on such inputs. *)
#[export] Instance exact_roots : Float64 := {|
  root_ltb := fun a b => radicand a <? radicand b;
  root_eqb := fun a b => radicand a =? radicand b;
  root_ltb_exact := fun a b _ _ => eq_refl;
  root_eqb_exact := fun a b _ _ => eq_refl;
  root_ltb_zero_r := fun a H => proj2 (Z.ltb_ge a 0) H;
  root_ltb_zero_l := fun a H => proj2 (Z.ltb_lt 0 a) H;
  root_eqb_zero := fun a _ => eq_refl;
  root_eqb_refl := fun a => Z.eqb_refl (radicand a)
|}.

(** The sum of the squared differences of two vectors, entry by entry. *)
Fixpoint sqdiff (u v : list Z) : Z :=
  match u, v with
  | x :: u', y :: v' => (x - y) * (x - y) + sqdiff u' v'
  | _, _ => 0
  end.

(** [euclidean(u, v)]: [norm(u - v)].  The difference [u - v] follows numpy
    broadcasting: equal lengths, or one operand of length one; any other
    pair of lengths raises [ValueError]. *)
Definition euclidean (u v : list Z) : outcome root :=
  if Nat.eqb (length u) (length v) then Returned (Root (sqdiff u v))
  else if Nat.eqb (length u) 1 then
    Returned (Root (sqdiff (repeat (hd 0 u) (length v)) v))
  else if Nat.eqb (length v) 1 then
    Returned (Root (sqdiff u (repeat (hd 0 v) (length u))))
  else Raised ValueError.

(** The sum of the squares of a vector. *)
Fixpoint sumsq (u : list Z) : Z :=
  match u with
  | [] => 0
  | x :: u' => x * x + sumsq u'
  end.

(** The squared distance of two vectors of any lengths, the shorter one read
    as if it went on with zeros. *)
Fixpoint padded_sq (u v : list Z) : Z :=
  match u, v with
  | [], _ => sumsq v
  | _, [] => sumsq u
  | x :: u', y :: v' => (x - y) * (x - y) + padded_sq u' v'
  end.

(** [u] extended with zeros up to the length of [v]. *)
Definition pad_to (u v : list Z) : list Z :=
  u ++ repeat 0 (length v - length u).

(** Two vectors that are equal once the shorter is zero-padded. *)
Definition same_padded (u v : list Z) : Prop := pad_to u v = pad_to v u.

(** ** Properties of the distance *)

Lemma sumsq_nonneg u : 0 <= sumsq u.
Proof.
  induction u as [|x u IH]; cbn [sumsq]; [lia|].
  pose proof (Z.square_nonneg x). lia.
Qed.

Lemma padded_sq_nonneg u : forall v, 0 <= padded_sq u v.
Proof.
  induction u as [|x u IH]; intros v; cbn [padded_sq].
  - apply sumsq_nonneg.
  - destruct v as [|y v].
    + apply (sumsq_nonneg (x :: u)).
    + specialize (IH v). pose proof (Z.square_nonneg (x - y)). lia.
Qed.

Lemma padded_sq_nil_r u : padded_sq u [] = sumsq u.
Proof. destruct u; reflexivity. Qed.

Lemma padded_sq_sym u : forall v, padded_sq u v = padded_sq v u.
Proof.
  induction u as [|x u IH]; intros v.
  - rewrite padded_sq_nil_r. reflexivity.
  - destruct v as [|y v]; [reflexivity|]. simpl. rewrite (IH v). ring.
Qed.

Lemma sqdiff_padded u : forall v, length u = length v -> sqdiff u v = padded_sq u v.
Proof.
  induction u as [|x u IH]; intros [|y v] H; simpl in *; try discriminate.
  - reflexivity.
  - rewrite (IH v) by lia. reflexivity.
Qed.

Lemma sumsq_zeros k : sumsq (repeat 0 k) = 0.
Proof. induction k as [|k IH]; simpl; [reflexivity | rewrite IH; reflexivity]. Qed.

Lemma padded_sq_zeros_l k : forall v, padded_sq (repeat 0 k) v = sumsq v.
Proof.
  induction k as [|k IH]; intros v; simpl; [reflexivity|].
  destruct v as [|y v]; simpl.
  - apply sumsq_zeros.
  - rewrite IH. ring.
Qed.

Lemma padded_sq_app_zeros_l u k : forall v,
  padded_sq (u ++ repeat 0 k) v = padded_sq u v.
Proof.
  induction u as [|x u IH]; intros v.
  - simpl. apply padded_sq_zeros_l.
  - destruct v as [|y v].
    + rewrite !padded_sq_nil_r. simpl. f_equal.
      specialize (IH []). rewrite !padded_sq_nil_r in IH. exact IH.
    + simpl. rewrite IH. reflexivity.
Qed.

Lemma padded_sq_app_zeros_r u v k :
  padded_sq u (v ++ repeat 0 k) = padded_sq u v.
Proof.
  rewrite padded_sq_sym, padded_sq_app_zeros_l. apply padded_sq_sym.
Qed.

Lemma padded_sq_refl u : padded_sq u u = 0.
Proof. induction u as [|x u IH]; simpl; [reflexivity | rewrite IH; ring]. Qed.

Lemma pad_to_length u v : length (pad_to u v) = Nat.max (length u) (length v).
Proof. unfold pad_to. rewrite length_app, repeat_length. lia. Qed.

Lemma padded_sq_pad u v : padded_sq u v = sqdiff (pad_to u v) (pad_to v u).
Proof.
  rewrite sqdiff_padded by (rewrite !pad_to_length; lia).
  unfold pad_to. rewrite padded_sq_app_zeros_l, padded_sq_app_zeros_r. reflexivity.
Qed.

Lemma sqdiff_zero u : forall v, length u = length v -> sqdiff u v = 0 -> u = v.
Proof.
  induction u as [|x u IH]; intros [|y v] Hl H; simpl in *; try discriminate.
  - reflexivity.
  - assert (Hn : 0 <= sqdiff u v).
    { rewrite sqdiff_padded by lia. apply padded_sq_nonneg. }
    pose proof (Z.square_nonneg (x - y)) as Hsq.
    assert (Hxy : (x - y) * (x - y) = 0) by lia.
    assert (x = y) by nia. subst y.
    f_equal. apply IH; [lia | lia].
Qed.

Lemma padded_sq_zero_iff u v : padded_sq u v = 0 <-> same_padded u v.
Proof.
  unfold same_padded. rewrite padded_sq_pad. split.
  - apply sqdiff_zero. rewrite !pad_to_length. lia.
  - intros ->. rewrite sqdiff_padded by reflexivity. apply padded_sq_refl.
Qed.

Lemma euclidean_same_length u v :
  length u = length v -> euclidean u v = Returned (Root (padded_sq u v)).
Proof.
  intros H. unfold euclidean. rewrite H, Nat.eqb_refl.
  rewrite sqdiff_padded by exact H. reflexivity.
Qed.

(** A squared distance below 2^52. *)
Definition small (z : Z) : Prop := 0 <= z < 2 ^ 52.

End Scipy.

(* ================================================================== *)
(** * networkx.Graph *)
(* ================================================================== *)

Module Nx.

#[local] Open Scope Z_scope.

Section Graphs.

Context {W : Type}.

(** An undirected graph without parallel edges: its nodes in insertion
    order, and its edges in insertion order, each with its endpoints as given
    when the edge was first added and its [weight] attribute, if it has one. *)
Record graph : Type := Graph {
  nodes : list Z;
  edges : list (Z * Z * option W)
}.

Definition empty : graph := Graph [] [].

(** The edge [e] joins [u] and [v], in either direction. *)
Definition joins (u v : Z) (e : Z * Z * option W) : bool :=
  let '(a, b, _) := e in
  ((a =? u) && (b =? v)) || ((a =? v) && (b =? u)).

Definition has_node (g : graph) (n : Z) : bool := existsb (Z.eqb n) (nodes g).

Definition has_edge (g : graph) (u v : Z) : bool := existsb (joins u v) (edges g).

(** [G.add_node(n)]. *)
Definition add_node (g : graph) (n : Z) : graph :=
  if has_node g n then g else Graph (nodes g ++ [n]) (edges g).

(** [G.add_edge(u, v, weight=w)]: both endpoints become nodes; an edge that
    is already there has its weight replaced. *)
Definition add_edge (g : graph) (u v : Z) (w : W) : graph :=
  let g := add_node (add_node g u) v in
  if has_edge g u v
  then Graph (nodes g)
         (map (fun e => if joins u v e then (fst e, Some w) else e) (edges g))
  else Graph (nodes g) (edges g ++ [(u, v, Some w)]).

(** [G[u][v]['weight']]: [KeyError] without the edge or without the
    attribute. *)
Definition get_weight (g : graph) (u v : Z) : outcome W :=
  match find (joins u v) (edges g) with
  | Some (_, _, Some w) => Returned w
  | _ => Raised KeyError
  end.

(** [G.remove_edge(u, v)]: [NetworkXError] when there is no such edge. *)
Definition remove_edge (g : graph) (u v : Z) : outcome graph :=
  if has_edge g u v
  then Returned (Graph (nodes g) (filter (fun e => negb (joins u v e)) (edges g)))
  else Raised NetworkXError.

(** The neighbours of [u], in the order its edges were added. *)
Definition neighbors (g : graph) (u : Z) : list Z :=
  flat_map (fun e : Z * Z * option W =>
              let '(a, b, _) := e in
              if a =? u then [b] else if b =? u then [a] else [])
           (edges g).

(** ** Paths *)

Definition adjacent (g : graph) (u v : Z) : Prop := In v (neighbors g u).

(** [reach g s k v]: [v] is [k] edges away from [s] along some walk. *)
Inductive reach (g : graph) (s : Z) : nat -> Z -> Prop :=
| reach_here : reach g s O s
| reach_step (k : nat) (u v : Z) :
    reach g s k u -> adjacent g u v -> reach g s (S k) v.

(** Consecutive nodes of [p] are adjacent. *)
Fixpoint walk (g : graph) (p : list Z) : Prop :=
  match p with
  | [] => True
  | u :: p' =>
      match p' with
      | [] => True
      | v :: _ => adjacent g u v /\ walk g p'
      end
  end.

(** [p] is a walk of [g] from [s] to [t]. *)
Definition path (g : graph) (s t : Z) (p : list Z) : Prop :=
  walk g p /\ hd_error p = Some s /\ last p s = t.

(** The number of edges of a path. *)
Definition hops (p : list Z) : nat := pred (length p).

(** The consecutive pairs of a node list: the edges a path runs along. *)
Fixpoint steps (p : list Z) : list (Z * Z) :=
  match p with
  | [] => []
  | u :: p' =>
      match p' with
      | [] => []
      | v :: _ => (u, v) :: steps p'
      end
  end.

(** The edge [e] lies on the path [p]. *)
Definition on_path (p : list Z) (e : Z * Z * option W) : bool :=
  existsb (fun uv : Z * Z => joins (fst uv) (snd uv) e) (steps p).

(** ** [nx.shortest_path] and [nx.has_path]

    [nx.shortest_path(G, source, target)] without weights returns a path with
    the fewest edges, as the list of its nodes; it raises [NodeNotFound] when
    an endpoint is not in the graph and [NetworkXNoPath] when the two are not
    connected.  Which of several equally short paths it returns is decided by
    the search networkx runs (a bidirectional breadth-first search), not by
    the program, so the function is the operation of an interface whose laws
    say what every such search returns. *)
Class Search : Type := {
  shortest_path : graph -> Z -> Z -> outcome (list Z);
  shortest_path_missing : forall g s t,
    has_node g s = false \/ has_node g t = false ->
    shortest_path g s t = Raised NodeNotFound;
  shortest_path_spec : forall g s t,
    has_node g s = true -> has_node g t = true ->
    match shortest_path g s t with
    | Returned p =>
        path g s t p /\ NoDup p /\ (forall q, path g s t q -> (hops p <= hops q)%nat)
    | Raised e => e = NetworkXNoPath /\ (forall q, ~ path g s t q)
    end
}.

(** [nx.has_path(G, source, target)]: whether [shortest_path] finds a path;
    [NodeNotFound] is not caught. *)
Definition has_path {search : Search} (g : graph) (source target : Z) : outcome bool :=
  match shortest_path g source target with
  | Returned _ => Returned true
  | Raised NetworkXNoPath => Returned false
  | Raised e => Raised e
  end.

(** ** Breadth-first search for a path with the fewest edges

    A frontier entry [(v, q)] is a node [v] reached in this layer and the
    nodes before it on the way from the source, last one first. *)

Definition mem (v : Z) (l : list Z) : bool := existsb (Z.eqb v) l.

Fixpoint expand_node (seen : list Z) (u : Z) (q : list Z) (nbrs : list Z)
    : list Z * list (Z * list Z) :=
  match nbrs with
  | [] => (seen, [])
  | v :: rest =>
      if mem v seen then expand_node seen u q rest
      else
        let '(seen', new) := expand_node (v :: seen) u q rest in
        (seen', (v, u :: q) :: new)
  end.

Fixpoint expand_layer (g : graph) (seen : list Z) (frontier : list (Z * list Z))
    : list Z * list (Z * list Z) :=
  match frontier with
  | [] => (seen, [])
  | (u, q) :: rest =>
      let '(seen1, new1) := expand_node seen u q (neighbors g u) in
      let '(seen2, new2) := expand_layer g seen1 rest in
      (seen2, new1 ++ new2)
  end.

Fixpoint bfs (fuel : nat) (g : graph) (t : Z) (seen : list Z)
    (frontier : list (Z * list Z)) : option (list Z) :=
  match find (fun p : Z * list Z => fst p =? t) frontier with
  | Some (v, q) => Some (rev (v :: q))
  | None =>
      match fuel, frontier with
      | O, _ => None
      | _, [] => None
      | S fuel', _ =>
          let '(seen', next) := expand_layer g seen frontier in
          bfs fuel' g t seen' next
      end
  end.

(** One search that obeys the laws: a breadth-first search from the source,
    which returns the first path it finds.  It needs at most one layer per
    node it can reach. *)
Definition bfs_shortest_path (g : graph) (source target : Z) : outcome (list Z) :=
  if negb (has_node g source) || negb (has_node g target)
  then Raised NodeNotFound
  else
    match bfs (S (S (2 * length (edges g)))) g target [source] [(source, [])] with
    | Some p => Returned p
    | None => Raised NetworkXNoPath
    end.

End Graphs.

Arguments graph W : clear implicits.
Arguments Search W : clear implicits.

(** ** Properties of the graph operations *)

Section GraphFacts.

Context {W : Type}.
Implicit Types (g : graph W) (u v s t : Z) (p q : list Z).

Lemma mem_In v (l : list Z) : mem v l = true <-> In v l.
Proof.
  unfold mem. rewrite existsb_exists. split.
  - intros [x [Hx E]]. apply Z.eqb_eq in E. subst x. exact Hx.
  - intros H. exists v. split; [exact H | apply Z.eqb_refl].
Qed.

Lemma mem_false v (l : list Z) : mem v l = false <-> ~ In v l.
Proof.
  rewrite <- mem_In. destruct (mem v l); split; intros H; try discriminate;
    try reflexivity; try (intros H'; discriminate H'). exfalso. apply H. reflexivity.
Qed.

Lemma has_node_In g n : has_node g n = true <-> In n (nodes g).
Proof. apply mem_In. Qed.

Lemma expand_node_spec u q nbrs :
  forall seen seen' new,
    expand_node seen u q nbrs = (seen', new) ->
    (forall v, In v seen' <-> In v seen \/ In v nbrs) /\
    (forall v p, In (v, p) new -> p = u :: q /\ In v nbrs /\ ~ In v seen) /\
    (forall v, In v seen' -> In v seen \/ In v (map fst new)) /\
    (NoDup seen -> NoDup seen') /\
    length seen' = (length seen + length new)%nat.
Proof.
  induction nbrs as [|v rest IH]; intros seen seen' new H; simpl in H.
  - injection H as <- <-. repeat split; simpl; auto; try tauto.
  - destruct (mem v seen) eqn:Em.
    + apply mem_In in Em.
      destruct (IH _ _ _ H) as (A & B & C & D & E).
      repeat split; auto.
      * intros Hx. apply A in Hx. simpl. tauto.
      * intros [Hx|[->|Hx]]; apply A; auto.
      * apply (B _ _ H0).
      * right. apply (B _ _ H0).
      * apply (B _ _ H0).
    + apply mem_false in Em.
      destruct (expand_node (v :: seen) u q rest) as [s1 n1] eqn:E1.
      injection H as <- <-.
      destruct (IH _ _ _ E1) as (A & B & C & D & E).
      repeat split.
      * intros Hx. apply A in Hx. simpl in *. tauto.
      * intros Hx. apply A. simpl in *. tauto.
      * destruct H as [H|H]; [injection H as <- <-; reflexivity | apply (B _ _ H)].
      * destruct H as [H|H]; [injection H as <- <-; left; reflexivity|].
        right. apply (B _ _ H).
      * destruct H as [H|H]; [injection H as <- <-; exact Em|].
        intros Hs. apply (B _ _ H). right. exact Hs.
      * intros x Hx. apply C in Hx. simpl in *. tauto.
      * intros Hnd. apply D. constructor; assumption.
      * rewrite E. simpl. lia.
Qed.

Definition heads (f : list (Z * list Z)) : list Z := map fst f.

Lemma neighbors_adjacent g u v : In v (neighbors g u) <-> adjacent g u v.
Proof. reflexivity. Qed.

Lemma expand_layer_spec g frontier :
  forall seen seen' next,
    expand_layer g seen frontier = (seen', next) ->
    (forall v, In v seen' <->
               In v seen \/ exists u q, In (u, q) frontier /\ adjacent g u v) /\
    (forall v p, In (v, p) next ->
       exists u q, In (u, q) frontier /\ p = u :: q /\ adjacent g u v /\ ~ In v seen) /\
    (forall v, In v seen' -> In v seen \/ In v (heads next)) /\
    (NoDup seen -> NoDup seen') /\
    length seen' = (length seen + length next)%nat.
Proof.
  induction frontier as [|[u q] rest IH]; intros seen seen' next H; simpl in H.
  - injection H as <- <-. repeat split; simpl; auto; try tauto.
    intros [Hx|(u & q & [] & _)]. exact Hx.
  - destruct (expand_node seen u q (neighbors g u)) as [s1 n1] eqn:E1.
    destruct (expand_layer g s1 rest) as [s2 n2] eqn:E2.
    injection H as <- <-.
    destruct (expand_node_spec _ _ _ _ _ _ E1) as (A1 & B1 & C1 & D1 & L1).
    destruct (IH _ _ _ E2) as (A2 & B2 & C2 & D2 & L2).
    repeat split.
    + intros Hx. apply A2 in Hx. destruct Hx as [Hx|(u' & q' & Hin & Hadj)].
      * apply A1 in Hx. destruct Hx as [Hx|Hx]; [left; exact Hx|].
        right. exists u, q. split; [left; reflexivity | exact Hx].
      * right. exists u', q'. split; [right; exact Hin | exact Hadj].
    + intros [Hx|(u' & q' & [Hin|Hin] & Hadj)]; apply A2.
      * left. apply A1. left. exact Hx.
      * injection Hin as <- <-. left. apply A1. right. exact Hadj.
      * right. exists u', q'. split; assumption.
    + intros v p Hin. apply in_app_or in Hin. destruct Hin as [Hin|Hin].
      * destruct (B1 _ _ Hin) as (-> & Hn & Hs).
        exists u, q. repeat split; auto. left; reflexivity.
      * destruct (B2 _ _ Hin) as (u' & q' & Hf & -> & Hadj & Hs).
        exists u', q'. repeat split; auto.
        -- right; exact Hf.
        -- intros Hv. apply Hs. apply A1. left. exact Hv.
    + intros v Hv. unfold heads. rewrite map_app, in_app_iff.
      apply C2 in Hv. destruct Hv as [Hv|Hv]; [|right; right; exact Hv].
      apply C1 in Hv. destruct Hv as [Hv|Hv]; [left; exact Hv | right; left; exact Hv].
    + intros Hnd. apply D2, D1, Hnd.
    + rewrite L2, L1, length_app. lia.
Qed.

(** Walks *)

Lemma walk_snoc g p v :
  walk g p -> (forall u, last p v = u -> p <> [] -> adjacent g u v) ->
  walk g (p ++ [v]).
Proof.
  induction p as [|a p IH]; intros Hw Hl.
  - exact I.
  - destruct p as [|b p].
    + simpl. split; [|exact I]. apply (Hl a); [reflexivity | discriminate].
    + destruct Hw as [Hab Hw]. split; [exact Hab|].
      apply IH; [exact Hw|]. intros u Hu _. apply Hl; [exact Hu | discriminate].
Qed.

Lemma last_snoc {A : Type} (l : list A) (x d : A) : last (l ++ [x]) d = x.
Proof.
  induction l as [|a l IH]; [reflexivity|].
  simpl. destruct (l ++ [x]) eqn:E; [destruct l; discriminate | exact IH].
Qed.

Lemma last_default {A : Type} (l : list A) (d d' : A) :
  l <> [] -> last l d = last l d'.
Proof.
  induction l as [|a l IH]; intros H; [contradiction|].
  destruct l as [|b l]; [reflexivity|]. apply IH. discriminate.
Qed.

Lemma path_extend g s u v p :
  path g s u p -> adjacent g u v -> path g s v (p ++ [v]).
Proof.
  intros (Hw & Hh & Hl) Hadj. split; [|split].
  - apply walk_snoc; [exact Hw|]. intros u' Hu' Hne.
    destruct p as [|a p]; [contradiction|].
    assert (last (a :: p) v = last (a :: p) s) by (apply last_default; discriminate).
    congruence.
  - destruct p; [discriminate | exact Hh].
  - apply last_snoc.
Qed.

Lemma path_single g s : path g s s [s].
Proof. split; [exact I | split; reflexivity]. Qed.

Lemma reach_path g s k t :
  reach g s k t -> exists p, path g s t p /\ hops p = k.
Proof.
  induction 1 as [|k u v _ [p [Hp Hk]] Hadj].
  - exists [s]. split; [apply path_single | reflexivity].
  - exists (p ++ [v]). split; [eapply path_extend; eassumption|].
    unfold hops in *. rewrite length_app. simpl.
    destruct Hp as (_ & Hh & _). destruct p; [discriminate|]. simpl in *. lia.
Qed.

Lemma walk_prefix g p v : walk g (p ++ [v]) -> walk g p.
Proof.
  induction p as [|a p IH]; intros H; [exact I|].
  destruct p as [|b p]; [exact I|].
  destruct H as [Hab H]. split; [exact Hab | apply IH; exact H].
Qed.

Lemma walk_last_step g p u v : walk g (p ++ [u; v]) -> adjacent g u v.
Proof.
  induction p as [|a p IH]; intros H.
  - destruct H as [H _]. exact H.
  - apply IH. destruct p as [|b p]; simpl in *; apply H.
Qed.

Lemma path_reach g s t p : path g s t p -> reach g s (hops p) t.
Proof.
  revert t. induction p as [|v p IH] using rev_ind; intros t (Hw & Hh & Hl).
  - discriminate.
  - rewrite last_snoc in Hl. subst t.
    destruct p as [|a p] using rev_ind.
    + simpl in Hh. injection Hh as ->. apply reach_here.
    + clear IHp. unfold hops. rewrite !length_app. simpl.
      replace (pred (length p + 1 + 1)) with (S (pred (length (p ++ [a])))) 
        by (rewrite length_app; simpl; lia).
      apply reach_step with (u := a).
      * apply IH. split; [|split].
        -- apply walk_prefix in Hw. exact Hw.
        -- destruct p; simpl in *; exact Hh.
        -- apply last_snoc.
      * rewrite <- app_assoc in Hw. simpl in Hw. apply walk_last_step in Hw. exact Hw.
Qed.

(** The nodes that occur as an endpoint of an edge. *)
Definition endpoints g : list Z :=
  flat_map (fun e : Z * Z * option W => [fst (fst e); snd (fst e)]) (edges g).

Lemma endpoints_length g : length (endpoints g) = (2 * length (edges g))%nat.
Proof.
  unfold endpoints. induction (edges g) as [|e l IH]; simpl; [reflexivity | lia].
Qed.

Lemma adjacent_endpoint g u v : adjacent g u v -> In v (endpoints g).
Proof.
  unfold adjacent, neighbors, endpoints. rewrite !in_flat_map.
  intros [[[a b] w] [He Hv]]. exists (a, b, w). split; [exact He|]. simpl.
  destruct (a =? u); [destruct Hv as [<-|[]]; auto|].
  destruct (b =? u); [destruct Hv as [<-|[]]; auto | destruct Hv].
Qed.

Record layer_inv g s t (k : nat) (seen : list Z) (frontier : list (Z * list Z))
    : Prop := {
  inv_paths : forall v q, In (v, q) frontier ->
      path g s v (rev (v :: q)) /\ length q = k /\
      NoDup (v :: q) /\ incl (v :: q) seen;
  inv_seen : forall v, In v seen <-> exists j, (j <= k)%nat /\ reach g s j v;
  inv_front : forall v, In v seen ->
      In v (heads frontier) \/ exists j, (j < k)%nat /\ reach g s j v;
  inv_target : forall j, (j < k)%nat -> ~ reach g s j t;
  inv_nodup : NoDup seen;
  inv_bound : incl seen (s :: endpoints g)
}.

Lemma layer_inv_start g s t : layer_inv g s t 0 [s] [(s, [])].
Proof.
  constructor.
  - intros v q [H|[]]. injection H as <- <-. split; [apply path_single|].
    split; [reflexivity|]. split; [repeat constructor; intros [] | intros x Hx; exact Hx].
  - intros v. split.
    + intros [<-|[]]. exists 0%nat. split; [lia | apply reach_here].
    + intros (j & Hj & Hr). assert (j = 0%nat) by lia. subst j.
      inversion Hr. left; reflexivity.
  - intros v [<-|[]]. left. left. reflexivity.
  - intros j Hj. lia.
  - repeat constructor. intros [].
  - intros x [<-|[]]. left; reflexivity.
Qed.

Lemma find_head_none t (frontier : list (Z * list Z)) :
  find (fun p : Z * list Z => fst p =? t) frontier = None ->
  ~ In t (heads frontier).
Proof.
  intros H Hin. unfold heads in Hin. apply in_map_iff in Hin.
  destruct Hin as [[v q] [Hv Hin]]. simpl in Hv. subst v.
  apply (find_none _ _ H) in Hin. simpl in Hin. rewrite Z.eqb_refl in Hin. discriminate.
Qed.

Lemma layer_inv_step g s t k seen frontier seen' next :
  layer_inv g s t k seen frontier ->
  ~ In t (heads frontier) ->
  expand_layer g seen frontier = (seen', next) ->
  layer_inv g s t (S k) seen' next.
Proof.
  intros [Ip Is If It In_ Ib] Hnt E.
  destruct (expand_layer_spec g frontier seen seen' next E) as (A & B & C & D & L).
  constructor.
  - intros v p Hin. destruct (B v p Hin) as (u & q & Hf & -> & Hadj & Hns).
    destruct (Ip u q Hf) as (Hp & Hl & Hnd & Hincl).
    split; [|split; [|split]].
    + change (rev (v :: u :: q)) with (rev (u :: q) ++ [v]).
      eapply path_extend; eassumption.
    + simpl. lia.
    + constructor; [|exact Hnd]. intros Hv. apply Hns, Hincl, Hv.
    + intros x [<-|Hx].
      * apply A. right. exists u, q. split; assumption.
      * apply A. left. apply Hincl, Hx.
  - intros v. split.
    + intros Hv. apply A in Hv. destruct Hv as [Hv|(u & q & Hf & Hadj)].
      * apply Is in Hv. destruct Hv as (j & Hj & Hr). exists j. split; [lia | exact Hr].
      * destruct (Ip u q Hf) as (Hp & Hl & _).
        apply path_reach in Hp. unfold hops in Hp. rewrite length_rev in Hp.
        simpl in Hp. rewrite Hl in Hp.
        exists (S k). split; [lia | eapply reach_step; eassumption].
    + intros (j & Hj & Hr). apply A.
      destruct (Nat.eq_dec j (S k)) as [->|Hne].
      * inversion Hr as [|k' u v' Hru Hadj]; subst.
        assert (Hu : In u seen) by (apply Is; exists k; split; [lia | exact Hru]).
        destruct (If u Hu) as [Hh|(j' & Hj' & Hr')].
        -- right. unfold heads in Hh. apply in_map_iff in Hh.
           destruct Hh as [[u' q] [Hfst Hin]]. simpl in Hfst. subst u'.
           exists u, q. split; assumption.
        -- left. apply Is. exists (S j'). split; [lia|].
           eapply reach_step; eassumption.
      * left. apply Is. exists j. split; [lia | exact Hr].
  - intros v Hv. destruct (C v Hv) as [Hs|Hh]; [|left; exact Hh].
    right. apply Is in Hs. destruct Hs as (j & Hj & Hr). exists j. split; [lia | exact Hr].
  - intros j Hj Hr. destruct (Nat.eq_dec j k) as [->|Hne].
    + assert (Ht : In t seen) by (apply Is; exists k; split; [lia | exact Hr]).
      destruct (If t Ht) as [Hh|(j' & Hj' & Hr')]; [exact (Hnt Hh)|].
      exact (It j' Hj' Hr').
    + apply (It j); [lia | exact Hr].
  - apply D, In_.
  - intros v Hv. apply A in Hv. destruct Hv as [Hv|(u & q & _ & Hadj)].
    + apply Ib, Hv.
    + right. eapply adjacent_endpoint; eassumption.
Qed.

Lemma layer_inv_exhausted g s t k seen :
  layer_inv g s t k seen [] -> forall j, ~ reach g s j t.
Proof.
  intros [Ip Is If It In_ Ib].
  assert (Hclosed : forall j v, reach g s j v -> exists j', (j' < k)%nat /\ reach g s j' v).
  { induction 1 as [|j u v _ (j' & Hj' & Hr') Hadj].
    - assert (Hs : In s seen).
      { apply Is. exists 0%nat. split; [lia | apply reach_here]. }
      destruct (If s Hs) as [[]|H]; exact H.
    - assert (Hv : In v seen).
      { apply Is. exists (S j'). split; [lia | eapply reach_step; eassumption]. }
      destruct (If v Hv) as [[]|H]; exact H. }
  intros j Hr. destruct (Hclosed j t Hr) as (j' & Hj' & Hr').
  exact (It j' Hj' Hr').
Qed.

Lemma bfs_correct g s t :
  forall fuel k seen frontier,
    layer_inv g s t k seen frontier ->
    (frontier <> [] -> (length (s :: endpoints g) < fuel + length seen)%nat) ->
    match bfs fuel g t seen frontier with
    | Some p => path g s t p /\ NoDup p /\
                (forall j, reach g s j t -> (hops p <= j)%nat)
    | None => forall j, ~ reach g s j t
    end.
Proof.
  induction fuel as [|fuel IH]; intros k seen frontier Hinv Hfuel.
  - cbn [bfs]. destruct (find _ frontier) as [[v q]|] eqn:Ef.
    + apply find_some in Ef. destruct Ef as [Hin Hv]. simpl in Hv.
      apply Z.eqb_eq in Hv. subst v.
      destruct (inv_paths _ _ _ _ _ _ Hinv t q Hin) as (Hp & Hl & Hnd & _).
      assert (Hh : hops (rev (t :: q)) = k).
      { unfold hops. rewrite length_rev. simpl. exact Hl. }
      split; [exact Hp | split; [apply NoDup_rev, Hnd |]].
      intros j Hr. rewrite Hh.
      destruct (Nat.le_gt_cases k j) as [Hle|Hlt]; [exact Hle|].
      exfalso. exact (inv_target _ _ _ _ _ _ Hinv j Hlt Hr).
    + destruct frontier as [|f0 frontier].
      * eapply layer_inv_exhausted; eassumption.
      * exfalso.
        assert (Hlen : (length seen <= length (s :: endpoints g))%nat).
        { apply NoDup_incl_length;
            [exact (inv_nodup _ _ _ _ _ _ Hinv) | exact (inv_bound _ _ _ _ _ _ Hinv)]. }
        specialize (Hfuel ltac:(discriminate)). simpl in *. lia.
  - cbn [bfs]. destruct (find _ frontier) as [[v q]|] eqn:Ef.
    + apply find_some in Ef. destruct Ef as [Hin Hv]. simpl in Hv.
      apply Z.eqb_eq in Hv. subst v.
      destruct (inv_paths _ _ _ _ _ _ Hinv t q Hin) as (Hp & Hl & Hnd & _).
      assert (Hh : hops (rev (t :: q)) = k).
      { unfold hops. rewrite length_rev. simpl. exact Hl. }
      split; [exact Hp | split; [apply NoDup_rev, Hnd |]].
      intros j Hr. rewrite Hh.
      destruct (Nat.le_gt_cases k j) as [Hle|Hlt]; [exact Hle|].
      exfalso. exact (inv_target _ _ _ _ _ _ Hinv j Hlt Hr).
    + destruct frontier as [|f0 frontier].
      * eapply layer_inv_exhausted; eassumption.
      * destruct (expand_layer g seen (f0 :: frontier)) as [seen' next] eqn:E.
        pose proof (layer_inv_step _ _ _ _ _ _ _ _ Hinv (find_head_none _ _ Ef) E) as Hinv'.
        destruct (expand_layer_spec g _ _ _ _ E) as (_ & _ & _ & _ & L).
        specialize (Hfuel ltac:(discriminate)).
        specialize (IH (S k) seen' next Hinv').
        assert (Hf' : next <> [] -> (length (s :: endpoints g) < fuel + length seen')%nat).
        { intros Hne. destruct next; [contradiction|]. simpl in *. lia. }
        specialize (IH Hf').
        destruct (bfs fuel g t seen' next) as [p|]; [|exact IH].
        exact IH.
Qed.

(** Nodes and edges under the updates *)

Lemma joins_sym u v (e : Z * Z * option W) : joins u v e = joins v u e.
Proof. destruct e as [[a b] w]. unfold joins. apply orb_comm. Qed.

Lemma add_node_edges g n : edges (add_node g n) = edges g.
Proof. unfold add_node. destruct (has_node g n); reflexivity. Qed.

Lemma has_node_add_node g n m :
  has_node (add_node g n) m = has_node g m || (m =? n).
Proof.
  unfold add_node. destruct (has_node g n) eqn:E.
  - destruct (Z.eqb_spec m n) as [->|Hne]; [rewrite E; reflexivity | rewrite orb_false_r; reflexivity].
  - unfold has_node. simpl. rewrite existsb_app. simpl. rewrite orb_false_r. reflexivity.
Qed.

Lemma add_node_present g n : has_node g n = true -> add_node g n = g.
Proof. unfold add_node. intros ->. reflexivity. Qed.

Lemma has_edge_In g u v :
  has_edge g u v = true <-> exists e, In e (edges g) /\ joins u v e = true.
Proof. unfold has_edge. apply existsb_exists. Qed.

Lemma has_edge_false g u v :
  has_edge g u v = false -> forall e, In e (edges g) -> joins u v e = false.
Proof.
  intros H e He. destruct (joins u v e) eqn:E; [|reflexivity].
  assert (has_edge g u v = true) by (apply has_edge_In; exists e; auto). congruence.
Qed.

Lemma add_edge_nodes g u v w :
  has_node g u = true -> has_node g v = true -> nodes (add_edge g u v w) = nodes g.
Proof.
  intros Hu Hv. unfold add_edge.
  rewrite (add_node_present g u Hu), (add_node_present g v Hv).
  destruct (has_edge g u v); reflexivity.
Qed.

Lemma add_edge_edges g u v w e :
  In e (edges (add_edge g u v w)) <->
  (In e (edges g) /\ joins u v e = false) \/
  (exists e0, In e0 (edges g) /\ joins u v e0 = true /\ e = (fst e0, Some w)) \/
  (has_edge g u v = false /\ e = (u, v, Some w)).
Proof.
  unfold add_edge.
  assert (Hh : has_edge (add_node (add_node g u) v) u v = has_edge g u v).
  { unfold has_edge. rewrite !add_node_edges. reflexivity. }
  rewrite Hh. destruct (has_edge g u v) eqn:E; cbn [edges]; rewrite !add_node_edges.
  - rewrite in_map_iff. split.
    + intros (e0 & <- & He0). destruct (joins u v e0) eqn:Ej.
      * right. left. exists e0. repeat split; auto.
      * left. split; auto.
    + intros [[He Hj]|[(e0 & He0 & Hj & ->)|[Hf _]]]; [| |discriminate].
      * exists e. rewrite Hj. split; auto.
      * exists e0. rewrite Hj. split; auto.
  - rewrite in_app_iff. split.
    + intros [He|[<-|[]]].
      * left. split; [exact He | exact (has_edge_false g u v E e He)].
      * right. right. split; reflexivity.
    + intros [[He Hj]|[(e0 & He0 & Hj & ->)|[_ ->]]].
      * left; exact He.
      * rewrite (has_edge_false g u v E e0 He0) in Hj. discriminate.
      * right. left. reflexivity.
Qed.

Lemma get_weight_unique g u v w :
  (exists e, In e (edges g) /\ joins u v e = true) ->
  (forall e, In e (edges g) -> joins u v e = true -> snd e = Some w) ->
  get_weight g u v = Returned w.
Proof.
  intros (e & He & Hj) Hall. unfold get_weight.
  destruct (find (joins u v) (edges g)) as [[[a b] w']|] eqn:Ef.
  - apply find_some in Ef. destruct Ef as [Hin Hj'].
    specialize (Hall _ Hin Hj'). simpl in Hall. subst w'. reflexivity.
  - rewrite (find_none _ _ Ef e He) in Hj. discriminate.
Qed.

Lemma fold_add_node_edges {A : Type} (f : A -> Z) (l : list A) : forall g,
  edges (fold_left (fun g i => add_node g (f i)) l g) = edges g.
Proof.
  induction l as [|x l IH]; intros g; simpl; [reflexivity|].
  rewrite IH. apply add_node_edges.
Qed.

Lemma fold_add_node_has {A : Type} (f : A -> Z) (l : list A) n : forall g,
  has_node (fold_left (fun g i => add_node g (f i)) l g) n =
  has_node g n || existsb (fun i => n =? f i) l.
Proof.
  induction l as [|x l IH]; intros g; simpl.
  - rewrite orb_false_r. reflexivity.
  - rewrite IH, has_node_add_node, orb_assoc. reflexivity.
Qed.

Lemma get_weight_add_edge g u v (w : W) :
  get_weight (add_edge g u v w) u v = Returned w.
Proof.
  assert (Hself : forall o : option W, joins u v (u, v, o) = true).
  { intros o. unfold joins. rewrite !Z.eqb_refl. reflexivity. }
  apply get_weight_unique.
  - destruct (has_edge g u v) eqn:E.
    + apply has_edge_In in E. destruct E as ([[a b] o] & Hin & Hj).
      exists (a, b, Some w). split; [|exact Hj].
      apply add_edge_edges. right. left. exists (a, b, o). auto.
    + exists (u, v, Some w). split; [|apply Hself].
      apply add_edge_edges. right. right. auto.
  - intros e Hin Hj. apply add_edge_edges in Hin.
    destruct Hin as [[_ Hf]|[(e0 & _ & _ & ->)|[_ ->]]]; [congruence | reflexivity | reflexivity].
Qed.

End GraphFacts.

(** ** Shortest paths and their removal *)

Section BfsFacts.

Context {W : Type}.
Implicit Types (g : graph W) (u v s t : Z) (p q : list Z).

Lemma bfs_shortest_path_missing g s t :
  has_node g s = false \/ has_node g t = false ->
  bfs_shortest_path g s t = Raised NodeNotFound.
Proof.
  intros H. unfold bfs_shortest_path.
  destruct H as [-> | ->]; simpl; [reflexivity | rewrite orb_true_r; reflexivity].
Qed.

Lemma bfs_shortest_path_spec g s t :
  has_node g s = true -> has_node g t = true ->
  match bfs_shortest_path g s t with
  | Returned p =>
      path g s t p /\ NoDup p /\ (forall q, path g s t q -> (hops p <= hops q)%nat)
  | Raised e => e = NetworkXNoPath /\ (forall q, ~ path g s t q)
  end.
Proof.
  intros Hs Ht. unfold bfs_shortest_path. rewrite Hs, Ht. cbn [negb orb].
  pose proof (bfs_correct g s t (S (S (2 * length (edges g)))) 0 [s] [(s, [])]
                (layer_inv_start g s t)) as H.
  assert (Hfuel : [(s, @nil Z)] <> [] ->
            (length (s :: endpoints g) < S (S (2 * length (edges g))) + length [s])%nat).
  { intros _. cbn [length]. rewrite endpoints_length. lia. }
  specialize (H Hfuel).
  destruct (bfs _ g t [s] [(s, [])]) as [p|].
  - destruct H as (Hp & Hnd & Hmin). split; [exact Hp | split; [exact Hnd|]].
    intros q Hq. apply Hmin, path_reach, Hq.
  - split; [reflexivity|]. intros q Hq. apply (H (hops q)), path_reach, Hq.
Qed.

End BfsFacts.

#[export] Instance bfs_search {W : Type} : Search W := {|
  shortest_path := bfs_shortest_path;
  shortest_path_missing := bfs_shortest_path_missing;
  shortest_path_spec := bfs_shortest_path_spec
|}.

Section PathFacts.

Context {W : Type} {search : Search W}.
Implicit Types (g : graph W) (u v s t : Z) (p q : list Z).

Lemma has_path_true g s t :
  has_path g s t = Returned true ->
  exists p, shortest_path g s t = Returned p.
Proof.
  unfold has_path. destruct (shortest_path g s t) as [p|e].
  - intros _. exists p. reflexivity.
  - destruct e; discriminate.
Qed.

Lemma has_path_of_path g s t q :
  has_node g s = true -> has_node g t = true -> path g s t q ->
  has_path g s t = Returned true.
Proof.
  intros Hs Ht Hq. pose proof (shortest_path_spec g s t Hs Ht) as H.
  unfold has_path. destruct (shortest_path g s t) as [p|e]; [reflexivity|].
  destruct H as [_ H]. exfalso. exact (H q Hq).
Qed.

Lemma has_path_no_path g s t :
  has_node g s = true -> has_node g t = true -> (forall q, ~ path g s t q) ->
  has_path g s t = Returned false.
Proof.
  intros Hs Ht Hno. pose proof (shortest_path_spec g s t Hs Ht) as H.
  unfold has_path. destruct (shortest_path g s t) as [p|e].
  - destruct H as [Hp _]. exfalso. exact (Hno p Hp).
  - destruct H as [-> _]. reflexivity.
Qed.

(** Adjacency and edges *)
Lemma joins_iff u v a b (w : option W) :
  joins u v (a, b, w) = true <-> (a = u /\ b = v) \/ (a = v /\ b = u).
Proof.
  unfold joins. rewrite orb_true_iff, !andb_true_iff, !Z.eqb_eq. reflexivity.
Qed.

Lemma adjacent_joins g u v :
  adjacent g u v <-> exists e, In e (edges g) /\ joins u v e = true.
Proof.
  unfold adjacent, neighbors. rewrite in_flat_map. split.
  - intros ([[a b] w] & He & Hv). exists (a, b, w). split; [exact He|].
    apply joins_iff.
    destruct (Z.eqb_spec a u) as [->|Hau].
    + destruct Hv as [<-|[]]. left; auto.
    + destruct (Z.eqb_spec b u) as [->|Hbu]; [|destruct Hv].
      destruct Hv as [<-|[]]. right; auto.
  - intros ([[a b] w] & He & Hj). exists (a, b, w). split; [exact He|].
    apply joins_iff in Hj.
    destruct Hj as [[-> ->]|[-> ->]].
    + rewrite Z.eqb_refl. left; reflexivity.
    + destruct (Z.eqb_spec v u) as [->|Hne]; [left; reflexivity|].
      rewrite Z.eqb_refl. left; reflexivity.
Qed.

(** Every edge carries a weight. *)
Definition weighted g : Prop := forall e, In e (edges g) -> snd e <> None.

(** The weight of the edge between [u] and [v]; 0 without one. *)
Definition weight_of (g : graph Z) (uv : Z * Z) : Z :=
  match get_weight g (fst uv) (snd uv) with
  | Returned w => w
  | Raised _ => 0
  end.


Lemma weighted_filter g (f : Z * Z * option W -> bool) :
  weighted g -> weighted (Graph (nodes g) (filter f (edges g))).
Proof.
  intros H e He. cbn [edges] in He. apply filter_In in He. apply H, He.
Qed.

Lemma walk_steps g p :
  walk g p <-> Forall (fun ab => adjacent g (fst ab) (snd ab)) (steps p).
Proof.
  induction p as [|u p IH]; [split; constructor|].
  destruct p as [|v p]; [split; constructor|].
  cbn [walk steps]. rewrite IH. split.
  - intros [H1 H2]. constructor; assumption.
  - intros H. inversion H; subst. split; assumption.
Qed.

Lemma steps_in p a b : In (a, b) (steps p) -> In a p /\ In b p.
Proof.
  induction p as [|u p IH]; [intros []|].
  destruct p as [|v p]; [intros []|].
  cbn [steps]. intros [H|H].
  - injection H as <- <-. split; [left; reflexivity | right; left; reflexivity].
  - destruct (IH H) as [Ha Hb]. split; right; assumption.
Qed.

Lemma joins_disjoint u v a b (e : Z * Z * option W) :
  u <> a -> u <> b -> joins a b e = true -> joins u v e = false.
Proof.
  destruct e as [[x y] w]. intros Ha Hb Hj. apply joins_iff in Hj.
  destruct (joins u v (x, y, w)) eqn:E; [|reflexivity].
  apply joins_iff in E. exfalso. destruct Hj as [[-> ->]|[-> ->]], E as [[? ?]|[? ?]]; congruence.
Qed.

Lemma find_filter {A : Type} (f h : A -> bool) (l : list A) :
  (forall x, In x l -> f x = true -> h x = true) ->
  find f (filter h l) = find f l.
Proof.
  induction l as [|x l IH]; intros H; [reflexivity|].
  simpl. destruct (h x) eqn:Eh; simpl.
  - destruct (f x); [reflexivity|]. apply IH. intros y Hy. apply H. right; exact Hy.
  - destruct (f x) eqn:Ef.
    + rewrite (H x (or_introl eq_refl) Ef) in Eh. discriminate.
    + apply IH. intros y Hy. apply H. right; exact Hy.
Qed.

Lemma filter_filter {A : Type} (f h : A -> bool) (l : list A) :
  filter f (filter h l) = filter (fun x => h x && f x) l.
Proof.
  induction l as [|x l IH]; [reflexivity|].
  simpl. destruct (h x); simpl; [destruct (f x)|]; rewrite ?IH; reflexivity.
Qed.

Lemma filter_all {A : Type} (l : list A) : filter (fun _ => true) l = l.
Proof. induction l as [|x l IH]; simpl; [|rewrite IH]; reflexivity. Qed.

End PathFacts.

(** The graph without the edges of the path [p]. *)
Definition remove_path {W : Type} (g : graph W) (p : list Z) : graph W :=
  Graph (nodes g) (filter (fun e => negb (on_path p e)) (edges g)).

(** The weights of the edges along [p], and their sum. *)
Definition path_weights (g : graph Z) (p : list Z) : list Z :=
  map (weight_of g) (steps p).

End Nx.

(* ================================================================== *)
(** * closest_nodes/good_neighbors.py *)
(* ================================================================== *)

Module GoodNeighbors.

Import Scipy.
#[local] Open Scope py_scope.

(** ** The store of profile vectors

    A neighbour list such as [neighbor1] is a Python list of list objects.
    The inner lists are mutable and shared, so each of them lives at an
    address of the store and a neighbour list is the list of the addresses
    of its entries. *)
Abbreviation addr := nat (only parsing).
Definition store := list (list Z).

Definition read (st : store) (a : addr) : list Z := nth a st [].

Fixpoint write (st : store) (a : addr) (v : list Z) : store :=
  match st, a with
  | [], _ => []
  | _ :: rest, O => v :: rest
  | x :: rest, S a' => x :: write rest a' v
  end.

(** [[x.append(0) for k in range(n)]] on the list object at [a]. *)
Definition append_zeros (st : store) (a : addr) (n : nat) : store :=
  write st a (read st a ++ repeat 0%Z n).

(** The profiles a neighbour list holds in a store. *)
Definition profiles (st : store) (nl : list addr) : list (list Z) :=
  map (read st) nl.

(** ** [closest_node] *)

(** The body of [for j in nl2], lines 87-94: the distance between the
    vectors at [i] and [j], the shorter one padded in place beforehand. *)
Definition dist_entry (i j : addr) (st : store) : outcome (root * store) :=
  if Nat.eqb (length (read st i)) (length (read st j)) then
    d <- euclidean (read st i) (read st j) ;;
    Returned (d, st)
  else if Nat.ltb (length (read st i)) (length (read st j)) then
    let st := append_zeros st i (length (read st j) - length (read st i)) in
    d <- euclidean (read st i) (read st j) ;;
    Returned (d, st)
  else
    let st := append_zeros st j (length (read st i) - length (read st j)) in
    d <- euclidean (read st i) (read st j) ;;
    Returned (d, st).

(** [min(l)]: the first of the smallest elements, by [<] on the float64
    values; [ValueError] on []. *)
Fixpoint min_from {cmp : Float64} (m : root) (l : list root) : root :=
  match l with
  | [] => m
  | x :: rest => min_from (if root_ltb x m then x else m) rest
  end.

Definition py_min {cmp : Float64} (l : list root) : outcome root :=
  match l with
  | [] => Raised ValueError
  | x :: rest => Returned (min_from x rest)
  end.

(** [l.index(x)]: the first position of an element [== x]; [ValueError]
    without one. *)
Fixpoint py_index {cmp : Float64} (x : root) (l : list root) : outcome nat :=
  match l with
  | [] => Raised ValueError
  | y :: rest =>
      if root_eqb y x then Returned O
      else k <- py_index x rest ;; Returned (S k)
  end.

(** [for j in nl2: dist_list.append(...)]. *)
Definition dist_row (i : addr) (nl2 : list addr) (st : store)
    : outcome (list root * store) :=
  for_each nl2
    (fun j s =>
       ' (d, st') <- dist_entry i j (snd s) ;;
       Returned (fst s ++ [d], st'))
    ([], st).

(** [closest_node(nl1, nl2)], lines 74-97.  The state of the outer loop is
    [count], [closest_node_list] and the store. *)
Definition closest_node {cmp : Float64} (nl1 nl2 : list addr) (st : store)
    : outcome (list (nat * nat) * store) :=
  ' (_, closest_node_list, st') <-
    for_each nl1
      (fun i s =>
         let '(count, closest_node_list, st) := s in
         ' (dist_list, st') <- dist_row i nl2 st ;;
         m <- py_min dist_list ;;
         k <- py_index m dist_list ;;
         Returned (S count, closest_node_list ++ [(count, k)], st'))
      (O, [], st) ;;
  Returned (closest_node_list, st').

(** ** [graphs2bipartite_weight] *)

(** The weight [1 / (d + 0.001)] of an edge of the bipartite graph, kept as
    the distance [d] it is computed from. *)
Record similarity : Type := Similarity { distance : root }.

Definition similarity_R (w : similarity) : Rdefinitions.R :=
  Rdefinitions.Rdiv (Rdefinitions.IZR 1)
    (Rdefinitions.Rplus (root_R (distance w))
       (Rdefinitions.Rdiv (Rdefinitions.IZR 1) (Rdefinitions.IZR 1000))).

Definition bgraph := Nx.graph similarity.

(** The node of the bipartite graph for index [i] of the first list, and
    for index [j] of the second. *)
Definition left_node (i : nat) : Z := (Z.of_nat i + 1)%Z.
Definition right_node (j : nat) : Z := (- Z.of_nat j - 1)%Z.

(** The body of the inner loop, lines 110-119.  The first [if] stands alone:
    for equally long vectors the [else] branch of the second [if] runs too,
    appends no zero and adds the same edge again. *)
Definition bp_entry (nei1 nei2 : list addr) (i j : nat) (s : bgraph * store)
    : outcome (bgraph * store) :=
  let '(G_bp, st) := s in
  let node_i := nth i nei1 O in
  let node_j := nth j nei2 O in
  G_bp <-
    (if Nat.eqb (length (read st node_i)) (length (read st node_j)) then
       d <- euclidean (read st node_i) (read st node_j) ;;
       Returned (Nx.add_edge G_bp (left_node i) (right_node j) (Similarity d))
     else Returned G_bp) ;;
  if Nat.ltb (length (read st node_i)) (length (read st node_j)) then
    let st := append_zeros st node_i
                (length (read st node_j) - length (read st node_i)) in
    d <- euclidean (read st node_i) (read st node_j) ;;
    Returned (Nx.add_edge G_bp (left_node i) (right_node j) (Similarity d), st)
  else
    let st := append_zeros st node_j
                (length (read st node_i) - length (read st node_j)) in
    d <- euclidean (read st node_i) (read st node_j) ;;
    Returned (Nx.add_edge G_bp (left_node i) (right_node j) (Similarity d), st).

(** [graphs2bipartite_weight(nei1, nei2)], lines 100-120. *)
Definition graphs2bipartite_weight (nei1 nei2 : list addr) (st : store)
    : outcome (bgraph * store) :=
  let nodes1 := seq 0 (length nei1) in
  let nodes2 := seq 0 (length nei2) in
  let G_bp := Nx.empty in
  let G_bp := fold_left (fun g i => Nx.add_node g (left_node i)) nodes1 G_bp in
  let G_bp := fold_left (fun g j => Nx.add_node g (right_node j)) nodes2 G_bp in
  for_each (seq 0 (length nei1))
    (fun i s => for_each (seq 0 (length nei2)) (fun j s => bp_entry nei1 nei2 i j s) s)
    (G_bp, st).

(** ** [get_neighbor_edges] *)

(** The position [l[i]] refers to in a list of length [n], for a Python
    integer [i]: negative indices count from the end. *)
Definition py_position (n : nat) (i : Z) : outcome nat :=
  if ((0 <=? i) && (i <? Z.of_nat n))%Z then Returned (Z.to_nat i)
  else if ((- Z.of_nat n <=? i) && (i <? 0))%Z then Returned (Z.to_nat (Z.of_nat n + i))
  else Raised IndexError.

(** [G.edges.data('weight', default)]: every edge once, with its weight or
    the default.  The edges come in the order they were added; the order
    networkx reports them in has no influence on [get_neighbor_edges], whose
    lists are sorted in the end. *)
Definition edges_data (G : Nx.graph Z) (default : Z) : list (Z * Z * Z) :=
  map (fun e => (fst e, match snd e with Some w => w | None => default end))
      (Nx.edges G).

(** [neighbor[i].append(w)]. *)
Definition append_at (neighbor : list (list Z)) (i : Z) (w : Z)
    : outcome (list (list Z)) :=
  k <- py_position (length neighbor) i ;;
  Returned (write neighbor k (read neighbor k ++ [w])).

(** [sorted(l, reverse=True)]. *)
Fixpoint insert_desc (x : Z) (l : list Z) : list Z :=
  match l with
  | [] => [x]
  | y :: l' => if (y <? x)%Z then x :: l else y :: insert_desc x l'
  end.

Definition sorted_desc (l : list Z) : list Z := fold_right insert_desc [] l.

(** [get_neighbor_edges(G, n)], lines 57-72. *)
Definition get_neighbor_edges (G : Nx.graph Z) (n : nat) : outcome (list (list Z)) :=
  let edge_list := edges_data G 1 in
  let neighbor := repeat [] n in
  neighbor <-
    for_each edge_list
      (fun edge neighbor =>
         neighbor <- append_at neighbor (fst (fst edge)) (snd edge) ;;
         append_at neighbor (snd (fst edge)) (snd edge))
      neighbor ;;
  Returned (map sorted_desc neighbor).

(** ** Mutual matches, lines 138-141 *)

(** [l[i]] for a non-negative index. *)
Definition py_item {A : Type} (l : list A) (i : nat) : outcome A :=
  match nth_error l i with
  | Some x => Returned x
  | None => Raised IndexError
  end.

(** The loop that fills [best_neighbor_list]. *)
Definition best_neighbors (cnl1 cnl2 : list (nat * nat)) : outcome (list (nat * nat)) :=
  for_each (seq 0 (length cnl1))
    (fun i best_neighbor_list =>
       p <- py_item cnl1 i ;;
       q <- py_item cnl2 (snd p) ;;
       if Nat.eqb (fst p) (snd q)
       then Returned (best_neighbor_list ++ [(fst p, snd p)])
       else Returned best_neighbor_list)
    [].

(** Lines 135-141 of the script: the closest nodes in both directions, then
    the mutual matches. *)
Definition mutual_neighbors {cmp : Float64} (neighbor1 neighbor2 : list addr)
    (st : store) : outcome (list (nat * nat) * store) :=
  ' (cnl1, st) <- closest_node neighbor1 neighbor2 st ;;
  ' (cnl2, st) <- closest_node neighbor2 neighbor1 st ;;
  best_neighbor_list <- best_neighbors cnl1 cnl2 ;;
  Returned (best_neighbor_list, st).

(** ** Properties of [good_neighbors.py] *)

Lemma write_length st : forall a v, length (write st a v) = length st.
Proof.
  induction st as [|x st IH]; intros [|a] v; simpl; auto.
Qed.

Lemma read_write_same st : forall a v, a < length st -> read (write st a v) a = v.
Proof.
  unfold read. induction st as [|x st IH]; intros [|a] v H; simpl in *; try lia.
  - reflexivity.
  - apply IH. lia.
Qed.

Lemma read_write_other st : forall a b v, a <> b -> read (write st a v) b = read st b.
Proof.
  unfold read. induction st as [|x st IH]; intros [|a] [|b] v H; simpl; try reflexivity.
  - contradiction.
  - apply IH. lia.
Qed.

Lemma write_read st : forall a, write st a (read st a) = st.
Proof.
  unfold read. induction st as [|x st IH]; intros [|a]; simpl; try reflexivity.
  f_equal. apply IH.
Qed.

Lemma append_zeros_none st a : append_zeros st a 0 = st.
Proof. unfold append_zeros. simpl. rewrite app_nil_r. apply write_read. Qed.

(** The store after the vectors at [i] and [j] were made equally long. *)
Definition pad_pair (i j : addr) (st : store) : store :=
  if Nat.ltb (length (read st i)) (length (read st j))
  then append_zeros st i (length (read st j) - length (read st i))
  else append_zeros st j (length (read st i) - length (read st j)).

(** [st] is [st0] with zeros appended to some of its vectors. *)
Definition extends (st0 st : store) : Prop :=
  length st = length st0 /\
  forall a, exists k, read st a = read st0 a ++ repeat 0%Z k.

Lemma extends_refl st : extends st st.
Proof. split; [reflexivity|]. intros a. exists 0. simpl. rewrite app_nil_r. reflexivity. Qed.

Lemma extends_trans st0 st1 st2 : extends st0 st1 -> extends st1 st2 -> extends st0 st2.
Proof.
  intros [L1 E1] [L2 E2]. split; [congruence|].
  intros a. destruct (E1 a) as [k1 H1]. destruct (E2 a) as [k2 H2].
  exists (k1 + k2). rewrite H2, H1, <- app_assoc, repeat_app. reflexivity.
Qed.

Lemma append_zeros_extends st a n : extends st (append_zeros st a n).
Proof.
  unfold append_zeros. split; [apply write_length|].
  intros b. destruct (Nat.eq_dec a b) as [<-|Hne].
  - destruct (Nat.lt_ge_cases a (length st)) as [Hlt|Hge].
    + exists n. apply read_write_same, Hlt.
    + exists 0. simpl. rewrite app_nil_r.
      unfold read at 1 3. rewrite !nth_overflow; auto.
      rewrite write_length. exact Hge.
  - exists 0. simpl. rewrite app_nil_r. apply read_write_other, Hne.
Qed.

Lemma pad_pair_extends i j st : extends st (pad_pair i j st).
Proof. unfold pad_pair. destruct (Nat.ltb _ _); apply append_zeros_extends. Qed.

Lemma extends_padded_sq st0 st a b :
  extends st0 st ->
  padded_sq (read st a) (read st b) = padded_sq (read st0 a) (read st0 b).
Proof.
  intros [_ E]. destruct (E a) as [ka ->]. destruct (E b) as [kb ->].
  rewrite padded_sq_app_zeros_l, padded_sq_app_zeros_r. reflexivity.
Qed.

Lemma pad_pair_read_l i j st :
  i < length st -> j < length st ->
  read (pad_pair i j st) i = pad_to (read st i) (read st j).
Proof.
  intros Hi Hj. unfold pad_pair, pad_to, append_zeros.
  destruct (Nat.ltb_spec (length (read st i)) (length (read st j))) as [Hlt|Hge].
  - apply read_write_same, Hi.
  - replace (length (read st j) - length (read st i)) with 0 by lia.
    simpl. rewrite app_nil_r.
    destruct (Nat.eq_dec j i) as [->|Hne].
    + rewrite read_write_same by exact Hi.
      rewrite Nat.sub_diag. simpl. apply app_nil_r.
    + apply read_write_other, Hne.
Qed.

Lemma pad_pair_read_r i j st :
  i < length st -> j < length st ->
  read (pad_pair i j st) j = pad_to (read st j) (read st i).
Proof.
  intros Hi Hj. unfold pad_pair, pad_to, append_zeros.
  destruct (Nat.ltb_spec (length (read st i)) (length (read st j))) as [Hlt|Hge].
  - replace (length (read st i) - length (read st j)) with 0 by lia.
    simpl. rewrite app_nil_r.
    destruct (Nat.eq_dec i j) as [->|Hne]; [lia|].
    apply read_write_other, Hne.
  - apply read_write_same, Hj.
Qed.

Lemma pad_pair_read_other i j st a :
  a <> i -> a <> j -> read (pad_pair i j st) a = read st a.
Proof.
  intros Hi Hj. unfold pad_pair, append_zeros.
  destruct (Nat.ltb _ _); apply read_write_other; auto.
Qed.

Lemma pad_pair_comm i j st :
  i < length st -> j < length st -> pad_pair j i st = pad_pair i j st.
Proof.
  intros Hi Hj. unfold pad_pair.
  destruct (Nat.ltb_spec (length (read st i)) (length (read st j))) as [H1|H1];
    destruct (Nat.ltb_spec (length (read st j)) (length (read st i))) as [H2|H2];
    try lia; try reflexivity.
  replace (length (read st j) - length (read st i)) with 0 by lia.
  replace (length (read st i) - length (read st j)) with 0 by lia.
  rewrite !append_zeros_none. reflexivity.
Qed.

Lemma pad_pair_lengths i j st :
  i < length st -> j < length st ->
  length (read (pad_pair i j st) i) = length (read (pad_pair i j st) j).
Proof.
  intros Hi Hj. rewrite pad_pair_read_l, pad_pair_read_r by assumption.
  rewrite !pad_to_length. lia.
Qed.

Lemma dist_entry_eq i j st :
  i < length st -> j < length st ->
  dist_entry i j st =
  Returned (Root (padded_sq (read st i) (read st j)), pad_pair i j st).
Proof.
  intros Hi Hj. unfold dist_entry.
  pose proof (pad_pair_lengths i j st Hi Hj) as HL.
  pose proof (extends_padded_sq st (pad_pair i j st) i j (pad_pair_extends i j st)) as HP.
  unfold pad_pair in *.
  destruct (Nat.eqb_spec (length (read st i)) (length (read st j))) as [He|Hne].
  - rewrite euclidean_same_length by exact He. cbn [bind].
    replace (Nat.ltb _ _) with false by (symmetry; apply Nat.ltb_ge; lia).
    rewrite He, Nat.sub_diag, append_zeros_none. reflexivity.
  - destruct (Nat.ltb (length (read st i)) (length (read st j))).
    + rewrite euclidean_same_length by exact HL. cbn [bind]. rewrite HP. reflexivity.
    + rewrite euclidean_same_length by exact HL. cbn [bind]. rewrite HP. reflexivity.
Qed.


Section ClosestNode.

Context {cmp : Float64}.

Lemma root_ltb_small (x y : root) :
  small (radicand x) -> small (radicand y) ->
  root_ltb x y = (radicand x <? radicand y)%Z.
Proof. destruct x as [a], y as [b]. apply root_ltb_exact. Qed.

Lemma root_eqb_small (x y : root) :
  small (radicand x) -> small (radicand y) ->
  root_eqb x y = true <-> x = y.
Proof.
  destruct x as [a], y as [b]. cbn [radicand]. intros Ha Hb.
  rewrite (root_eqb_exact a b Ha Hb), Z.eqb_eq.
  split; [intros ->; reflexivity | intros H; injection H; auto].
Qed.

Lemma min_from_le l : forall m,
  small (radicand m) -> Forall (fun x => small (radicand x)) l ->
  (radicand (min_from m l) <= radicand m)%Z /\
  (forall x, In x l -> (radicand (min_from m l) <= radicand x)%Z).
Proof.
  induction l as [|y l IH]; intros m Hm Hl; simpl.
  - split; [lia | intros x []].
  - inversion Hl as [|? ? Hy Hl']; subst.
    rewrite (root_ltb_small y m Hy Hm).
    destruct (Z.ltb_spec (radicand y) (radicand m)) as [Hlt|Hge].
    + destruct (IH y Hy Hl') as [H1 H2].
      split; [lia|]. intros x [<-|Hx]; [exact H1 | apply H2, Hx].
    + destruct (IH m Hm Hl') as [H1 H2].
      split; [exact H1|]. intros x [<-|Hx]; [lia | apply H2, Hx].
Qed.

Lemma min_from_in l : forall m, min_from m l = m \/ In (min_from m l) l.
Proof.
  induction l as [|y l IH]; intros m; simpl.
  - left; reflexivity.
  - destruct (IH (if root_ltb y m then y else m)) as [H|H].
    + rewrite H. destruct (root_ltb y m); [right; left; reflexivity | left; reflexivity].
    + right; right; exact H.
Qed.

Lemma py_index_first x d l :
  small (radicand x) -> Forall (fun y => small (radicand y)) l ->
  In x l ->
  exists k, py_index x l = Returned k /\ k < length l /\ nth k l d = x /\
            forall y, y < k -> nth y l d <> x.
Proof.
  intros Hx. induction l as [|z l IH]; intros Hl Hin; [destruct Hin|].
  inversion Hl as [|? ? Hz Hl']; subst.
  simpl. destruct (root_eqb z x) eqn:E.
  - apply (root_eqb_small z x Hz Hx) in E. subst z. exists 0.
    split; [reflexivity | split; [lia | split; [reflexivity|]]]. intros y Hy. lia.
  - assert (Hzx : z <> x).
    { intros ->. rewrite root_eqb_refl in E. discriminate. }
    destruct Hin as [Hin|Hin]; [contradiction|].
    destruct (IH Hl' Hin) as (k & Hk & Hlt & Hnth & Hfirst).
    exists (S k). rewrite Hk. cbn [bind].
    split; [reflexivity | split; [lia | split; [exact Hnth|]]].
    intros [|y] Hy; simpl; [exact Hzx | apply Hfirst; lia].
Qed.

(** [k] is the first position of a smallest entry of [zs]. *)
Definition first_min (zs : list Z) (k : nat) : Prop :=
  k < length zs /\
  (forall y, y < length zs -> (nth k zs 0 <= nth y zs 0)%Z) /\
  (forall y, y < k -> (nth k zs 0 < nth y zs 0)%Z).

Lemma first_min_unique zs k k' : first_min zs k -> first_min zs k' -> k = k'.
Proof.
  intros (Hk & Hle & Hlt) (Hk' & Hle' & Hlt').
  destruct (Nat.lt_trichotomy k k') as [H|[H|H]]; [|exact H|].
  - specialize (Hlt' k H). specialize (Hle k' Hk'). lia.
  - specialize (Hlt k' H). specialize (Hle' k Hk). lia.
Qed.

(** [k] is the first position of a 0 in [zs]. *)
Definition first_zero (zs : list Z) (k : nat) : Prop :=
  k < length zs /\ nth k zs 0%Z = 0%Z /\ forall y, y < k -> nth y zs 0%Z <> 0%Z.

(** [k] is the position [min] and [list.index] arrive at on the distances
    whose squares are [zs]. *)
Definition chosen (zs : list Z) (k : nat) : Prop :=
  exists m, py_min (map Root zs) = Returned m /\
            py_index m (map Root zs) = Returned k.

Lemma nth_map_root zs k : radicand (nth k (map Root zs) (Root 0)) = nth k zs 0%Z.
Proof.
  change (Root 0) with (Root 0%Z).
  rewrite (map_nth Root zs 0%Z k). reflexivity.
Qed.

Lemma small_roots zs :
  Forall small zs -> Forall (fun x => small (radicand x)) (map Root zs).
Proof.
  intros H. apply Forall_forall. intros x Hx. apply in_map_iff in Hx.
  destruct Hx as (z & <- & Hz). rewrite Forall_forall in H. exact (H z Hz).
Qed.

(** Below 2^52 the position chosen is the first one of a smallest squared
    distance. *)
Lemma index_of_min zs :
  zs <> [] -> Forall small zs ->
  exists k, chosen zs k /\ first_min zs k.
Proof.
  intros Hne Hsm. destruct zs as [|z zs]; [contradiction|].
  pose proof (small_roots _ Hsm) as Hall.
  inversion Hall as [|? ? Hz Hzs]; subst.
  set (m := min_from (Root z) (map Root zs)).
  assert (Hin : In m (map Root (z :: zs))).
  { destruct (min_from_in (map Root zs) (Root z)) as [H|H]; [left | right]; auto. }
  assert (Hmsm : small (radicand m)).
  { rewrite Forall_forall in Hall. exact (Hall m Hin). }
  assert (Hle : forall x, In x (map Root (z :: zs)) -> (radicand m <= radicand x)%Z).
  { destruct (min_from_le (map Root zs) (Root z) Hz Hzs) as [H1 H2].
    intros x [<-|Hx]; [exact H1 | apply H2, Hx]. }
  destruct (py_index_first m (Root 0) _ Hmsm Hall Hin) as (k & Hk & Hlt & Hnth & Hfirst).
  exists k. split; [exists m; split; [reflexivity | exact Hk]|].
  rewrite length_map in Hlt.
  assert (Hm : radicand m = nth k (z :: zs) 0%Z) by (rewrite <- nth_map_root, Hnth; reflexivity).
  split; [exact Hlt | split].
  - intros y Hy. rewrite <- Hm, <- nth_map_root. apply Hle, nth_In.
    rewrite length_map. exact Hy.
  - intros y Hy.
    assert (Hyl : y < length (z :: zs)) by lia.
    assert (H1 : (radicand m <= nth y (z :: zs) 0)%Z).
    { rewrite <- nth_map_root. apply Hle, nth_In. rewrite length_map. exact Hyl. }
    assert (H2 : nth y (z :: zs) 0%Z <> radicand m).
    { intros Heq. apply (Hfirst y Hy).
      change (Root 0) with (Root 0%Z).
      rewrite (map_nth Root (z :: zs) 0%Z y), Heq.
      destruct m; reflexivity. }
    lia.
Qed.

Lemma min_from_zero l : forall m,
  (0 <= radicand m)%Z -> Forall (fun x => (0 <= radicand x)%Z) l ->
  m = Root 0 \/ In (Root 0) l ->
  min_from m l = Root 0.
Proof.
  induction l as [|y l IH]; intros m Hm Hl Hz; simpl.
  - destruct Hz as [Hz|[]]. exact Hz.
  - inversion Hl as [|? ? Hy Hl']; subst.
    destruct Hz as [->|[->|Hz]].
    + destruct y as [b]. cbn [radicand] in Hy. rewrite (root_ltb_zero_r b Hy).
      apply IH; [cbn; lia | exact Hl' | left; reflexivity].
    + apply IH; [|exact Hl' | left].
      * destruct (root_ltb (Root 0) m); [cbn; lia | exact Hm].
      * destruct m as [a]. cbn [radicand] in Hm.
        destruct (Z.eq_dec a 0) as [->|Hne].
        -- destruct (root_ltb (Root 0) (Root 0)); reflexivity.
        -- rewrite (root_ltb_zero_l a) by lia. reflexivity.
    + apply IH; [|exact Hl' | right; exact Hz].
      destruct (root_ltb y m); assumption.
Qed.

Lemma py_index_zero zs : forall k,
  Forall (fun z => (0 <= z)%Z) zs -> first_zero zs k ->
  py_index (Root 0) (map Root zs) = Returned k.
Proof.
  induction zs as [|z zs IH]; intros k Hnn (Hk & Hzero & Hfirst); [simpl in Hk; lia|].
  inversion Hnn as [|? ? Hz Hnn']; subst.
  cbn [map py_index]. rewrite (root_eqb_zero z Hz).
  destruct k as [|k].
  - cbn [nth] in Hzero. subst z. reflexivity.
  - specialize (Hfirst 0 (Nat.lt_0_succ k)) as H0. cbn [nth] in H0.
    replace (z =? 0)%Z with false by (symmetry; apply Z.eqb_neq; exact H0).
    rewrite (IH k Hnn'); [reflexivity|].
    split; [simpl in Hk; lia | split; [exact Hzero|]].
    intros y Hy. apply (Hfirst (S y)). lia.
Qed.

(** With a 0 among the squared distances, the position chosen is that of
    the first 0. *)
Lemma index_of_zero zs k :
  Forall (fun z => (0 <= z)%Z) zs -> first_zero zs k -> chosen zs k.
Proof.
  intros Hnn Hfz. exists (Root 0). split; [|apply py_index_zero; assumption].
  destruct zs as [|z zs]; [destruct Hfz as [H _]; simpl in H; lia|].
  cbn [map py_min]. f_equal.
  inversion Hnn as [|? ? Hz Hnn']; subst.
  apply min_from_zero.
  - exact Hz.
  - apply Forall_forall. intros x Hx. apply in_map_iff in Hx.
    destruct Hx as (z' & <- & Hz'). rewrite Forall_forall in Hnn'. exact (Hnn' z' Hz').
  - destruct Hfz as (Hk & Hzero & _). destruct k as [|k].
    + left. cbn [nth] in Hzero. subst z. reflexivity.
    + right. cbn [nth] in Hzero. rewrite <- Hzero.
      apply in_map, nth_In. simpl in Hk. lia.
Qed.

Lemma py_index_total x l : In x l -> exists k, py_index x l = Returned k.
Proof.
  induction l as [|z l IH]; intros Hin; [destruct Hin|].
  cbn [py_index]. destruct (root_eqb z x) eqn:E; [exists 0; reflexivity|].
  destruct Hin as [->|Hin]; [rewrite root_eqb_refl in E; discriminate|].
  destruct (IH Hin) as [k Hk]. exists (S k). rewrite Hk. reflexivity.
Qed.

(** On a non-empty list [min] and [list.index] always arrive at a position,
    and only one. *)
Lemma index_total zs : zs <> [] -> exists k, chosen zs k.
Proof.
  intros Hne. destruct zs as [|z zs]; [contradiction|].
  set (m := min_from (Root z) (map Root zs)).
  assert (Hin : In m (map Root (z :: zs))).
  { destruct (min_from_in (map Root zs) (Root z)) as [H|H]; [left | right]; auto. }
  destruct (py_index_total m _ Hin) as [k Hk].
  exists k, m. split; [reflexivity | exact Hk].
Qed.

Lemma chosen_unique zs k k' : chosen zs k -> chosen zs k' -> k = k'.
Proof.
  intros (m & Em & Ek) (m' & Em' & Ek'). congruence.
Qed.

(** Every address of [nl] is an address of the store. *)
Definition valid (st : store) (nl : list addr) : Prop :=
  Forall (fun a => a < length st) nl.

Lemma valid_extends st0 st nl : extends st0 st -> valid st0 nl -> valid st nl.
Proof.
  intros [L _] H. unfold valid in *. rewrite L. exact H.
Qed.

Lemma dist_row_from i nl2 st0 :
  i < length st0 ->
  forall acc st, extends st0 st -> valid st0 nl2 ->
    exists st',
      for_each nl2
        (fun j s =>
           ' (d, st') <- dist_entry i j (snd s) ;;
           Returned (fst s ++ [d], st'))
        (acc, st) =
      Returned (acc ++ map (fun j => Root (padded_sq (read st0 i) (read st0 j))) nl2, st')
      /\ extends st0 st'.
Proof.
  intros Hi. induction nl2 as [|j nl2 IH]; intros acc st Hext Hv.
  - exists st. simpl. rewrite app_nil_r. split; [reflexivity | exact Hext].
  - inversion Hv as [|? ? Hj Hv']; subst.
    cbn [for_each snd fst].
    assert (Hl : length st = length st0) by apply Hext.
    rewrite dist_entry_eq by lia. cbn [bind].
    destruct (IH (acc ++ [Root (padded_sq (read st i) (read st j))]) (pad_pair i j st))
      as (st' & E & Hext').
    + eapply extends_trans; [exact Hext | apply pad_pair_extends].
    + exact Hv'.
    + exists st'. split; [|exact Hext'].
      rewrite E, <- app_assoc. simpl.
      rewrite (extends_padded_sq st0 st i j Hext). reflexivity.
Qed.

Lemma dist_row_eq i nl2 st :
  i < length st -> valid st nl2 ->
  exists st',
    dist_row i nl2 st =
    Returned (map (fun j => Root (padded_sq (read st i) (read st j))) nl2, st')
    /\ extends st st'.
Proof.
  intros Hi Hv. unfold dist_row.
  destruct (dist_row_from i nl2 st Hi [] st (extends_refl st) Hv) as (st' & E & Hext).
  exists st'. split; [exact E | exact Hext].
Qed.

(** The squared padded distances from the profile at [a] to those of [nl2]. *)
Definition sq_row (st : store) (a : addr) (nl2 : list addr) : list Z :=
  map (fun j => padded_sq (read st a) (read st j)) nl2.

Lemma sq_row_roots st a nl2 :
  map (fun j => Root (padded_sq (read st a) (read st j))) nl2 =
  map Root (sq_row st a nl2).
Proof. unfold sq_row. rewrite map_map. reflexivity. Qed.

Lemma sq_row_extends st0 st a nl2 :
  extends st0 st -> sq_row st a nl2 = sq_row st0 a nl2.
Proof.
  intros H. unfold sq_row. apply map_ext. intros j. apply extends_padded_sq, H.
Qed.

Lemma sq_row_nonneg st a nl2 : Forall (fun z => (0 <= z)%Z) (sq_row st a nl2).
Proof.
  apply Forall_forall. intros z Hz. unfold sq_row in Hz. apply in_map_iff in Hz.
  destruct Hz as (j & <- & _). apply padded_sq_nonneg.
Qed.

(** What the outer loop of [closest_node] has appended after [done], when
    [P i k] describes the position [k] it chooses for the profile at [i]. *)
Definition matched_by (P : addr -> nat -> Prop) (done : list addr)
    (res : list (nat * nat)) : Prop :=
  length res = length done /\
  forall x, x < length done ->
    exists k, nth x res (0, 0) = (x, k) /\ P (nth x done 0) k.

(** The same with [k] the first position of a smallest squared distance. *)
Definition matched (st0 : store) (nl2 : list addr) (done : list addr)
    (res : list (nat * nat)) : Prop :=
  matched_by (fun i k => first_min (sq_row st0 i nl2) k) done res.

Lemma closest_loop_from (P : addr -> nat -> Prop) nl2 st0 :
  valid st0 nl2 ->
  forall todo done res st,
    valid st0 todo -> extends st0 st ->
    (forall i, In i todo -> exists k, chosen (sq_row st0 i nl2) k /\ P i k) ->
    matched_by P done res ->
    exists res' st',
      for_each todo
        (fun i s =>
           let '(count, closest_node_list, st) := s in
           ' (dist_list, st') <- dist_row i nl2 st ;;
           m <- py_min dist_list ;;
           k <- py_index m dist_list ;;
           Returned (S count, closest_node_list ++ [(count, k)], st'))
        (length done, res, st) =
      Returned (length (done ++ todo), res', st')
      /\ extends st0 st' /\ matched_by P (done ++ todo) res'.
Proof.
  intros Hv2. induction todo as [|i todo IH]; intros done res st Hv Hext Hrow Hm.
  - exists res, st. rewrite app_nil_r. simpl.
    split; [reflexivity | split; assumption].
  - inversion Hv as [|? ? Hi Hv']; subst.
    cbn [for_each].
    assert (Hl : length st = length st0) by apply Hext.
    destruct (dist_row_eq i nl2 st) as (st1 & E1 & Hext1).
    { lia. } { eapply valid_extends; eassumption. }
    rewrite E1. cbn [bind]. rewrite sq_row_roots.
    destruct (Hrow i (or_introl eq_refl)) as (k & (m & Em & Ek) & HP).
    rewrite (sq_row_extends st0 st i nl2 Hext).
    rewrite Em. cbn [bind]. rewrite Ek. cbn [bind].
    destruct (IH (done ++ [i]) (res ++ [(length done, k)]) st1) as (res' & st' & E & Hext' & Hm').
    + exact Hv'.
    + eapply extends_trans; eassumption.
    + intros i' Hi'. apply Hrow. right. exact Hi'.
    + destruct Hm as [Hlen Hm]. split.
      * rewrite !length_app. simpl. lia.
      * intros x Hx. rewrite length_app in Hx. simpl in Hx.
        destruct (Nat.eq_dec x (length done)) as [->|Hne'].
        -- exists k. split.
           ++ rewrite app_nth2 by lia. rewrite Hlen, Nat.sub_diag. reflexivity.
           ++ rewrite app_nth2 by lia. rewrite Nat.sub_diag. simpl. exact HP.
        -- destruct (Hm x) as (k' & Hk' & Hfm'); [lia|].
           exists k'. split.
           ++ rewrite app_nth1 by lia. exact Hk'.
           ++ rewrite app_nth1 by lia. exact Hfm'.
    + exists res', st'.
      replace (S (length done)) with (length (done ++ [i])) by (rewrite length_app; simpl; lia).
      rewrite E, <- app_assoc. simpl.
      split; [reflexivity | split; [exact Hext'|]].
      rewrite <- app_assoc in Hm'. exact Hm'.
Qed.

Lemma closest_node_by (P : addr -> nat -> Prop) nl1 nl2 st :
  valid st nl1 -> valid st nl2 ->
  (forall i, In i nl1 -> exists k, chosen (sq_row st i nl2) k /\ P i k) ->
  exists res st',
    closest_node nl1 nl2 st = Returned (res, st') /\
    extends st st' /\ matched_by P nl1 res.
Proof.
  intros H1 H2 Hrow. unfold closest_node.
  destruct (closest_loop_from P nl2 st H2 nl1 [] [] st H1 (extends_refl st) Hrow)
    as (res & st' & E & Hext & Hm).
  { split; [reflexivity|]. intros x Hx. simpl in Hx. lia. }
  simpl in E. exists res, st'. rewrite E. cbn [bind].
  split; [reflexivity | split; assumption].
Qed.

(** All squared distances between the profiles of [nl1] and of [nl2] are
    below 2^52. *)
Definition small_distances (st : store) (nl1 nl2 : list addr) : Prop :=
  forall i j, In i nl1 -> In j nl2 -> small (padded_sq (read st i) (read st j)).

Lemma small_distances_row st nl1 nl2 i :
  small_distances st nl1 nl2 -> In i nl1 -> Forall small (sq_row st i nl2).
Proof.
  intros H Hi. apply Forall_forall. intros z Hz. unfold sq_row in Hz.
  apply in_map_iff in Hz. destruct Hz as (j & <- & Hj). exact (H i j Hi Hj).
Qed.

Lemma small_distances_extends st0 st nl1 nl2 :
  extends st0 st -> small_distances st0 nl1 nl2 -> small_distances st nl1 nl2.
Proof.
  intros He H i j Hi Hj. rewrite (extends_padded_sq st0 st i j He). exact (H i j Hi Hj).
Qed.

Lemma small_distances_sym st nl1 nl2 :
  small_distances st nl1 nl2 -> small_distances st nl2 nl1.
Proof. intros H i j Hi Hj. rewrite padded_sq_sym. exact (H j i Hj Hi). Qed.

Lemma closest_node_spec nl1 nl2 st :
  valid st nl1 -> valid st nl2 -> nl2 <> [] -> small_distances st nl1 nl2 ->
  exists res st',
    closest_node nl1 nl2 st = Returned (res, st') /\
    extends st st' /\ matched st nl2 nl1 res.
Proof.
  intros H1 H2 Hne Hsm. apply closest_node_by; try assumption.
  intros i Hi. apply index_of_min.
  - unfold sq_row. destruct nl2; [contradiction | discriminate].
  - eapply small_distances_row; eassumption.
Qed.

Lemma closest_node_rows nl1 nl2 st :
  valid st nl1 -> valid st nl2 -> nl2 <> [] ->
  exists res st',
    closest_node nl1 nl2 st = Returned (res, st') /\
    extends st st' /\ matched_by (fun i k => chosen (sq_row st i nl2) k) nl1 res.
Proof.
  intros H1 H2 Hne. apply closest_node_by; try assumption.
  intros i _. destruct (index_total (sq_row st i nl2)) as [k Hk].
  - unfold sq_row. destruct nl2; [contradiction | discriminate].
  - exists k. split; exact Hk.
Qed.

Lemma sq_row_nth st a nl2 y :
  y < length nl2 ->
  nth y (sq_row st a nl2) 0%Z = padded_sq (read st a) (read st (nth y nl2 0)).
Proof.
  intros Hy. unfold sq_row.
  rewrite (nth_indep _ 0%Z (padded_sq (read st a) (read st 0))) by (rewrite length_map; exact Hy).
  apply (map_nth (fun j => padded_sq (read st a) (read st j))).
Qed.

Lemma sq_row_length st a nl2 : length (sq_row st a nl2) = length nl2.
Proof. apply length_map. Qed.

Lemma same_padded_sym u v : same_padded u v -> same_padded v u.
Proof. unfold same_padded. intros H. symmetry. exact H. Qed.

Lemma first_zero_exists zs : forall x,
  nth x zs 1%Z = 0%Z -> exists k, k <= x /\ first_zero zs k.
Proof.
  induction zs as [|z zs IH]; intros x Hx.
  - destruct x; discriminate Hx.
  - destruct (Z.eq_dec z 0) as [->|Hz].
    + exists 0. split; [lia|]. split; [simpl; lia | split; [reflexivity|]].
      intros y Hy. lia.
    + destruct x as [|x]; [cbn [nth] in Hx; contradiction|].
      cbn [nth] in Hx. destruct (IH x Hx) as (k & Hk & Hl & Hzero & Hfirst).
      exists (S k). split; [lia|]. split; [simpl; lia | split; [exact Hzero|]].
      intros [|y] Hy; [exact Hz | apply Hfirst; lia].
Qed.

Lemma first_zero_self st nl x k :
  x < length nl ->
  first_zero (sq_row st (nth x nl 0) nl) k ->
  k <= x /\
  same_padded (read st (nth x nl 0)) (read st (nth k nl 0)) /\
  forall y, y < k -> ~ same_padded (read st (nth x nl 0)) (read st (nth y nl 0)).
Proof.
  intros Hx (Hk & Hzero & Hfirst). rewrite sq_row_length in Hk.
  split; [|split].
  - destruct (Nat.le_gt_cases k x) as [H|H]; [exact H|].
    exfalso. apply (Hfirst x H). rewrite sq_row_nth by exact Hx. apply padded_sq_refl.
  - apply padded_sq_zero_iff. rewrite <- sq_row_nth by exact Hk. exact Hzero.
  - intros y Hy Hsame. apply (Hfirst y Hy).
    apply padded_sq_zero_iff in Hsame. rewrite sq_row_nth by lia. exact Hsame.
Qed.

Lemma nth_map_seq {A : Type} (f : nat -> A) (d : A) (n x : nat) :
  x < n -> nth x (map f (seq 0 n)) d = f x.
Proof.
  intros Hx. rewrite (nth_indep _ d (f 0)) by (rewrite length_map, length_seq; exact Hx).
  rewrite (map_nth f), seq_nth by exact Hx. reflexivity.
Qed.

(** C6, as amended.  [closest_node(nl, nl)] returns one pair per node, in
    node order, and maps node [x] to the first index [k <= x] whose profile
    equals that of [x] once zero-padded; it maps every node to itself when
    no two profiles of [nl] are equal up to zero-padding. *)
Theorem closest_node_self_first_equal_profile (nl : list addr) (st : store) :
  valid st nl ->
  exists res st',
    closest_node nl nl st = Returned (res, st') /\
    length res = length nl /\
    (forall x, x < length nl ->
       exists k, nth x res (0, 0) = (x, k) /\ k <= x /\
         same_padded (read st (nth x nl 0)) (read st (nth k nl 0)) /\
         forall y, y < k ->
           ~ same_padded (read st (nth x nl 0)) (read st (nth y nl 0))) /\
    ((forall x y, x < y < length nl ->
        ~ same_padded (read st (nth x nl 0)) (read st (nth y nl 0))) ->
     res = map (fun x => (x, x)) (seq 0 (length nl))).
Proof.
  intros Hv.
  destruct (closest_node_by
              (fun i k => first_zero (sq_row st i nl) k) nl nl st Hv Hv)
    as (res & st' & E & _ & Hlen & Hm).
  { intros i Hi. destruct (In_nth _ _ 0 Hi) as (x & Hx & <-).
    destruct (first_zero_exists (sq_row st (nth x nl 0) nl) x) as (k & _ & Hk).
    - rewrite (nth_indep _ 1%Z 0%Z) by (rewrite sq_row_length; exact Hx).
      rewrite sq_row_nth by exact Hx. apply padded_sq_refl.
    - exists k. split; [|exact Hk].
      apply index_of_zero; [apply sq_row_nonneg | exact Hk]. }
  assert (Hall : forall x, x < length nl ->
     exists k, nth x res (0, 0) = (x, k) /\ k <= x /\
       same_padded (read st (nth x nl 0)) (read st (nth k nl 0)) /\
       forall y, y < k ->
         ~ same_padded (read st (nth x nl 0)) (read st (nth y nl 0))).
  { intros x Hx. destruct (Hm x Hx) as (k & Hk & Hfz).
    exists k. split; [exact Hk|]. apply first_zero_self; assumption. }
  exists res, st'. split; [exact E | split; [exact Hlen | split; [exact Hall|]]].
  intros Hdistinct.
  apply (nth_ext _ _ (0, 0) (0, 0)).
  - rewrite length_map, length_seq. exact Hlen.
  - intros x Hx. rewrite Hlen in Hx.
    destruct (Hall x Hx) as (k & Hk & Hkx & Hsame & _).
    rewrite Hk, (nth_map_seq (fun x => (x, x))) by exact Hx.
    destruct (Nat.eq_dec k x) as [->|Hne]; [reflexivity|].
    exfalso. apply (Hdistinct k x); [lia|]. apply same_padded_sym, Hsame.
Qed.

End ClosestNode.

Lemma closest_node_self_first_equal_profile_witness :
  valid [[3%Z; 1%Z]; [2%Z]] [0; 1] /\
  exists res st',
    closest_node [0; 1] [0; 1] [[3%Z; 1%Z]; [2%Z]] = Returned (res, st') /\
    length res = 2.
Proof.
  assert (Hv : valid [[3%Z; 1%Z]; [2%Z]] [0; 1]) by (repeat constructor).
  split; [exact Hv|].
  destruct (closest_node_self_first_equal_profile [0; 1] _ Hv)
    as (res & st' & E & Hlen & _).
  exists res, st'. split; [exact E | exact Hlen].
Defined.

(** C6, counterexample: with two equal profiles, node 1 is mapped to node 0
    and the pair (1, 1) is not returned.  All distances are 0 here, which
    every comparison of the interface treats alike. *)
Lemma closest_node_self_duplicate_profile :
  exists st',
    closest_node [0; 1] [0; 1] [[1%Z]; [1%Z]] = Returned ([(0, 0); (1, 0)], st') /\
    ~ In (1, 1) [(0, 0); (1, 0)].
Proof.
  eexists. split; [vm_compute; reflexivity|].
  intros [H|[H|[]]]; discriminate H.
Qed.

(** C1, counterexample: comparing [[3]] with [[3, 1]] leaves [[3, 0]] in the
    caller's list, through the step itself and through both functions. *)
Lemma dist_entry_pads_shorter_vector :
  dist_entry 0 1 [[3%Z]; [3%Z; 1%Z]] =
    Returned (Root 1, [[3%Z; 0%Z]; [3%Z; 1%Z]]) /\
  closest_node [0] [1] [[3%Z]; [3%Z; 1%Z]] =
    Returned ([(0, 0)], [[3%Z; 0%Z]; [3%Z; 1%Z]]) /\
  graphs2bipartite_weight [0] [1] [[3%Z]; [3%Z; 1%Z]] =
    Returned (Nx.Graph [1%Z; (-1)%Z] [(1%Z, (-1)%Z, Some (Similarity (Root 1)))],
              [[3%Z; 0%Z]; [3%Z; 1%Z]]).
Proof. repeat split; vm_compute; reflexivity. Qed.


Lemma seq_split_lt n done x rest : seq 0 n = done ++ x :: rest -> x < n.
Proof.
  intros H. assert (Hin : In x (seq 0 n)) by (rewrite H; apply in_elt).
  apply in_seq in Hin. lia.
Qed.

Lemma joins_labels x y x' y' (w : option similarity) :
  Nx.joins (left_node x) (right_node y) (left_node x', right_node y', w) = true <->
  x = x' /\ y = y'.
Proof.
  unfold Nx.joins, left_node, right_node.
  rewrite orb_true_iff, !andb_true_iff, !Z.eqb_eq. lia.
Qed.

Section Bipartite.

Variables (nei1 nei2 : list addr) (st0 : store).
Hypothesis Hv1 : valid st0 nei1.
Hypothesis Hv2 : valid st0 nei2.

Definition sim (x y : nat) : similarity :=
  Similarity (Root (padded_sq (read st0 (nth x nei1 0)) (read st0 (nth y nei2 0)))).

Definition bedge (x y : nat) : Z * Z * option similarity :=
  (left_node x, right_node y, Some (sim x y)).

(** The graph holds exactly the edges of the pairs in [D], and the store
    is the initial one up to padding. *)
Definition binv (N : list Z) (D : nat -> nat -> Prop) (s : bgraph * store) : Prop :=
  extends st0 (snd s) /\
  Nx.nodes (fst s) = N /\
  (forall e, In e (Nx.edges (fst s)) -> exists x y, D x y /\ e = bedge x y) /\
  (forall x y, D x y -> In (bedge x y) (Nx.edges (fst s))).

Lemma binv_ext N D D' s :
  (forall x y, D x y <-> D' x y) -> binv N D s -> binv N D' s.
Proof.
  intros HD (He & Hn & H1 & H2). split; [exact He | split; [exact Hn | split]].
  - intros e Hin. destruct (H1 e Hin) as (x & y & Hd & ->).
    exists x, y. split; [apply HD, Hd | reflexivity].
  - intros x y Hd. apply H2, HD, Hd.
Qed.

Lemma binv_add_edge N D G st st' x y :
  binv N D (G, st) -> extends st0 st' ->
  Nx.has_node G (left_node x) = true -> Nx.has_node G (right_node y) = true ->
  binv N (fun a b => D a b \/ (a = x /\ b = y))
    (Nx.add_edge G (left_node x) (right_node y) (sim x y), st').
Proof.
  intros (He & Hn & H1 & H2) He' Hx Hy. cbn [fst snd] in *.
  split; [exact He' | split; [|split]]; cbn [fst snd].
  - rewrite Nx.add_edge_nodes by assumption. exact Hn.
  - intros e Hin. apply Nx.add_edge_edges in Hin.
    destruct Hin as [[Hin _]|[(e0 & Hin & Hj & ->)|[_ ->]]].
    + destruct (H1 e Hin) as (a & b & Hd & ->). exists a, b. auto.
    + destruct (H1 e0 Hin) as (a & b & Hd & ->).
      apply joins_labels in Hj. destruct Hj as [-> ->].
      exists a, b. split; [right; auto | reflexivity].
    + exists x, y. split; [right; auto | reflexivity].
  - intros a b Hd. apply Nx.add_edge_edges.
    destruct (Nat.eq_dec a x) as [->|Hax]; [destruct (Nat.eq_dec b y) as [->|Hby]|].
    + destruct (Nx.has_edge G (left_node x) (right_node y)) eqn:Eh.
      * right. left. apply Nx.has_edge_In in Eh. destruct Eh as (e0 & Hin & Hj).
        exists e0. split; [exact Hin | split; [exact Hj|]].
        destruct (H1 e0 Hin) as (a & b & _ & ->).
        apply joins_labels in Hj. destruct Hj as [-> ->]. reflexivity.
      * right. right. split; reflexivity.
    + left. destruct Hd as [Hd|[_ Hb]]; [|contradiction].
      split; [apply H2, Hd|].
      destruct (Nx.joins (left_node x) (right_node y) (bedge x b)) eqn:Ej; [|reflexivity].
      apply joins_labels in Ej. destruct Ej as [_ ->]. contradiction.
    + left. destruct Hd as [Hd|[Ha _]]; [|contradiction].
      split; [apply H2, Hd|].
      destruct (Nx.joins (left_node x) (right_node y) (bedge a b)) eqn:Ej; [|reflexivity].
      apply joins_labels in Ej. destruct Ej as [-> _]. contradiction.
Qed.

Lemma bp_entry_eq G st x y :
  extends st0 st -> x < length nei1 -> y < length nei2 ->
  exists G',
    bp_entry nei1 nei2 x y (G, st) =
      Returned (G', pad_pair (nth x nei1 0) (nth y nei2 0) st) /\
    (G' = Nx.add_edge G (left_node x) (right_node y) (sim x y) \/
     G' = Nx.add_edge (Nx.add_edge G (left_node x) (right_node y) (sim x y))
            (left_node x) (right_node y) (sim x y)).
Proof.
  intros Hext Hx Hy.
  assert (Hl : length st = length st0) by apply Hext.
  assert (Hi : nth x nei1 0 < length st).
  { rewrite Hl. unfold valid in Hv1. rewrite Forall_forall in Hv1. apply Hv1, nth_In, Hx. }
  assert (Hj : nth y nei2 0 < length st).
  { rewrite Hl. unfold valid in Hv2. rewrite Forall_forall in Hv2. apply Hv2, nth_In, Hy. }
  set (i := nth x nei1 0) in *. set (j := nth y nei2 0) in *.
  pose proof (pad_pair_lengths i j st Hi Hj) as HL.
  pose proof (extends_padded_sq st (pad_pair i j st) i j (pad_pair_extends i j st)) as HP.
  pose proof (extends_padded_sq st0 st i j Hext) as HP0.
  assert (Hsim : Similarity (Root (padded_sq (read st i) (read st j))) = sim x y).
  { unfold sim. fold i j. rewrite HP0. reflexivity. }
  unfold bp_entry. fold i j. unfold pad_pair in *.
  destruct (Nat.eqb_spec (length (read st i)) (length (read st j))) as [He|Hne].
  - rewrite euclidean_same_length by exact He. cbn [bind].
    replace (Nat.ltb _ _) with false in * by (symmetry; apply Nat.ltb_ge; lia).
    rewrite euclidean_same_length by exact HL. cbn [bind].
    rewrite HP, Hsim. eexists. split; [reflexivity | right; reflexivity].
  - cbn [bind]. destruct (Nat.ltb (length (read st i)) (length (read st j))).
    + rewrite euclidean_same_length by exact HL. cbn [bind].
      rewrite HP, Hsim. eexists. split; [reflexivity | left; reflexivity].
    + rewrite euclidean_same_length by exact HL. cbn [bind].
      rewrite HP, Hsim. eexists. split; [reflexivity | left; reflexivity].
Qed.


(** The nodes [graphs2bipartite_weight] starts from. *)
Definition bnodes : bgraph :=
  fold_left (fun g j => Nx.add_node g (right_node j)) (seq 0 (length nei2))
    (fold_left (fun g i => Nx.add_node g (left_node i)) (seq 0 (length nei1))
       Nx.empty).

Lemma bnodes_edges : Nx.edges bnodes = [].
Proof. unfold bnodes. rewrite !Nx.fold_add_node_edges. reflexivity. Qed.

Lemma existsb_label (f : nat -> Z) n m :
  existsb (fun i => (m =? f i)%Z) (seq 0 n) = true <-> exists i, i < n /\ m = f i.
Proof.
  rewrite existsb_exists. split.
  - intros (i & Hi & E). apply in_seq in Hi. apply Z.eqb_eq in E. exists i. split; [lia | exact E].
  - intros (i & Hi & E). exists i. split; [apply in_seq; lia | apply Z.eqb_eq, E].
Qed.

Lemma bnodes_has m :
  Nx.has_node bnodes m = true <->
  (exists i, i < length nei1 /\ m = left_node i) \/
  (exists j, j < length nei2 /\ m = right_node j).
Proof.
  unfold bnodes. rewrite !Nx.fold_add_node_has. simpl.
  rewrite orb_true_iff, !existsb_label. reflexivity.
Qed.

Lemma has_node_same_nodes (G G' : bgraph) m :
  Nx.nodes G = Nx.nodes G' -> Nx.has_node G m = Nx.has_node G' m.
Proof. unfold Nx.has_node. intros ->. reflexivity. Qed.

Lemma bp_inner x done_i st_in G_in :
  x < length nei1 ->
  binv (Nx.nodes bnodes) (fun a b => In a done_i /\ b < length nei2) (G_in, st_in) ->
  exists s',
    for_each (seq 0 (length nei2)) (fun j s => bp_entry nei1 nei2 x j s) (G_in, st_in)
      = Returned s' /\
    binv (Nx.nodes bnodes) (fun a b => In a (done_i ++ [x]) /\ b < length nei2) s'.
Proof.
  intros Hx Hinv.
  destruct (for_each_invariant (fun j s => bp_entry nei1 nei2 x j s)
              (fun done_j s =>
                 binv (Nx.nodes bnodes)
                   (fun a b => (In a done_i /\ b < length nei2) \/
                               (a = x /\ In b done_j)) s)
              (seq 0 (length nei2)) (G_in, st_in)) as (s' & E & Hs').
  - intros done_j y rest [G st] Hsplit Hb.
    pose proof (seq_split_lt _ _ _ _ Hsplit) as Hy.
    destruct Hb as (Hext & Hn & H1 & H2). cbn [fst snd] in *.
    destruct (bp_entry_eq G st x y Hext Hx Hy) as (G' & E & HG').
    exists (G', pad_pair (nth x nei1 0) (nth y nei2 0) st). split; [exact E|].
    assert (Hext' : extends st0 (pad_pair (nth x nei1 0) (nth y nei2 0) st)).
    { eapply extends_trans; [exact Hext | apply pad_pair_extends]. }
    assert (Hl : Nx.has_node G (left_node x) = true).
    { rewrite (has_node_same_nodes G bnodes _ Hn). apply bnodes_has. left. exists x. auto. }
    assert (Hr : Nx.has_node G (right_node y) = true).
    { rewrite (has_node_same_nodes G bnodes _ Hn). apply bnodes_has. right. exists y. auto. }
    assert (Hstep : binv (Nx.nodes bnodes)
              (fun a b => ((In a done_i /\ b < length nei2) \/ (a = x /\ In b done_j))
                          \/ (a = x /\ b = y))
              (Nx.add_edge G (left_node x) (right_node y) (sim x y),
               pad_pair (nth x nei1 0) (nth y nei2 0) st)).
    { apply (binv_add_edge _ _ G st); auto.
      split; [exact Hext | split; [exact Hn | split; assumption]]. }
    destruct HG' as [->| ->].
    + eapply binv_ext; [|exact Hstep].
      intros a b. rewrite in_app_iff. simpl. intuition (subst; auto).
    + assert (Hl' : Nx.has_node (Nx.add_edge G (left_node x) (right_node y) (sim x y))
                      (left_node x) = true).
      { rewrite (has_node_same_nodes _ bnodes); [apply bnodes_has; left; exists x; auto|].
        apply Hstep. }
      assert (Hr' : Nx.has_node (Nx.add_edge G (left_node x) (right_node y) (sim x y))
                      (right_node y) = true).
      { rewrite (has_node_same_nodes _ bnodes); [apply bnodes_has; right; exists y; auto|].
        apply Hstep. }
      pose proof (binv_add_edge _ _ _ _ _ x y Hstep Hext' Hl' Hr') as Hstep2.
      eapply binv_ext; [|exact Hstep2].
      intros a b. rewrite in_app_iff. simpl. intuition (subst; auto).
  - eapply binv_ext; [|exact Hinv]. intros a b. simpl. tauto.
  - exists s'. split; [exact E|].
    eapply binv_ext; [|exact Hs']. intros a b. rewrite in_app_iff, in_seq. simpl.
    split.
    + intros [[Ha Hb]|[-> Hb]]; split; auto; lia.
    + intros [[Ha|[<-|[]]] Hb]; [left; auto | right; split; [reflexivity | lia]].
Qed.

Lemma graphs2bipartite_weight_inv :
  exists G st',
    graphs2bipartite_weight nei1 nei2 st0 = Returned (G, st') /\
    binv (Nx.nodes bnodes) (fun a b => a < length nei1 /\ b < length nei2) (G, st').
Proof.
  unfold graphs2bipartite_weight. fold bnodes.
  destruct (for_each_invariant
              (fun i s => for_each (seq 0 (length nei2))
                            (fun j s => bp_entry nei1 nei2 i j s) s)
              (fun done_i s =>
                 binv (Nx.nodes bnodes) (fun a b => In a done_i /\ b < length nei2) s)
              (seq 0 (length nei1)) (bnodes, st0)) as ([G st'] & E & Hs').
  - intros done_i x rest [G st] Hsplit Hb.
    apply bp_inner; [eapply seq_split_lt; exact Hsplit | exact Hb].
  - split; [apply extends_refl | split; [reflexivity | split]]; cbn [fst snd].
    + rewrite bnodes_edges. intros e [].
    + intros x y [[] _].
  - exists G, st'. split; [exact E|].
    cbv beta in Hs'. revert Hs'. apply binv_ext.
    intros a b. rewrite in_seq. simpl. split; intros [H1 H2]; split; auto; lia.
Qed.

End Bipartite.


Lemma bp_entry_core nei1 nei2 x y (G : bgraph) st :
  nth x nei1 0 < length st -> nth y nei2 0 < length st ->
  exists G',
    bp_entry nei1 nei2 x y (G, st) =
      Returned (G', pad_pair (nth x nei1 0) (nth y nei2 0) st) /\
    Nx.get_weight G' (left_node x) (right_node y) =
      Returned (Similarity (Root (padded_sq (read st (nth x nei1 0))
                                            (read st (nth y nei2 0))))).
Proof.
  intros Hi Hj.
  set (i := nth x nei1 0) in *. set (j := nth y nei2 0) in *.
  pose proof (pad_pair_lengths i j st Hi Hj) as HL.
  pose proof (extends_padded_sq st (pad_pair i j st) i j (pad_pair_extends i j st)) as HP.
  unfold bp_entry. fold i j. unfold pad_pair in *.
  destruct (Nat.eqb_spec (length (read st i)) (length (read st j))) as [He|Hne].
  - rewrite euclidean_same_length by exact He. cbn [bind].
    replace (Nat.ltb _ _) with false in * by (symmetry; apply Nat.ltb_ge; lia).
    rewrite euclidean_same_length by exact HL. cbn [bind].
    rewrite HP. eexists. split; [reflexivity | apply Nx.get_weight_add_edge].
  - cbn [bind]. destruct (Nat.ltb (length (read st i)) (length (read st j))).
    + rewrite euclidean_same_length by exact HL. cbn [bind].
      rewrite HP. eexists. split; [reflexivity | apply Nx.get_weight_add_edge].
    + rewrite euclidean_same_length by exact HL. cbn [bind].
      rewrite HP. eexists. split; [reflexivity | apply Nx.get_weight_add_edge].
Qed.

(** C1, as amended.  The pad-then-Euclidean step of [closest_node] is
    symmetric: computed for (i, j) or for (j, i) it returns the same
    distance, the Euclidean distance of the two vectors once the shorter is
    zero-padded, and leaves the same store.  The padding is done in place:
    afterwards the shorter stored vector has been extended with zeros to the
    length of the longer one, every other vector is unchanged, and no
    distance between stored vectors has changed.  The step of
    [graphs2bipartite_weight] computes the same distance and leaves the same
    store. *)
Theorem profile_distance_symmetric_pads_in_place (i j : addr) (st : store) :
  i < length st -> j < length st ->
  exists st',
    dist_entry i j st = Returned (Root (padded_sq (read st i) (read st j)), st') /\
    dist_entry j i st = Returned (Root (padded_sq (read st i) (read st j)), st') /\
    padded_sq (read st i) (read st j) =
      sqdiff (pad_to (read st i) (read st j)) (pad_to (read st j) (read st i)) /\
    read st' i = pad_to (read st i) (read st j) /\
    read st' j = pad_to (read st j) (read st i) /\
    (forall a, a <> i -> a <> j -> read st' a = read st a) /\
    (forall a b,
       padded_sq (read st' a) (read st' b) = padded_sq (read st a) (read st b)) /\
    (forall nei1 nei2 x y (G : bgraph),
       nth x nei1 0 = i -> nth y nei2 0 = j ->
       exists G',
         bp_entry nei1 nei2 x y (G, st) = Returned (G', st') /\
         Nx.get_weight G' (left_node x) (right_node y) =
           Returned (Similarity (Root (padded_sq (read st i) (read st j))))).
Proof.
  intros Hi Hj. exists (pad_pair i j st).
  split; [apply dist_entry_eq; assumption|].
  split.
  { rewrite (dist_entry_eq j i st Hj Hi), padded_sq_sym, pad_pair_comm by assumption.
    reflexivity. }
  split; [apply padded_sq_pad|].
  split; [apply pad_pair_read_l; assumption|].
  split; [apply pad_pair_read_r; assumption|].
  split; [intros a Ha Hb; apply pad_pair_read_other; assumption|].
  split; [intros a b; apply extends_padded_sq, pad_pair_extends|].
  intros nei1 nei2 x y G Hx Hy.
  destruct (bp_entry_core nei1 nei2 x y G st) as (G' & E & Hw).
  - rewrite Hx. exact Hi.
  - rewrite Hy. exact Hj.
  - rewrite Hx, Hy in *. exists G'. split; assumption.
Qed.

Lemma profile_distance_symmetric_pads_in_place_witness :
  0 < length [[3%Z]; [3%Z; 1%Z]] /\ 1 < length [[3%Z]; [3%Z; 1%Z]] /\
  exists st',
    dist_entry 0 1 [[3%Z]; [3%Z; 1%Z]] = Returned (Root 1, st') /\
    dist_entry 1 0 [[3%Z]; [3%Z; 1%Z]] = Returned (Root 1, st').
Proof.
  assert (H0 : 0 < length [[3%Z]; [3%Z; 1%Z]]) by (simpl; lia).
  assert (H1 : 1 < length [[3%Z]; [3%Z; 1%Z]]) by (simpl; lia).
  split; [exact H0 | split; [exact H1|]].
  destruct (profile_distance_symmetric_pads_in_place 0 1 _ H0 H1)
    as (st' & E1 & E2 & _).
  exists st'. split; [exact E1 | exact E2].
Defined.

Import Rdefinitions.

(** C7.  [graphs2bipartite_weight(nei1, nei2)] returns a graph whose nodes
    are [i+1] for every index [i] of [nei1] and [-(j+1)] for every index [j]
    of [nei2], with an edge between [i+1] and [-(j+1)] for every pair, of
    weight [1 / (d + 0.001)] where [d] is the Euclidean distance of the two
    zero-padded profile vectors, and with no other edge. *)
Theorem graphs2bipartite_weight_complete (nei1 nei2 : list addr) (st : store) :
  valid st nei1 -> valid st nei2 ->
  exists G st',
    graphs2bipartite_weight nei1 nei2 st = Returned (G, st') /\
    (forall m, Nx.has_node G m = true <->
       (exists i, i < length nei1 /\ m = left_node i) \/
       (exists j, j < length nei2 /\ m = right_node j)) /\
    (forall i j, i < length nei1 -> j < length nei2 ->
       exists w,
         Nx.get_weight G (left_node i) (right_node j) = Returned w /\
         similarity_R w =
           (1 / (R_sqrt.sqrt
                   (IZR (sqdiff
                           (pad_to (read st (nth i nei1 0%nat)) (read st (nth j nei2 0%nat)))
                           (pad_to (read st (nth j nei2 0%nat)) (read st (nth i nei1 0%nat)))))
                 + 1 / 1000))%R) /\
    (forall a b, Nx.has_edge G a b = true ->
       exists i j, i < length nei1 /\ j < length nei2 /\
         ((a = left_node i /\ b = right_node j) \/
          (a = right_node j /\ b = left_node i))).
Proof.
  intros Hv1 Hv2.
  destruct (graphs2bipartite_weight_inv nei1 nei2 st Hv1 Hv2)
    as (G & st' & E & Hext & Hn & H1 & H2).
  cbn [fst snd] in *.
  exists G, st'. split; [exact E | split; [|split]].
  - intros m. rewrite (has_node_same_nodes G (bnodes nei1 nei2) m Hn).
    apply bnodes_has.
  - intros i j Hi Hj. exists (sim nei1 nei2 st i j). split.
    + apply Nx.get_weight_unique.
      * exists (bedge nei1 nei2 st i j). split; [apply H2; auto|].
        apply joins_labels. auto.
      * intros e Hin Hjoin. destruct (H1 e Hin) as (x & y & _ & ->).
        apply joins_labels in Hjoin. destruct Hjoin as [-> ->]. reflexivity.
    + unfold sim, similarity_R, root_R. cbn [distance radicand].
      rewrite padded_sq_pad. reflexivity.
  - intros a b Hab. apply Nx.has_edge_In in Hab. destruct Hab as (e & Hin & Hjoin).
    destruct (H1 e Hin) as (x & y & [Hx Hy] & ->).
    exists x, y. split; [exact Hx | split; [exact Hy|]].
    unfold bedge, Nx.joins in Hjoin.
    rewrite orb_true_iff, !andb_true_iff, !Z.eqb_eq in Hjoin.
    destruct Hjoin as [[-> ->]|[-> ->]]; auto.
Qed.

Lemma graphs2bipartite_weight_complete_witness :
  valid [[3%Z]; [3%Z; 1%Z]] [0] /\ valid [[3%Z]; [3%Z; 1%Z]] [1] /\
  exists G st',
    graphs2bipartite_weight [0] [1] [[3%Z]; [3%Z; 1%Z]] = Returned (G, st') /\
    Nx.has_node G 1%Z = true.
Proof.
  assert (H0 : valid [[3%Z]; [3%Z; 1%Z]] [0]) by (repeat constructor).
  assert (H1 : valid [[3%Z]; [3%Z; 1%Z]] [1]) by (repeat constructor).
  split; [exact H0 | split; [exact H1|]].
  destruct (graphs2bipartite_weight_complete [0] [1] _ H0 H1)
    as (G & st' & E & Hn & _).
  exists G, st'. split; [exact E|].
  apply Hn. left. exists 0. split; [simpl; lia | reflexivity].
Defined.


(** ** More of [good_neighbors.py]: nearest profiles, node profiles and
    mutual matches *)

Section Nearest.

Context {cmp : Float64}.

(** X4.  For profile lists with valid addresses, a non-empty [nl2] and
    squared distances below 2^52 (where float64 compares distances exactly),
    [closest_node nl1 nl2] returns one pair [(x, k)] per position [x] of [nl1],
    in order, where [k] is the first position of [nl2] whose profile is at the
    smallest zero-padded Euclidean distance from the profile at [x]: no
    position is nearer, and every earlier position is strictly farther. *)
Theorem closest_node_first_nearest (nl1 nl2 : list addr) (st : store) :
  valid st nl1 -> valid st nl2 -> nl2 <> [] -> small_distances st nl1 nl2 ->
  exists res st',
    closest_node nl1 nl2 st = Returned (res, st') /\
    length res = length nl1 /\
    forall x, x < length nl1 ->
      exists k, nth x res (0, 0) = (x, k) /\ k < length nl2 /\
        (forall y, y < length nl2 ->
           Z.le (padded_sq (read st (nth x nl1 0)) (read st (nth k nl2 0)))
                (padded_sq (read st (nth x nl1 0)) (read st (nth y nl2 0)))) /\
        (forall y, y < k ->
           Z.lt (padded_sq (read st (nth x nl1 0)) (read st (nth k nl2 0)))
                (padded_sq (read st (nth x nl1 0)) (read st (nth y nl2 0)))).
Proof.
  intros H1 H2 Hne Hsm.
  destruct (closest_node_spec nl1 nl2 st H1 H2 Hne Hsm) as (res & st' & E & _ & Hlen & Hm).
  exists res, st'. split; [exact E | split; [exact Hlen|]].
  intros x Hx. destruct (Hm x Hx) as (k & Hk & Hlt & Hle & Hfirst).
  rewrite sq_row_length in *.
  exists k. split; [exact Hk | split; [exact Hlt | split]].
  - intros y Hy. specialize (Hle y Hy). rewrite !sq_row_nth in Hle by assumption. exact Hle.
  - intros y Hy. specialize (Hfirst y Hy).
    rewrite !sq_row_nth in Hfirst by lia. exact Hfirst.
Qed.

Lemma closest_node_empty_lists (i : addr) (nl1 nl2 : list addr) (st : store) :
  closest_node (i :: nl1) [] st = Raised ValueError /\
  closest_node [] nl2 st = Returned ([], st).
Proof. split; reflexivity. Qed.

Lemma matched_unique st0 nl2 nl1 res res' :
  matched st0 nl2 nl1 res -> matched st0 nl2 nl1 res' -> res = res'.
Proof.
  intros [L H] [L' H']. apply (nth_ext _ _ (0, 0) (0, 0)); [congruence|].
  intros x Hx. rewrite L in Hx.
  destruct (H x Hx) as (k & -> & Hk). destruct (H' x Hx) as (k' & -> & Hk').
  f_equal. exact (first_min_unique _ _ _ Hk Hk').
Qed.

Lemma matched_extends st0 st nl2 nl1 res :
  extends st0 st -> matched st nl2 nl1 res -> matched st0 nl2 nl1 res.
Proof.
  intros He [L H]. split; [exact L|]. intros x Hx.
  destruct (H x Hx) as (k & Hk & Hf). exists k. split; [exact Hk|].
  cbv beta in *. rewrite <- (sq_row_extends st0 st _ nl2 He). exact Hf.
Qed.

Lemma chosen_rows_unique st nl2 nl1 res res' :
  matched_by (fun i k => chosen (sq_row st i nl2) k) nl1 res ->
  matched_by (fun i k => chosen (sq_row st i nl2) k) nl1 res' ->
  res = res'.
Proof.
  intros [L H] [L' H']. apply (nth_ext _ _ (0, 0) (0, 0)); [congruence|].
  intros x Hx. rewrite L in Hx.
  destruct (H x Hx) as (k & -> & Hk). destruct (H' x Hx) as (k' & -> & Hk').
  f_equal. exact (chosen_unique _ _ _ Hk Hk').
Qed.

Lemma chosen_rows_extends st0 st nl2 nl1 res :
  extends st0 st ->
  matched_by (fun i k => chosen (sq_row st i nl2) k) nl1 res ->
  matched_by (fun i k => chosen (sq_row st0 i nl2) k) nl1 res.
Proof.
  intros He [L H]. split; [exact L|]. intros x Hx.
  destruct (H x Hx) as (k & Hk & Hf). exists k. split; [exact Hk|].
  cbv beta in *. rewrite <- (sq_row_extends st0 st _ nl2 He). exact Hf.
Qed.

Lemma closest_node_padded_store (nl1 nl2 : list addr) (st0 st : store) :
  valid st0 nl1 -> valid st0 nl2 -> nl2 <> [] -> extends st0 st ->
  exists res st0' st',
    closest_node nl1 nl2 st0 = Returned (res, st0') /\
    closest_node nl1 nl2 st = Returned (res, st').
Proof.
  intros H1 H2 Hne He.
  destruct (closest_node_rows nl1 nl2 st0 H1 H2 Hne) as (res & st0' & E0 & _ & Hm0).
  destruct (closest_node_rows nl1 nl2 st (valid_extends _ _ _ He H1)
              (valid_extends _ _ _ He H2) Hne) as (res' & st' & E & _ & Hm).
  exists res, st0', st'. split; [exact E0|].
  rewrite E. f_equal. f_equal.
  apply (chosen_rows_unique st0 nl2 nl1); [|exact Hm0].
  eapply chosen_rows_extends; eassumption.
Qed.

(** X5.  The script builds the bipartite graph first, and that call pads the
    profiles in place; [closest_node] on the padded profiles gives the same
    pairs as on the original ones. *)
Theorem closest_node_after_bipartite (nei1 nei2 : list addr) (st st1 : store)
    (G_bp : bgraph) :
  valid st nei1 -> valid st nei2 -> nei2 <> [] ->
  graphs2bipartite_weight nei1 nei2 st = Returned (G_bp, st1) ->
  exists res st' st2,
    closest_node nei1 nei2 st = Returned (res, st') /\
    closest_node nei1 nei2 st1 = Returned (res, st2).
Proof.
  intros H1 H2 Hne E.
  destruct (graphs2bipartite_weight_inv nei1 nei2 st H1 H2) as (G & st1' & E' & He & _).
  rewrite E in E'. injection E' as <- <-. cbn [snd] in He.
  apply closest_node_padded_store; assumption.
Qed.


Lemma seq_map_const_nil {A : Type} (n : nat) :
  map (fun _ : nat => @nil A) (seq 0 n) = repeat [] n.
Proof.
  generalize 0. induction n as [|n IH]; intros s'; simpl; [reflexivity | rewrite IH; reflexivity].
Qed.

Lemma list_as_map_nth_seq {A : Type} (l : list A) (d : A) :
  l = map (fun i => nth i l d) (seq 0 (length l)).
Proof.
  induction l as [|x l IH]; simpl; [reflexivity|].
  f_equal. rewrite <- seq_shift, map_map. exact IH.
Qed.

(** A triangle of weights 2, 3 and 5. *)
Definition three_nodes : Nx.graph Z :=
  Nx.Graph [0; 1; 2]%Z [(0, 1, Some 2); (1, 2, Some 3); (0, 2, Some 5)]%Z.

(** The weights of the edges at node [u], in edge order; an edge from [u] to
    itself counts twice. *)
Definition incident (edge_list : list (Z * Z * Z)) (u : nat) : list Z :=
  flat_map (fun edge =>
              (if (fst (fst edge) =? Z.of_nat u)%Z then [snd edge] else []) ++
              (if (snd (fst edge) =? Z.of_nat u)%Z then [snd edge] else []))
           edge_list.

Lemma insert_desc_perm x l : Permutation (x :: l) (insert_desc x l).
Proof.
  induction l as [|y l IH]; simpl; [apply Permutation_refl|].
  destruct (y <? x)%Z; [apply Permutation_refl|].
  eapply perm_trans; [apply perm_swap | apply perm_skip, IH].
Qed.

Lemma sorted_desc_perm l : Permutation l (sorted_desc l).
Proof.
  induction l as [|x l IH]; simpl; [apply perm_nil|].
  eapply perm_trans; [apply perm_skip, IH | apply insert_desc_perm].
Qed.

Lemma insert_desc_sorted x l : Sorted Z.ge l -> Sorted Z.ge (insert_desc x l).
Proof.
  induction l as [|y l IH]; simpl; intros Hs.
  - repeat constructor.
  - destruct (Z.ltb_spec y x) as [Hlt|Hge].
    + constructor; [exact Hs | constructor; lia].
    + inversion Hs as [|? ? Hs' Hhd]; subst.
      constructor; [apply IH, Hs'|].
      destruct l as [|z l]; simpl.
      * constructor. lia.
      * destruct (z <? x)%Z; constructor; [lia | inversion Hhd; assumption].
Qed.

Lemma sorted_desc_sorted l : Sorted Z.ge (sorted_desc l).
Proof.
  induction l as [|x l IH]; simpl; [constructor | apply insert_desc_sorted, IH].
Qed.

Lemma write_map_seq (f : nat -> list Z) (n k : nat) (w : Z) :
  k < n ->
  write (map f (seq 0 n)) k (f k ++ [w]) =
  map (fun u => f u ++ (if (Z.of_nat k =? Z.of_nat u)%Z then [w] else [])) (seq 0 n).
Proof.
  intros Hk. apply (nth_ext _ _ [] []).
  - rewrite write_length, !length_map. reflexivity.
  - intros u Hu. rewrite write_length, length_map, length_seq in Hu.
    rewrite (nth_map_seq _ [] n u Hu).
    destruct (Nat.eq_dec k u) as [->|Hne].
    + rewrite Z.eqb_refl. apply read_write_same. rewrite length_map, length_seq. exact Hu.
    + replace (Z.of_nat k =? Z.of_nat u)%Z with false by (symmetry; apply Z.eqb_neq; lia).
      rewrite app_nil_r.
      change (nth u (write (map f (seq 0 n)) k (f k ++ [w])) []) with
        (read (write (map f (seq 0 n)) k (f k ++ [w])) u).
      rewrite read_write_other by exact Hne. apply nth_map_seq, Hu.
Qed.

Lemma append_at_in_range (f : nat -> list Z) (n : nat) (i w : Z) :
  (0 <= i < Z.of_nat n)%Z ->
  append_at (map f (seq 0 n)) i w =
  Returned (map (fun u => f u ++ (if (i =? Z.of_nat u)%Z then [w] else [])) (seq 0 n)).
Proof.
  intros Hi. unfold append_at, py_position. rewrite length_map, length_seq.
  replace ((0 <=? i)%Z && (i <? Z.of_nat n)%Z) with true
    by (symmetry; apply andb_true_iff; split; [apply Z.leb_le | apply Z.ltb_lt]; lia).
  cbn [bind]. unfold read. rewrite nth_map_seq by lia.
  rewrite write_map_seq by lia. rewrite Z2Nat.id by lia. reflexivity.
Qed.

(** Every endpoint of every edge is one of the nodes [0 .. n-1]. *)
Definition endpoints_below (n : nat) (edge_list : list (Z * Z * Z)) : Prop :=
  Forall (fun edge => (0 <= fst (fst edge) < Z.of_nat n)%Z /\
                      (0 <= snd (fst edge) < Z.of_nat n)%Z) edge_list.

Lemma neighbor_loop n edge_list :
  endpoints_below n edge_list ->
  for_each edge_list
    (fun edge neighbor =>
       neighbor <- append_at neighbor (fst (fst edge)) (snd edge) ;;
       append_at neighbor (snd (fst edge)) (snd edge))
    (repeat [] n) =
  Returned (map (incident edge_list) (seq 0 n)).
Proof.
  intros Hb.
  destruct (for_each_invariant
              (fun edge neighbor =>
                 neighbor <- append_at neighbor (fst (fst edge)) (snd edge) ;;
                 append_at neighbor (snd (fst edge)) (snd edge))
              (fun done neighbor => neighbor = map (incident done) (seq 0 n))
              edge_list (repeat [] n)) as (nb & E & Hnb).
  - intros done edge rest nb Hsplit ->.
    assert (Hin : In edge edge_list) by (rewrite Hsplit; apply in_elt).
    unfold endpoints_below in Hb. rewrite Forall_forall in Hb.
    destruct (Hb edge Hin) as [Ha Hb'].
    rewrite append_at_in_range by exact Ha. cbn [bind].
    rewrite append_at_in_range by exact Hb'.
    eexists. split; [reflexivity|].
    apply map_ext. intros u. unfold incident. rewrite flat_map_app. simpl.
    rewrite app_nil_r, app_assoc. reflexivity.
  - symmetry. apply seq_map_const_nil.
  - rewrite E, Hnb. reflexivity.
Qed.


(** X6.  When every endpoint of every edge is one of [0 .. n-1],
    [get_neighbor_edges G n] returns [n] profiles, and the profile of node [u]
    holds the weights of the edges at [u] (a missing weight counts as 1, a
    self-loop twice) in descending order. *)
Theorem get_neighbor_edges_profiles (G : Nx.graph Z) (n : nat) :
  endpoints_below n (edges_data G 1) ->
  exists neighbor,
    get_neighbor_edges G n = Returned neighbor /\
    length neighbor = n /\
    forall u, u < n ->
      Sorted Z.ge (nth u neighbor []) /\
      Permutation (nth u neighbor []) (incident (edges_data G 1) u).
Proof.
  intros Hb. unfold get_neighbor_edges. rewrite (neighbor_loop n _ Hb). cbn [bind].
  eexists. split; [reflexivity | split].
  - rewrite !length_map, length_seq. reflexivity.
  - intros u Hu. rewrite map_map, nth_map_seq by exact Hu.
    split; [apply sorted_desc_sorted | apply Permutation_sym, sorted_desc_perm].
Qed.

Lemma get_neighbor_edges_profiles_witness :
  endpoints_below 3 (edges_data three_nodes 1) /\
  get_neighbor_edges three_nodes 3 =
    Returned [[5%Z; 2%Z]; [3%Z; 2%Z]; [5%Z; 3%Z]].
Proof.
  assert (Hb : endpoints_below 3 (edges_data three_nodes 1))
    by (repeat (apply Forall_cons; [simpl; lia|]); apply Forall_nil).
  split; [exact Hb|].
  destruct (get_neighbor_edges_profiles three_nodes 3 Hb) as (nb & E & _).
  rewrite E. vm_compute in E. symmetry. exact E.
Defined.

Lemma py_position_bound n i k : py_position n i = Returned k -> k < n.
Proof.
  unfold py_position.
  destruct ((0 <=? i)%Z && (i <? Z.of_nat n)%Z) eqn:E1.
  - apply andb_true_iff in E1. destruct E1 as [H1 H2].
    apply Z.leb_le in H1. apply Z.ltb_lt in H2. intros E. injection E as <-. lia.
  - destruct ((- Z.of_nat n <=? i)%Z && (i <? 0)%Z) eqn:E2; [|discriminate].
    apply andb_true_iff in E2. destruct E2 as [H1 H2].
    apply Z.leb_le in H1. apply Z.ltb_lt in H2. intros E. injection E as <-. lia.
Qed.

Lemma py_position_outside n i :
  (i < - Z.of_nat n \/ Z.of_nat n <= i)%Z -> py_position n i = Raised IndexError.
Proof.
  intros H. unfold py_position.
  replace ((0 <=? i)%Z && (i <? Z.of_nat n)%Z) with false.
  - replace ((- Z.of_nat n <=? i)%Z && (i <? 0)%Z) with false; [reflexivity|].
    symmetry. apply andb_false_iff. destruct H; [left; apply Z.leb_gt | right; apply Z.ltb_ge]; lia.
  - symmetry. apply andb_false_iff. destruct H; [left; apply Z.leb_gt | right; apply Z.ltb_ge]; lia.
Qed.

Lemma append_at_outcome neighbor i w :
  (exists neighbor', append_at neighbor i w = Returned neighbor' /\
                     length neighbor' = length neighbor) \/
  append_at neighbor i w = Raised IndexError.
Proof.
  unfold append_at, py_position.
  destruct ((0 <=? i)%Z && (i <? Z.of_nat (length neighbor))%Z).
  - left. eexists. split; [reflexivity | apply write_length].
  - destruct ((- Z.of_nat (length neighbor) <=? i)%Z && (i <? 0)%Z).
    + left. eexists. split; [reflexivity | apply write_length].
    + right. reflexivity.
Qed.

(** An endpoint of some edge is no index of a list of length [n]. *)
Definition endpoint_outside (n : nat) (edge : Z * Z * Z) : Prop :=
  (fst (fst edge) < - Z.of_nat n \/ Z.of_nat n <= fst (fst edge))%Z \/
  (snd (fst edge) < - Z.of_nat n \/ Z.of_nat n <= snd (fst edge))%Z.

Lemma neighbor_loop_index_error edge_list : forall neighbor,
  Exists (endpoint_outside (length neighbor)) edge_list ->
  for_each edge_list
    (fun edge neighbor =>
       neighbor <- append_at neighbor (fst (fst edge)) (snd edge) ;;
       append_at neighbor (snd (fst edge)) (snd edge))
    neighbor = Raised IndexError.
Proof.
  induction edge_list as [|edge rest IH]; intros neighbor Hex.
  - inversion Hex.
  - cbn [for_each].
    destruct (append_at_outcome neighbor (fst (fst edge)) (snd edge))
      as [(nb1 & E1 & L1)| E1]; rewrite E1; cbn [bind]; [|reflexivity].
    destruct (append_at_outcome nb1 (snd (fst edge)) (snd edge))
      as [(nb2 & E2 & L2)| E2]; rewrite E2; [|reflexivity].
    inversion Hex as [? ? Hout|? ? Hrest]; subst.
    + exfalso. destruct Hout as [Hout|Hout].
      * unfold append_at in E1. rewrite (py_position_outside _ _ Hout) in E1. discriminate.
      * unfold append_at in E2. rewrite L1, (py_position_outside _ _ Hout) in E2. discriminate.
    + apply IH. rewrite L2, L1. exact Hrest.
Qed.

(** X7.  When some edge has an endpoint that is no index of a list of length
    [n] (it is at least [n], or below [-n]), [get_neighbor_edges G n] raises
    [IndexError]. *)
Theorem get_neighbor_edges_index_error (G : Nx.graph Z) (n : nat) :
  Exists (endpoint_outside n) (edges_data G 1) ->
  get_neighbor_edges G n = Raised IndexError.
Proof.
  intros Hex. unfold get_neighbor_edges.
  rewrite neighbor_loop_index_error; [reflexivity|].
  rewrite repeat_length. exact Hex.
Qed.

Lemma get_neighbor_edges_index_error_witness :
  Exists (endpoint_outside 2) (edges_data three_nodes 1) /\
  get_neighbor_edges three_nodes 2 = Raised IndexError.
Proof.
  assert (Hex : Exists (endpoint_outside 2) (edges_data three_nodes 1)).
  { apply Exists_cons_tl, Exists_cons_hd. right. right. simpl. lia. }
  split; [exact Hex | exact (get_neighbor_edges_index_error _ 2 Hex)].
Defined.


Lemma sorted_ge_head x l : Sorted Z.ge (x :: l) -> forall y, In y l -> (x >= y)%Z.
Proof.
  intros Hs. apply Sorted_StronglySorted in Hs; [|intros a b c Hab Hbc; lia].
  inversion Hs as [|? ? _ Hall]; subst. rewrite Forall_forall in Hall. exact Hall.
Qed.

Lemma sorted_ge_unique l : forall l',
  Sorted Z.ge l -> Sorted Z.ge l' -> Permutation l l' -> l = l'.
Proof.
  induction l as [|x l IH]; intros l' Hs Hs' Hp.
  - apply Permutation_nil in Hp. symmetry. exact Hp.
  - destruct l' as [|y l'].
    + apply Permutation_sym, Permutation_nil in Hp. discriminate.
    + assert (Hxy : x = y).
      { assert (Hy : In y (x :: l)) by (eapply Permutation_in; [apply Permutation_sym, Hp | left; reflexivity]).
        assert (Hx : In x (y :: l')) by (eapply Permutation_in; [exact Hp | left; reflexivity]).
        destruct Hy as [Hy|Hy]; [exact Hy|].
        destruct Hx as [Hx|Hx]; [symmetry; exact Hx|].
        pose proof (sorted_ge_head x l Hs y Hy).
        pose proof (sorted_ge_head y l' Hs' x Hx). lia. }
      subst y. f_equal. apply IH.
      * inversion Hs; assumption.
      * inversion Hs'; assumption.
      * eapply Permutation_cons_inv; exact Hp.
Qed.

Lemma sorted_desc_of_perm l l' : Permutation l l' -> sorted_desc l = sorted_desc l'.
Proof.
  intros Hp. apply sorted_ge_unique; try apply sorted_desc_sorted.
  eapply perm_trans; [apply Permutation_sym, sorted_desc_perm|].
  eapply perm_trans; [exact Hp | apply sorted_desc_perm].
Qed.

(** X8.  The profiles do not depend on the order in which the graph reports
    its edges: two graphs with the same edges in a different order get the
    same result. *)
Theorem get_neighbor_edges_order_irrelevant (G G' : Nx.graph Z) (n : nat) :
  Permutation (Nx.edges G) (Nx.edges G') ->
  endpoints_below n (edges_data G 1) ->
  get_neighbor_edges G n = get_neighbor_edges G' n.
Proof.
  intros Hp Hb.
  assert (Hp' : Permutation (edges_data G 1) (edges_data G' 1)).
  { unfold edges_data. apply Permutation_map, Hp. }
  assert (Hb' : endpoints_below n (edges_data G' 1)).
  { unfold endpoints_below in *. rewrite Forall_forall in *. intros e He.
    apply Hb. eapply Permutation_in; [apply Permutation_sym, Hp' | exact He]. }
  unfold get_neighbor_edges. rewrite (neighbor_loop n _ Hb), (neighbor_loop n _ Hb').
  cbn [bind]. f_equal. rewrite !map_map. apply map_ext. intros u.
  apply sorted_desc_of_perm. unfold incident. apply Permutation_flat_map, Hp'.
Qed.

Lemma get_neighbor_edges_order_irrelevant_witness :
  get_neighbor_edges three_nodes 3 =
  get_neighbor_edges
    (Nx.Graph [0%Z; 1%Z; 2%Z]
       [(0%Z, 2%Z, Some 5%Z); (0%Z, 1%Z, Some 2%Z); (1%Z, 2%Z, Some 3%Z)]) 3.
Proof.
  apply get_neighbor_edges_order_irrelevant.
  - unfold three_nodes. cbn [Nx.edges].
    apply Permutation_sym. apply (Permutation_cons_app [_; _] []). apply Permutation_refl.
  - repeat (apply Forall_cons; [simpl; lia|]); apply Forall_nil.
Defined.

Lemma py_item_nth {A : Type} (l : list A) (i : nat) (d : A) :
  i < length l -> py_item l i = Returned (nth i l d).
Proof.
  intros H. unfold py_item. rewrite (nth_error_nth' l d H). reflexivity.
Qed.

Lemma py_item_outside {A : Type} (l : list A) (i : nat) :
  length l <= i -> py_item l i = Raised IndexError.
Proof.
  intros H. unfold py_item. apply nth_error_None in H. rewrite H. reflexivity.
Qed.

Lemma best_neighbors_mutual (cnl1 cnl2 : list (nat * nat)) :
  (forall p, In p cnl1 -> snd p < length cnl2) ->
  exists best,
    best_neighbors cnl1 cnl2 = Returned best /\
    best = filter (fun p => Nat.eqb (fst p) (snd (nth (snd p) cnl2 (0, 0)))) cnl1.
Proof.
  intros Hr. unfold best_neighbors.
  destruct (for_each_invariant
              (fun i best_neighbor_list =>
                 p <- py_item cnl1 i ;;
                 q <- py_item cnl2 (snd p) ;;
                 if Nat.eqb (fst p) (snd q)
                 then Returned (best_neighbor_list ++ [(fst p, snd p)])
                 else Returned best_neighbor_list)
              (fun done best =>
                 best = filter (fun p => Nat.eqb (fst p) (snd (nth (snd p) cnl2 (0, 0))))
                          (map (fun i => nth i cnl1 (0, 0)) done))
              (seq 0 (length cnl1)) []) as (best & E & Hb).
  - intros done i rest best Hsplit ->.
    pose proof (seq_split_lt _ _ _ _ Hsplit) as Hi.
    rewrite (py_item_nth cnl1 i (0, 0) Hi). cbn [bind].
    assert (Hin : In (nth i cnl1 (0, 0)) cnl1) by (apply nth_In, Hi).
    rewrite (py_item_nth cnl2 _ (0, 0) (Hr _ Hin)). cbn [bind].
    rewrite map_app, filter_app. cbn [map filter].
    destruct (nth i cnl1 (0, 0)) as [x k]. cbn [fst snd].
    destruct (Nat.eqb x (snd (nth k cnl2 (0, 0)))); eexists; split; try reflexivity.
    rewrite app_nil_r. reflexivity.
  - reflexivity.
  - exists best. split; [exact E|]. rewrite Hb. f_equal.
    symmetry. apply list_as_map_nth_seq.
Qed.


(** Position [k] of [nl2] holds the first profile nearest to the one at
    position [x] of [nl1]. *)
Definition nearest (st : store) (nl1 nl2 : list addr) (x k : nat) : Prop :=
  x < length nl1 /\ first_min (sq_row st (nth x nl1 0) nl2) k.

Lemma matched_In st nl2 nl1 res x k :
  matched st nl2 nl1 res -> (In (x, k) res <-> nearest st nl1 nl2 x k).
Proof.
  intros [L H]. split.
  - intros Hin. destruct (In_nth _ _ (0, 0) Hin) as (i & Hi & Hp).
    rewrite L in Hi. destruct (H i Hi) as (k' & Hk' & Hf).
    rewrite Hp in Hk'. injection Hk' as -> ->. split; assumption.
  - intros [Hx Hf]. destruct (H x Hx) as (k' & Hk' & Hf').
    rewrite (first_min_unique _ _ _ Hf Hf'). rewrite <- Hk'.
    apply nth_In. rewrite L. exact Hx.
Qed.

(** X9.  Lines 135-141 of the script never raise on valid, non-empty profile
    lists, and, with squared distances below 2^52 (where float64 compares
    distances exactly), the mutual list holds exactly the pairs [(x, k)] such
    that [k] is the first nearest profile of [x] and [x] is the first nearest
    profile of [k]. *)
Theorem mutual_neighbors_reciprocal (neighbor1 neighbor2 : list addr) (st : store) :
  valid st neighbor1 -> valid st neighbor2 -> neighbor1 <> [] -> neighbor2 <> [] ->
  small_distances st neighbor1 neighbor2 ->
  exists best st',
    mutual_neighbors neighbor1 neighbor2 st = Returned (best, st') /\
    extends st st' /\
    forall x k, In (x, k) best <->
      nearest st neighbor1 neighbor2 x k /\ nearest st neighbor2 neighbor1 k x.
Proof.
  intros H1 H2 Hne1 Hne2 Hsm. unfold mutual_neighbors.
  destruct (closest_node_spec neighbor1 neighbor2 st H1 H2 Hne2 Hsm)
    as (cnl1 & st1 & E1 & Hx1 & Hm1).
  destruct (closest_node_spec neighbor2 neighbor1 st1 (valid_extends _ _ _ Hx1 H2)
              (valid_extends _ _ _ Hx1 H1) Hne1
              (small_distances_sym _ _ _ (small_distances_extends _ _ _ _ Hx1 Hsm)))
    as (cnl2 & st2 & E2 & Hx2 & Hm2).
  apply (matched_extends st st1 _ _ _ Hx1) in Hm2.
  rewrite E1. cbn [bind]. rewrite E2. cbn [bind].
  assert (Hr : forall p, In p cnl1 -> snd p < length cnl2).
  { intros [x k] Hin. apply (matched_In _ _ _ _ _ _ Hm1) in Hin.
    destruct Hin as [_ [Hk _]]. rewrite sq_row_length in Hk.
    destruct Hm2 as [L2 _]. rewrite L2. exact Hk. }
  destruct (best_neighbors_mutual cnl1 cnl2 Hr) as (best & Eb & Hb).
  rewrite Eb. cbn [bind]. exists best, st2.
  split; [reflexivity|]. split; [eapply extends_trans; eassumption|].
  intros x k. rewrite Hb, filter_In. cbn [fst snd].
  rewrite (matched_In _ _ _ _ x k Hm1). split.
  - intros [Hn Heq]. split; [exact Hn|].
    destruct Hn as [Hx [Hk _]]. rewrite sq_row_length in Hk.
    destruct Hm2 as [L2 H2']. destruct (H2' k Hk) as (x' & Hp & Hf).
    rewrite Hp in Heq. cbn [snd] in Heq. apply Nat.eqb_eq in Heq. subst x'.
    split; assumption.
  - intros [Hn [Hk Hf]]. split; [exact Hn|].
    destruct Hm2 as [L2 H2']. destruct (H2' k Hk) as (x' & Hp & Hf').
    rewrite Hp. cbn [snd]. apply Nat.eqb_eq. exact (first_min_unique _ _ _ Hf Hf').
Qed.

(** *** Every edge is counted at both of its ends *)

Lemma list_sum_map_add {A : Type} (f g : A -> nat) (l : list A) :
  list_sum (map (fun x => f x + g x) l) = list_sum (map f l) + list_sum (map g l).
Proof.
  induction l as [|x l IH]; simpl; [reflexivity | rewrite IH; lia].
Qed.

Lemma indicator_sum (a w : Z) (n : nat) : forall s,
  list_sum (map (fun u => length (if (a =? Z.of_nat u)%Z then [w] else [])) (seq s n)) =
  if ((Z.of_nat s <=? a) && (a <? Z.of_nat (s + n)))%Z then 1 else 0.
Proof.
  induction n as [|n IH]; intros s; cbn [seq map list_sum fold_right].
  - destruct (Z.leb_spec (Z.of_nat s) a); destruct (Z.ltb_spec a (Z.of_nat (s + 0)));
      simpl; try reflexivity; lia.
  - change (fold_right Nat.add 0 ?l) with (list_sum l). rewrite IH.
    destruct (Z.eqb_spec a (Z.of_nat s));
      destruct (Z.leb_spec (Z.of_nat (S s)) a);
      destruct (Z.ltb_spec a (Z.of_nat (S s + n)));
      destruct (Z.leb_spec (Z.of_nat s) a);
      destruct (Z.ltb_spec a (Z.of_nat (s + S n)));
      simpl; try reflexivity; lia.
Qed.

Lemma incident_total n edge_list :
  endpoints_below n edge_list ->
  length (concat (map (incident edge_list) (seq 0 n))) = 2 * length edge_list.
Proof.
  intros Hb. rewrite length_concat, map_map.
  induction edge_list as [|edge rest IH].
  - simpl. induction (seq 0 n) as [|u l IHl]; [reflexivity | exact IHl].
  - inversion Hb as [|? ? [Ha Hb'] Hrest]; subst.
    rewrite (map_ext _ (fun u =>
               (length (if (fst (fst edge) =? Z.of_nat u)%Z then [snd edge] else []) +
                length (if (snd (fst edge) =? Z.of_nat u)%Z then [snd edge] else [])) +
               length (incident rest u))).
    + rewrite list_sum_map_add, list_sum_map_add, !indicator_sum, (IH Hrest).
      replace ((Z.of_nat 0 <=? fst (fst edge)) && (fst (fst edge) <? Z.of_nat (0 + n)))%Z
        with true
        by (symmetry; apply andb_true_iff; split; [apply Z.leb_le | apply Z.ltb_lt]; lia).
      replace ((Z.of_nat 0 <=? snd (fst edge)) && (snd (fst edge) <? Z.of_nat (0 + n)))%Z
        with true
        by (symmetry; apply andb_true_iff; split; [apply Z.leb_le | apply Z.ltb_lt]; lia).
      simpl. lia.
    + intros u. unfold incident. cbn [flat_map]. rewrite !length_app. reflexivity.
Qed.

Lemma sorted_desc_total (l : list (list Z)) :
  length (concat (map sorted_desc l)) = length (concat l).
Proof.
  induction l as [|x l IH]; [reflexivity|].
  cbn [map concat]. rewrite !length_app, IH.
  rewrite <- (Permutation_length (sorted_desc_perm x)). reflexivity.
Qed.

End Nearest.

Lemma closest_node_first_nearest_witness :
  valid [[3%Z; 1%Z]; [2%Z]; [4%Z]] [0; 1] /\ valid [[3%Z; 1%Z]; [2%Z]; [4%Z]] [2; 1] /\
  exists res st',
    closest_node [0; 1] [2; 1] [[3%Z; 1%Z]; [2%Z]; [4%Z]] = Returned (res, st') /\
    length res = 2.
Proof.
  assert (H1 : valid [[3%Z; 1%Z]; [2%Z]; [4%Z]] [0; 1]) by (repeat constructor).
  assert (H2 : valid [[3%Z; 1%Z]; [2%Z]; [4%Z]] [2; 1]) by (repeat constructor).
  split; [exact H1 | split; [exact H2|]].
  destruct (closest_node_first_nearest [0; 1] [2; 1] _ H1 H2 ltac:(discriminate))
    as (res & st' & E & Hl & _).
  { intros i j [<-|[<-|[]]] [<-|[<-|[]]]; vm_compute; split; congruence. }
  exists res, st'. split; assumption.
Defined.

Lemma closest_node_after_bipartite_witness :
  exists res st' st2,
    closest_node [0] [1] [[3%Z]; [3%Z; 1%Z]] = Returned (res, st') /\
    closest_node [0] [1] [[3%Z; 0%Z]; [3%Z; 1%Z]] = Returned (res, st2).
Proof.
  apply (closest_node_after_bipartite [0] [1] [[3%Z]; [3%Z; 1%Z]] _
           (Nx.Graph [1%Z; (-1)%Z] [(1%Z, (-1)%Z, Some (Similarity (Root 1)))]));
    [repeat constructor | repeat constructor | discriminate | vm_compute; reflexivity].
Defined.

Lemma mutual_neighbors_reciprocal_witness :
  exists best st',
    mutual_neighbors [0; 1] [2; 3] [[3%Z; 1%Z]; [2%Z]; [4%Z]; [2%Z; 0%Z; 0%Z]] =
      Returned (best, st') /\
    extends [[3%Z; 1%Z]; [2%Z]; [4%Z]; [2%Z; 0%Z; 0%Z]] st'.
Proof.
  destruct (mutual_neighbors_reciprocal [0; 1] [2; 3]
              [[3%Z; 1%Z]; [2%Z]; [4%Z]; [2%Z; 0%Z; 0%Z]])
    as (best & st' & E & Hx & _).
  - repeat (apply Forall_cons; [simpl; lia|]); apply Forall_nil.
  - repeat (apply Forall_cons; [simpl; lia|]); apply Forall_nil.
  - discriminate.
  - discriminate.
  - intros i j [<-|[<-|[]]] [<-|[<-|[]]]; vm_compute; split; congruence.
  - exists best, st'. split; assumption.
Defined.

End GoodNeighbors.

(* ================================================================== *)
(** * closest_nodes/shortest_path_dist.py *)
(* ================================================================== *)

Module ShortestPathDist.

Import Scipy.
#[local] Open Scope py_scope.
#[local] Open Scope Z_scope.

Definition wgraph := Nx.graph Z.

(** ** Random choices

    The random source is the sequence of the numbers it will draw: the
    [t]-th call of [random.choice] on a sequence of length [n] returns the
    entry at index [r t mod n], and raises [IndexError] on an empty one. *)
Definition rng := nat -> nat.

Definition choice {A : Type} (r : rng) (t : nat) (l : list A) : outcome A :=
  match l with
  | [] => Raised IndexError
  | d :: _ => Returned (nth (r t mod length l)%nat l d)
  end.

Definition pair_eqb (p q : Z * Z) : bool :=
  (fst p =? fst q) && (snd p =? snd q).

(** [while source_pair == sink_pair: sink_pair = random.choice(best_fit)],
    lines 131-132, run for at most [fuel] iterations; [None] when the loop is
    still running after them.  [t] counts the draws made so far. *)
Fixpoint resample (fuel : nat) (r : rng) (t : nat) (best_fit : list (Z * Z))
    (source_pair sink_pair : Z * Z) : option (outcome (Z * Z)) :=
  if pair_eqb source_pair sink_pair then
    match fuel with
    | O => None
    | S fuel' =>
        match choice r t best_fit with
        | Returned sink_pair' =>
            resample fuel' r (S t) best_fit source_pair sink_pair'
        | Raised e => Some (Raised e)
        end
    end
  else Some (Returned sink_pair).

(** Lines 138-149: the node of G1 and the node of G2 a matched pair stands
    for. *)
Definition decode (p : Z * Z) : Z * Z :=
  if fst p >? 0 then (fst p - 1, - snd p - 1) else (snd p - 1, - fst p - 1).

(** ** The draining loop *)

Record state : Type := State {
  G1 : wgraph;
  G2 : wgraph;
  G1_weight_list : list Z;
  G2_weight_list : list Z;
  printed : list String.string
}.

(** Lines 163-166: along the path [s], read each edge's weight and remove
    the edge. *)
Fixpoint take_path (g : wgraph) (s : list Z) (w : list Z)
    : outcome (wgraph * list Z) :=
  match s with
  | [] => Returned (g, w)
  | u :: s' =>
      match s' with
      | [] => Returned (g, w)
      | v :: _ =>
          x <- Nx.get_weight g u v ;;
          g' <- Nx.remove_edge g u v ;;
          take_path g' s' (w ++ [x])
      end
  end.

(** [sum(w)]. *)
Definition py_sum (w : list Z) : Z := fold_left Z.add w 0.

(** One iteration of the loop, lines 157-186: the new state, and whether
    the loop goes on ([false] after a [break]). *)
Definition drain_step {search : Nx.Search Z}
    (G1_source G1_sink G2_source G2_sink : Z) (st : state)
    : outcome (state * bool) :=
  has_path1 <- Nx.has_path (G1 st) G1_source G1_sink ;;
  has_path2 <- Nx.has_path (G2 st) G2_source G2_sink ;;
  if has_path1 && has_path2 then
    s1 <- Nx.shortest_path (G1 st) G1_source G1_sink ;;
    ' (g1, w1) <- take_path (G1 st) s1 [] ;;
    let l1 := G1_weight_list st ++ [py_sum w1] in
    s2 <- Nx.shortest_path (G2 st) G2_source G2_sink ;;
    ' (g2, w2) <- take_path (G2 st) s2 [] ;;
    let l2 := G2_weight_list st ++ [py_sum w2] in
    Returned (State g1 g2 l1 l2 (printed st), true)
  else if negb has_path1 && has_path2 then
    Returned (State (G1 st) (G2 st) (G1_weight_list st) (G2_weight_list st)
                (printed st ++ [Text.graph1_exhausted]), false)
  else if has_path1 && negb has_path2 then
    Returned (State (G1 st) (G2 st) (G1_weight_list st) (G2_weight_list st)
                (printed st ++ [Text.graph2_exhausted]), false)
  else Returned (st, false).

(** [for i in range(n)] around the body, leaving at the first [break]. *)
Fixpoint drain_loop {search : Nx.Search Z} (n : nat)
    (G1_source G1_sink G2_source G2_sink : Z) (st : state) : outcome state :=
  match n with
  | O => Returned st
  | S n' =>
      ' (st', continue) <- drain_step G1_source G1_sink G2_source G2_sink st ;;
      if (continue : bool)
      then drain_loop n' G1_source G1_sink G2_source G2_sink st'
      else Returned st'
  end.

(** Lines 134-188, after the two pairs are chosen. *)
Definition drain {search : Nx.Search Z} (G1 G2 : wgraph) (best_fit : list (Z * Z))
    (source_pair sink_pair : Z * Z) : outcome (root * state) :=
  let '(G1_source, G2_source) := decode source_pair in
  let '(G1_sink, G2_sink) := decode sink_pair in
  let iter := (length best_fit ^ 2)%nat in
  st <- drain_loop iter G1_source G1_sink G2_source G2_sink
          (State G1 G2 [] [] []) ;;
  d <- euclidean (G1_weight_list st) (G2_weight_list st) ;;
  Returned (d, st).

(** [shortest_path_dist(G1, G2, best_fit)], lines 123-188: the distance it
    returns, with the graphs as it leaves them, the two weight lists and what
    it printed.  [None]: the resampling loop is still running after [fuel]
    iterations. *)
Definition shortest_path_dist {search : Nx.Search Z} (fuel : nat) (r : rng)
    (G1 G2 : wgraph) (best_fit : list (Z * Z)) : option (outcome (root * state)) :=
  match choice r 0 best_fit with
  | Raised e => Some (Raised e)
  | Returned source_pair =>
      match choice r 1 best_fit with
      | Raised e => Some (Raised e)
      | Returned sink_pair =>
          match resample fuel r 2 best_fit source_pair sink_pair with
          | None => None
          | Some (Raised e) => Some (Raised e)
          | Some (Returned sink_pair) =>
              Some (drain G1 G2 best_fit source_pair sink_pair)
          end
      end
  end.

(** ** Properties of [shortest_path_dist.py] *)

Import Nx.

(** Modelled from the spec: the edge [e] runs between the two nodes of
    [uv], in either direction. *)
Definition between (uv : Z * Z) (e : Z * Z * option Z) : Prop :=
  (fst (fst e) = fst uv /\ snd (fst e) = snd uv) \/
  (fst (fst e) = snd uv /\ snd (fst e) = fst uv).

(** Modelled from the spec: [w] is the weight of an edge of [g] between the
    two nodes of [uv]. *)
Definition has_weight (g : wgraph) (uv : Z * Z) (w : Z) : Prop :=
  exists e, In e (edges g) /\ between uv e /\ snd e = Some w.

(** Modelled from the spec: [x] is the sum of the weights of the edges
    along the path [p] of [g], one weight for each step of the path. *)
Definition weight_sum (g : wgraph) (p : list Z) (x : Z) : Prop :=
  exists ws, Forall2 (has_weight g) (steps p) ws /\ x = fold_right Z.add 0 ws.

(** Modelled from the spec: [g'] is [g] without exactly the edges of the
    path [p]: the same nodes, and the edges of [g] that run along no step of
    [p]. *)
Definition without_path (g g' : wgraph) (p : list Z) : Prop :=
  nodes g' = nodes g /\
  forall e, In e (edges g') <->
            In e (edges g) /\ forall uv, In uv (steps p) -> ~ between uv e.

Section Draining.

Context {search : Search Z}.

Lemma remove_path_short (g : wgraph) p : (length p <= 1)%nat -> remove_path g p = g.
Proof.
  intros H. unfold remove_path.
  assert (Hs : steps p = []) by (destruct p as [|a [|b p]]; simpl in *; try reflexivity; lia).
  unfold on_path. rewrite Hs. simpl. rewrite filter_all. destruct g; reflexivity.
Qed.

Lemma path_weights_short (g : wgraph) p : (length p <= 1)%nat -> path_weights g p = [].
Proof.
  intros H. unfold path_weights.
  destruct p as [|a [|b p]]; simpl in *; try reflexivity; lia.
Qed.

Lemma take_path_cons (g : wgraph) u v p w :
  take_path g (u :: v :: p) w =
  (x <- get_weight g u v ;;
   g' <- remove_edge g u v ;;
   take_path g' (v :: p) (w ++ [x])).
Proof. reflexivity. Qed.

Lemma take_path_simple p : forall (g : wgraph) w,
  weighted g -> walk g p -> NoDup p ->
  take_path g p w = Returned (remove_path g p, w ++ path_weights g p).
Proof.
  induction p as [|u p IH]; intros g w Hw Hwalk Hnd.
  - simpl. rewrite remove_path_short, app_nil_r by (simpl; lia). reflexivity.
  - destruct p as [|v p].
    + simpl. rewrite remove_path_short, app_nil_r by (simpl; lia). reflexivity.
    + destruct Hwalk as [Hadj Hwalk]. inversion Hnd as [|? ? Hu Hnd']; subst.
      rewrite take_path_cons.
      apply adjacent_joins in Hadj. destruct Hadj as (e & He & Hj).
      assert (Hx : exists x, get_weight g u v = Returned x).
      { unfold get_weight. destruct (find (joins u v) (edges g)) as [[[a b] o]|] eqn:Ef.
        - apply find_some in Ef. destruct Ef as [Hin _].
          specialize (Hw _ Hin). simpl in Hw. destruct o as [x|]; [|contradiction].
          exists x. reflexivity.
        - rewrite (find_none _ _ Ef e He) in Hj. discriminate. }
      destruct Hx as [x Ex]. rewrite Ex. cbn [bind].
      assert (Hh : has_edge g u v = true) by (apply has_edge_In; exists e; auto).
      unfold remove_edge. rewrite Hh. cbn [bind].
      set (g1 := Graph (nodes g) (filter (fun e => negb (joins u v e)) (edges g))).
      assert (Hkeep : forall a b (e' : Z * Z * option Z), In (a, b) (steps (v :: p)) ->
                joins a b e' = true -> negb (joins u v e') = true).
      { intros a b e' Hab Hj'. apply steps_in in Hab. destruct Hab as [Ha Hb].
        rewrite (joins_disjoint u v a b e'); [reflexivity | | | exact Hj'];
          intros ->; contradiction. }
      assert (Hrem : remove_path g1 (v :: p) = remove_path g (u :: v :: p)).
      { unfold remove_path, g1. cbn [nodes edges]. rewrite filter_filter.
        f_equal. apply filter_ext. intros e'. unfold on_path.
        change (steps (u :: v :: p)) with ((u, v) :: steps (v :: p)).
        cbn [existsb fst snd]. rewrite negb_orb. reflexivity. }
      assert (Hpw : path_weights g (u :: v :: p) = x :: path_weights g1 (v :: p)).
      { unfold path_weights.
        change (steps (u :: v :: p)) with ((u, v) :: steps (v :: p)).
        cbn [map]. f_equal.
        - unfold weight_of. cbn [fst snd]. rewrite Ex. reflexivity.
        - apply map_ext_in. intros [a b] Hab. unfold weight_of, get_weight, g1.
          cbn [fst snd edges]. rewrite find_filter; [reflexivity|].
          intros e' _ Hj'. exact (Hkeep a b e' Hab Hj'). }
      rewrite (IH g1 (w ++ [x])).
      * rewrite Hrem, Hpw, <- app_assoc. reflexivity.
      * apply weighted_filter, Hw.
      * apply walk_steps. apply walk_steps in Hwalk. rewrite Forall_forall in *.
        intros [a b] Hab. specialize (Hwalk _ Hab). cbn [fst snd] in *.
        apply adjacent_joins in Hwalk. destruct Hwalk as (e' & He' & Hj').
        apply adjacent_joins. exists e'. split; [|exact Hj'].
        unfold g1. cbn [edges]. apply filter_In. split; [exact He'|].
        exact (Hkeep a b e' Hab Hj').
      * exact Hnd'.
Qed.


Lemma py_sum_fold_right w : py_sum w = fold_right Z.add 0 w.
Proof.
  unfold py_sum. apply fold_symmetric; intros; lia.
Qed.

Lemma path_weights_have_weight (g : wgraph) p :
  weighted g -> walk g p -> Forall2 (has_weight g) (steps p) (path_weights g p).
Proof.
  intros Hw Hwalk. apply walk_steps in Hwalk. unfold path_weights.
  induction (steps p) as [|[u v] l IH]; [constructor|].
  inversion Hwalk as [|? ? Hadj Hrest]; subst. cbn [map].
  constructor; [|apply IH, Hrest].
  cbn [fst snd] in Hadj. apply adjacent_joins in Hadj. destruct Hadj as (e & He & Hj).
  unfold weight_of, get_weight. cbn [fst snd].
  destruct (find (joins u v) (edges g)) as [[[a b] o]|] eqn:Ef.
  - apply find_some in Ef. destruct Ef as [Hin Hjab].
    pose proof (Hw _ Hin) as Ho. cbn [snd] in Ho. destruct o as [x|]; [|contradiction].
    exists (a, b, Some x). split; [exact Hin | split; [|reflexivity]].
    apply joins_iff in Hjab. exact Hjab.
  - rewrite (find_none _ _ Ef e He) in Hj. discriminate.
Qed.

Lemma path_weights_sum (g : wgraph) p :
  weighted g -> walk g p -> weight_sum g p (py_sum (path_weights g p)).
Proof.
  intros Hw Hwalk. exists (path_weights g p).
  split; [apply path_weights_have_weight; assumption | apply py_sum_fold_right].
Qed.

Lemma remove_path_without (g : wgraph) p : without_path g (remove_path g p) p.
Proof.
  split; [reflexivity|]. intros e. unfold remove_path. cbn [edges]. rewrite filter_In.
  split; intros [He Hn]; (split; [exact He|]).
  - intros uv Huv Hb. apply negb_true_iff in Hn. unfold on_path in Hn.
    apply not_true_iff_false in Hn. apply Hn. apply existsb_exists.
    exists uv. split; [exact Huv|]. destruct e as [[a b] o]. apply joins_iff. exact Hb.
  - apply negb_true_iff, not_true_iff_false. intros Hex.
    unfold on_path in Hex. apply existsb_exists in Hex.
    destruct Hex as (uv & Huv & Hj). apply (Hn uv Huv).
    destruct e as [[a b] o]. apply joins_iff in Hj. exact Hj.
Qed.

Lemma shortest_path_returned (g : wgraph) s t p :
  shortest_path g s t = Returned p ->
  has_node g s = true /\ has_node g t = true /\
  path g s t p /\ NoDup p /\ (forall q, path g s t q -> (hops p <= hops q)%nat).
Proof.
  intros E. destruct (has_node g s) eqn:Hs; [destruct (has_node g t) eqn:Ht|].
  - pose proof (shortest_path_spec g s t Hs Ht) as H. rewrite E in H.
    split; [reflexivity | split; [reflexivity | exact H]].
  - rewrite shortest_path_missing in E by (right; exact Ht). discriminate.
  - rewrite shortest_path_missing in E by (left; exact Hs). discriminate.
Qed.

Lemma drain_step_both s1 t1 s2 t2 (st : state) p1 p2 :
  weighted (G1 st) -> weighted (G2 st) ->
  shortest_path (G1 st) s1 t1 = Returned p1 ->
  shortest_path (G2 st) s2 t2 = Returned p2 ->
  drain_step s1 t1 s2 t2 st =
  Returned (State (remove_path (G1 st) p1) (remove_path (G2 st) p2)
              (G1_weight_list st ++ [py_sum (path_weights (G1 st) p1)])
              (G2_weight_list st ++ [py_sum (path_weights (G2 st) p2)])
              (printed st), true).
Proof.
  intros Hw1 Hw2 E1 E2. unfold drain_step, has_path. rewrite E1, E2. cbn [bind andb].
  destruct (shortest_path_returned _ _ _ _ E1) as (_ & _ & (Hwalk1 & _) & Hnd1 & _).
  destruct (shortest_path_returned _ _ _ _ E2) as (_ & _ & (Hwalk2 & _) & Hnd2 & _).
  rewrite (take_path_simple p1 (G1 st) [] Hw1 Hwalk1 Hnd1). cbn [bind].
  rewrite (take_path_simple p2 (G2 st) [] Hw2 Hwalk2 Hnd2). cbn [bind].
  reflexivity.
Qed.

Lemma drain_step_lengths s1 t1 s2 t2 (st st' : state) (c : bool) :
  drain_step s1 t1 s2 t2 st = Returned (st', c) ->
  length (G1_weight_list st) = length (G2_weight_list st) ->
  length (G1_weight_list st') = length (G2_weight_list st').
Proof.
  unfold drain_step. intros E Hl.
  destruct (has_path (G1 st) s1 t1) as [[|]|e1]; cbn [bind] in E; [| |discriminate];
    (destruct (has_path (G2 st) s2 t2) as [[|]|e2]; cbn [bind andb negb] in E; [| |discriminate]).
  - destruct (shortest_path (G1 st) s1 t1) as [p1|]; cbn [bind] in E; [|discriminate].
    destruct (take_path (G1 st) p1 []) as [[g1 w1]|]; cbn [bind] in E; [|discriminate].
    destruct (shortest_path (G2 st) s2 t2) as [p2|]; cbn [bind] in E; [|discriminate].
    destruct (take_path (G2 st) p2 []) as [[g2 w2]|]; cbn [bind] in E; [|discriminate].
    injection E as <- _. cbn [G1_weight_list G2_weight_list].
    rewrite !length_app, Hl. reflexivity.
  - injection E as <- _. exact Hl.
  - injection E as <- _. exact Hl.
  - injection E as <- _. exact Hl.
Qed.

Lemma drain_loop_lengths n s1 t1 s2 t2 : forall (st st' : state),
  length (G1_weight_list st) = length (G2_weight_list st) ->
  drain_loop n s1 t1 s2 t2 st = Returned st' ->
  length (G1_weight_list st') = length (G2_weight_list st').
Proof.
  induction n as [|n IH]; intros st st' Hl E.
  - injection E as <-. exact Hl.
  - cbn [drain_loop] in E.
    destruct (drain_step s1 t1 s2 t2 st) as [[st1 c]|] eqn:Es; cbn [bind] in E; [|discriminate].
    pose proof (drain_step_lengths _ _ _ _ _ _ _ Es Hl) as Hl1.
    destruct c.
    + exact (IH st1 st' Hl1 E).
    + injection E as <-. exact Hl1.
Qed.

Lemma drain_returns G1 G2 best_fit source_pair sink_pair d (st' : state) :
  drain G1 G2 best_fit source_pair sink_pair = Returned (d, st') ->
  length (G1_weight_list st') = length (G2_weight_list st') /\
  euclidean (G1_weight_list st') (G2_weight_list st') = Returned d /\
  d = Root (sqdiff (G1_weight_list st') (G2_weight_list st')).
Proof.
  unfold drain. destruct (decode source_pair) as [a b]. destruct (decode sink_pair) as [c e].
  intros E.
  destruct (drain_loop _ a c b e (State G1 G2 [] [] [])) as [st|] eqn:El;
    cbn [bind] in E; [|discriminate].
  assert (Hl : length (G1_weight_list st) = length (G2_weight_list st)).
  { eapply drain_loop_lengths; [|exact El]. reflexivity. }
  destruct (euclidean (G1_weight_list st) (G2_weight_list st)) as [d'|] eqn:Ed;
    cbn [bind] in E; [|discriminate].
  injection E as <- <-. split; [exact Hl | split; [exact Ed|]].
  unfold euclidean in Ed. rewrite Hl, Nat.eqb_refl in Ed. injection Ed as <-. reflexivity.
Qed.

Lemma drain_runs_loop g1 g2 best_fit source_pair sink_pair d (st' : state) :
  drain g1 g2 best_fit source_pair sink_pair = Returned (d, st') ->
  drain_loop (length best_fit ^ 2)
    (fst (decode source_pair)) (fst (decode sink_pair))
    (snd (decode source_pair)) (snd (decode sink_pair))
    (State g1 g2 [] [] []) = Returned st'.
Proof.
  unfold drain. destruct (decode source_pair) as [a b]. destruct (decode sink_pair) as [c e].
  cbn [fst snd]. intros E.
  destruct (drain_loop _ a c b e (State g1 g2 [] [] [])) as [st|];
    cbn [bind] in E; [|discriminate].
  destruct (euclidean (G1_weight_list st) (G2_weight_list st)) as [d'|];
    cbn [bind] in E; [|discriminate].
  injection E as _ <-. reflexivity.
Qed.

(** C3.  In an iteration in which both graphs have a path from their
    source to their sink, [drain_step] takes in each graph the path
    [nx.shortest_path] returns, a path with the fewest edges; it appends to
    each graph's list the sum of the weights of the edges along that path
    (one edge of the graph for each step of the path) and removes exactly the
    edges of that path from that graph, and the loop goes on.  When exactly
    one graph has no such path it stops and prints which graph was exhausted,
    leaving graphs and lists as they are.  The value returned in the end is
    the Euclidean distance of the two sequences recorded by the iterations of
    the loop, started with two empty lists (the shorter one read as
    zero-padded, should the lengths differ).  This holds whichever of the
    equally short paths the search returns.  The graphs are weighted (every
    edge has a weight) and contain the four endpoints. *)
Theorem drain_step_takes_fewest_hops_paths (s1 t1 s2 t2 : Z) (st : state) :
  weighted (G1 st) -> weighted (G2 st) ->
  has_node (G1 st) s1 = true -> has_node (G1 st) t1 = true ->
  has_node (G2 st) s2 = true -> has_node (G2 st) t2 = true ->
  ((exists q1, path (G1 st) s1 t1 q1) -> (exists q2, path (G2 st) s2 t2 q2) ->
   exists p1 p2 x1 x2,
     (shortest_path (G1 st) s1 t1 = Returned p1 /\
      path (G1 st) s1 t1 p1 /\
      forall q, path (G1 st) s1 t1 q -> (hops p1 <= hops q)%nat) /\
     (shortest_path (G2 st) s2 t2 = Returned p2 /\
      path (G2 st) s2 t2 p2 /\
      forall q, path (G2 st) s2 t2 q -> (hops p2 <= hops q)%nat) /\
     weight_sum (G1 st) p1 x1 /\ weight_sum (G2 st) p2 x2 /\
     without_path (G1 st) (remove_path (G1 st) p1) p1 /\
     without_path (G2 st) (remove_path (G2 st) p2) p2 /\
     drain_step s1 t1 s2 t2 st =
       Returned (State (remove_path (G1 st) p1) (remove_path (G2 st) p2)
                   (G1_weight_list st ++ [x1])
                   (G2_weight_list st ++ [x2])
                   (printed st), true)) /\
  ((forall q, ~ path (G1 st) s1 t1 q) -> (exists q2, path (G2 st) s2 t2 q2) ->
   drain_step s1 t1 s2 t2 st =
     Returned (State (G1 st) (G2 st) (G1_weight_list st) (G2_weight_list st)
                 (printed st ++ [Text.graph1_exhausted]), false)) /\
  ((exists q1, path (G1 st) s1 t1 q1) -> (forall q, ~ path (G2 st) s2 t2 q) ->
   drain_step s1 t1 s2 t2 st =
     Returned (State (G1 st) (G2 st) (G1_weight_list st) (G2_weight_list st)
                 (printed st ++ [Text.graph2_exhausted]), false)) /\
  (forall g1 g2 best_fit source_pair sink_pair d st',
     drain g1 g2 best_fit source_pair sink_pair = Returned (d, st') ->
     drain_loop (length best_fit ^ 2)
       (fst (decode source_pair)) (fst (decode sink_pair))
       (snd (decode source_pair)) (snd (decode sink_pair))
       (State g1 g2 [] [] []) = Returned st' /\
     euclidean (G1_weight_list st') (G2_weight_list st') = Returned d /\
     d = Root (padded_sq (G1_weight_list st') (G2_weight_list st'))) /\
  (forall n a c b e st0,
     drain_loop 0 a c b e st0 = Returned st0 /\
     drain_loop (S n) a c b e st0 =
       match drain_step a c b e st0 with
       | Returned (st1, true) => drain_loop n a c b e st1
       | Returned (st1, false) => Returned st1
       | Raised x => Raised x
       end).
Proof.
  intros Hw1 Hw2 Hs1 Ht1 Hs2 Ht2.
  split; [|split; [|split; [|split]]].
  - intros [q1 Hq1] [q2 Hq2].
    pose proof (shortest_path_spec (G1 st) s1 t1 Hs1 Ht1) as H1.
    pose proof (shortest_path_spec (G2 st) s2 t2 Hs2 Ht2) as H2.
    destruct (shortest_path (G1 st) s1 t1) as [p1|e1] eqn:E1;
      [|exfalso; exact (proj2 H1 q1 Hq1)].
    destruct (shortest_path (G2 st) s2 t2) as [p2|e2] eqn:E2;
      [|exfalso; exact (proj2 H2 q2 Hq2)].
    exists p1, p2, (py_sum (path_weights (G1 st) p1)), (py_sum (path_weights (G2 st) p2)).
    destruct H1 as (Hp1 & _ & Hm1). destruct H2 as (Hp2 & _ & Hm2).
    split; [split; [reflexivity | split; assumption]|].
    split; [split; [reflexivity | split; assumption]|].
    split; [apply path_weights_sum; [exact Hw1 | exact (proj1 Hp1)]|].
    split; [apply path_weights_sum; [exact Hw2 | exact (proj1 Hp2)]|].
    split; [apply remove_path_without|]. split; [apply remove_path_without|].
    apply drain_step_both; assumption.
  - intros Hno [q2 Hq2]. unfold drain_step.
    rewrite (has_path_no_path _ _ _ Hs1 Ht1 Hno).
    rewrite (has_path_of_path _ _ _ q2 Hs2 Ht2 Hq2). reflexivity.
  - intros [q1 Hq1] Hno. unfold drain_step.
    rewrite (has_path_of_path _ _ _ q1 Hs1 Ht1 Hq1).
    rewrite (has_path_no_path _ _ _ Hs2 Ht2 Hno). reflexivity.
  - intros g1 g2 best_fit source_pair sink_pair d st' E.
    destruct (drain_returns _ _ _ _ _ _ _ E) as (Hl & Ed & Hd).
    split; [exact (drain_runs_loop _ _ _ _ _ _ _ E)|].
    split; [exact Ed|]. rewrite Hd, sqdiff_padded by exact Hl. reflexivity.
  - intros n a c b e st0. split; [reflexivity|].
    cbn [drain_loop]. destruct (drain_step a c b e st0) as [[st1 [|]]|x]; reflexivity.
Qed.

(** C10.  The draining loop keeps [G1_weight_list] and [G2_weight_list]
    equally long: whatever number of iterations has run, the two lists have
    the same length if they had before, so the distance returned in the end
    is taken over two equally long sequences (the equal-length case of
    [euclidean]). *)
Theorem weight_lists_keep_equal_length :
  (forall n s1 t1 s2 t2 (st st' : state),
     length (G1_weight_list st) = length (G2_weight_list st) ->
     drain_loop n s1 t1 s2 t2 st = Returned st' ->
     length (G1_weight_list st') = length (G2_weight_list st')) /\
  (forall g1 g2 best_fit source_pair sink_pair d st',
     drain g1 g2 best_fit source_pair sink_pair = Returned (d, st') ->
     length (G1_weight_list st') = length (G2_weight_list st') /\
     d = Root (sqdiff (G1_weight_list st') (G2_weight_list st'))).
Proof.
  split.
  - intros n s1 t1 s2 t2 st st'. apply drain_loop_lengths.
  - intros g1 g2 best_fit source_pair sink_pair d st' E.
    destruct (drain_returns _ _ _ _ _ _ _ E) as (Hl & _ & Hd). split; assumption.
Qed.

Lemma pair_eqb_refl p : pair_eqb p p = true.
Proof. unfold pair_eqb. rewrite !Z.eqb_refl. reflexivity. Qed.

Lemma resample_single_pair fuel r p : forall t, resample fuel r t [p] p p = None.
Proof.
  induction fuel as [|fuel IH]; intros t; cbn [resample]; rewrite pair_eqb_refl.
  - reflexivity.
  - unfold choice. cbn [length]. rewrite Nat.mod_1_r. cbn [nth]. apply IH.
Qed.

(** C2, on a matching of exactly one pair: whatever the random source
    draws and however many times the resampling loop runs, the sink pair
    equals the source pair and [shortest_path_dist] does not return. *)
Theorem shortest_path_dist_single_pair_never_returns
    (fuel : nat) (r : rng) (g1 g2 : wgraph) (p : Z * Z) :
  shortest_path_dist fuel r g1 g2 [p] = None.
Proof.
  unfold shortest_path_dist, choice. cbn [length]. rewrite !Nat.mod_1_r. cbn [nth].
  rewrite resample_single_pair. reflexivity.
Qed.


(** ** More of [shortest_path_dist]: what draining keeps, when it returns *)

(** X10.  The labels [graphs2bipartite_weight] gives to its nodes ([i + 1]
    for position [i] of the first list, [- j - 1] for position [j] of the
    second) are decoded back to [(i, j)] by lines 138-149, whichever of the
    two nodes a matched pair lists first. *)
Theorem decode_bipartite_labels (i j : nat) :
  decode (GoodNeighbors.left_node i, GoodNeighbors.right_node j) =
    (Z.of_nat i, Z.of_nat j) /\
  decode (GoodNeighbors.right_node j, GoodNeighbors.left_node i) =
    (Z.of_nat i, Z.of_nat j).
Proof.
  unfold decode, GoodNeighbors.left_node, GoodNeighbors.right_node. cbn [fst snd].
  split.
  - rewrite Z.gtb_ltb. replace (0 <? Z.of_nat i + 1) with true by (symmetry; apply Z.ltb_lt; lia).
    f_equal; lia.
  - rewrite Z.gtb_ltb. replace (0 <? - Z.of_nat j - 1) with false by (symmetry; apply Z.ltb_ge; lia).
    f_equal; lia.
Qed.

Lemma take_path_frame p : forall (g g' : wgraph) w w',
  take_path g p w = Returned (g', w') ->
  nodes g' = nodes g /\ incl (edges g') (edges g) /\
  length w' = (length w + hops p)%nat.
Proof.
  induction p as [|u p IH]; intros g g' w w' E.
  - injection E as <- <-. split; [reflexivity | split; [apply incl_refl | unfold hops; simpl; lia]].
  - destruct p as [|v p].
    + injection E as <- <-. split; [reflexivity | split; [apply incl_refl | unfold hops; simpl; lia]].
    + rewrite take_path_cons in E.
      destruct (get_weight g u v) as [x|]; cbn [bind] in E; [|discriminate].
      unfold remove_edge in E. destruct (has_edge g u v); cbn [bind] in E; [|discriminate].
      apply IH in E. cbn [nodes edges] in E. destruct E as (Hn & Hi & Hl).
      split; [exact Hn | split].
      * intros e He. apply Hi in He. apply filter_In in He. apply He.
      * rewrite Hl, length_app. unfold hops. simpl. lia.
Qed.

Lemma drain_step_frame s1 t1 s2 t2 (st st' : state) (c : bool) :
  drain_step s1 t1 s2 t2 st = Returned (st', c) ->
  nodes (G1 st') = nodes (G1 st) /\ incl (edges (G1 st')) (edges (G1 st)) /\
  nodes (G2 st') = nodes (G2 st) /\ incl (edges (G2 st')) (edges (G2 st)) /\
  (length (G1_weight_list st') <= length (G1_weight_list st) + 1)%nat.
Proof.
  unfold drain_step. intros E.
  destruct (has_path (G1 st) s1 t1) as [[|]|e1]; cbn [bind] in E; [| |discriminate];
    (destruct (has_path (G2 st) s2 t2) as [[|]|e2]; cbn [bind andb negb] in E; [| |discriminate]).
  - destruct (shortest_path (G1 st) s1 t1) as [p1|]; cbn [bind] in E; [|discriminate].
    destruct (take_path (G1 st) p1 []) as [[g1 w1]|] eqn:T1; cbn [bind] in E; [|discriminate].
    destruct (shortest_path (G2 st) s2 t2) as [p2|]; cbn [bind] in E; [|discriminate].
    destruct (take_path (G2 st) p2 []) as [[g2 w2]|] eqn:T2; cbn [bind] in E; [|discriminate].
    injection E as <- _. cbn [G1 G2 G1_weight_list].
    destruct (take_path_frame _ _ _ _ _ T1) as (N1 & I1 & _).
    destruct (take_path_frame _ _ _ _ _ T2) as (N2 & I2 & _).
    rewrite length_app. simpl. repeat split; auto.
  - injection E as <- _. cbn. repeat split; auto using incl_refl. lia.
  - injection E as <- _. cbn. repeat split; auto using incl_refl. lia.
  - injection E as <- _. repeat split; auto using incl_refl. lia.
Qed.

(** X11.  The draining loop only ever removes edges: after any number of
    iterations both graphs have the nodes they started with and a subset of
    their edges, and each weight list has grown by at most one entry per
    iteration. *)
Theorem drain_loop_only_removes_edges n s1 t1 s2 t2 : forall (st st' : state),
  drain_loop n s1 t1 s2 t2 st = Returned st' ->
  nodes (G1 st') = nodes (G1 st) /\ incl (edges (G1 st')) (edges (G1 st)) /\
  nodes (G2 st') = nodes (G2 st) /\ incl (edges (G2 st')) (edges (G2 st)) /\
  (length (G1_weight_list st') <= length (G1_weight_list st) + n)%nat.
Proof.
  induction n as [|n IH]; intros st st' E.
  - injection E as <-. repeat split; auto using incl_refl. lia.
  - cbn [drain_loop] in E.
    destruct (drain_step s1 t1 s2 t2 st) as [[st1 c]|] eqn:Es; cbn [bind] in E; [|discriminate].
    destruct (drain_step_frame _ _ _ _ _ _ _ Es) as (N1 & I1 & N2 & I2 & L).
    destruct c.
    + destruct (IH _ _ E) as (N1' & I1' & N2' & I2' & L').
      repeat split; try congruence.
      * eapply incl_tran; eassumption.
      * eapply incl_tran; eassumption.
      * lia.
    + injection E as <-. repeat split; auto. lia.
Qed.


Lemma weighted_remove_path (g : wgraph) p : weighted g -> weighted (remove_path g p).
Proof. intros H. unfold remove_path. apply weighted_filter, H. Qed.

Lemma has_node_remove_path (g : wgraph) p n :
  has_node (remove_path g p) n = has_node g n.
Proof. reflexivity. Qed.

(** Both graphs are weighted and contain their two endpoints. *)
Definition drainable (s1 t1 s2 t2 : Z) (st : state) : Prop :=
  weighted (G1 st) /\ weighted (G2 st) /\
  has_node (G1 st) s1 = true /\ has_node (G1 st) t1 = true /\
  has_node (G2 st) s2 = true /\ has_node (G2 st) t2 = true.

Lemma has_path_cases (g : wgraph) s t :
  has_node g s = true -> has_node g t = true ->
  (exists p, shortest_path g s t = Returned p /\ has_path g s t = Returned true) \/
  has_path g s t = Returned false.
Proof.
  intros Hs Ht. pose proof (shortest_path_spec g s t Hs Ht) as H.
  unfold has_path. destruct (shortest_path g s t) as [p|e].
  - left. exists p. split; reflexivity.
  - right. destruct H as [-> _]. reflexivity.
Qed.

Lemma drain_step_total s1 t1 s2 t2 (st : state) :
  drainable s1 t1 s2 t2 st ->
  exists st' c,
    drain_step s1 t1 s2 t2 st = Returned (st', c) /\ drainable s1 t1 s2 t2 st'.
Proof.
  intros (W1 & W2 & Hs1 & Ht1 & Hs2 & Ht2).
  destruct (has_path_cases (G1 st) s1 t1 Hs1 Ht1) as [(p1 & E1 & H1)|H1];
    destruct (has_path_cases (G2 st) s2 t2 Hs2 Ht2) as [(p2 & E2 & H2)|H2].
  - eexists. eexists. split; [apply drain_step_both; eassumption|].
    unfold drainable. cbn [G1 G2]. rewrite !has_node_remove_path.
    repeat split; auto using weighted_remove_path.
  - unfold drain_step. rewrite H1, H2. cbn [bind andb negb].
    eexists. eexists. split; [reflexivity|]. unfold drainable. cbn [G1 G2]. auto 10.
  - unfold drain_step. rewrite H1, H2. cbn [bind andb negb].
    eexists. eexists. split; [reflexivity|]. unfold drainable. cbn [G1 G2]. auto 10.
  - unfold drain_step. rewrite H1, H2. cbn [bind andb negb].
    eexists. eexists. split; [reflexivity|]. unfold drainable. auto 10.
Qed.

Lemma drain_loop_total n s1 t1 s2 t2 : forall (st : state),
  drainable s1 t1 s2 t2 st ->
  exists st', drain_loop n s1 t1 s2 t2 st = Returned st'.
Proof.
  induction n as [|n IH]; intros st Hd.
  - exists st. reflexivity.
  - destruct (drain_step_total _ _ _ _ _ Hd) as (st1 & c & E & Hd1).
    cbn [drain_loop]. rewrite E. cbn [bind]. destruct c.
    + apply IH, Hd1.
    + exists st1. reflexivity.
Qed.

Lemma drain_defined (g1 g2 : wgraph) (best_fit : list (Z * Z))
    (source_pair sink_pair : Z * Z) (a b c e : Z) :
  decode source_pair = (a, b) -> decode sink_pair = (c, e) ->
  weighted g1 -> weighted g2 ->
  has_node g1 a = true -> has_node g1 c = true ->
  has_node g2 b = true -> has_node g2 e = true ->
  exists d st', drain g1 g2 best_fit source_pair sink_pair = Returned (d, st').
Proof.
  intros Es Et W1 W2 H1 H2 H3 H4. unfold drain. rewrite Es, Et.
  destruct (drain_loop_total (length best_fit ^ 2) a c b e (State g1 g2 [] [] []))
    as (st & E).
  { unfold drainable. cbn [G1 G2]. auto 10. }
  rewrite E. cbn [bind].
  pose proof (drain_loop_lengths _ _ _ _ _ (State g1 g2 [] [] []) st eq_refl E) as Hl.
  unfold euclidean. rewrite Hl, Nat.eqb_refl. cbn [bind].
  eexists. eexists. reflexivity.
Qed.

(** X12.  On graphs whose edges all carry a weight and which contain the
    decoded source and sink nodes, the draining part of [shortest_path_dist]
    never raises: every path it finds can be taken edge by edge, and the two
    weight lists it hands to [euclidean] have the same length. *)
Theorem drain_returns_on_weighted_graphs (g1 g2 : wgraph) (best_fit : list (Z * Z))
    (source_pair sink_pair : Z * Z) :
  weighted g1 -> weighted g2 ->
  has_node g1 (fst (decode source_pair)) = true ->
  has_node g1 (fst (decode sink_pair)) = true ->
  has_node g2 (snd (decode source_pair)) = true ->
  has_node g2 (snd (decode sink_pair)) = true ->
  exists d st', drain g1 g2 best_fit source_pair sink_pair = Returned (d, st').
Proof.
  intros W1 W2 H1 H2 H3 H4.
  destruct (decode source_pair) as [a b] eqn:Es.
  destruct (decode sink_pair) as [c e] eqn:Et.
  exact (drain_defined g1 g2 best_fit source_pair sink_pair a b c e Es Et W1 W2 H1 H2 H3 H4).
Qed.

(** *** The two random draws *)

Lemma choice_In {A : Type} (r : rng) (t : nat) (l : list A) (x : A) :
  choice r t l = Returned x -> In x l.
Proof.
  unfold choice. destruct l as [|d l]; [discriminate|].
  intros E.
  assert (Hx : x = nth (r t mod length (d :: l))%nat (d :: l) d) by congruence.
  rewrite Hx. apply nth_In, Nat.mod_upper_bound. discriminate.
Qed.

Lemma choice_nonempty {A : Type} (r : rng) (t t' : nat) (l : list A) (x : A) :
  choice r t l = Returned x -> exists y, choice r t' l = Returned y.
Proof.
  unfold choice. destruct l as [|d l]; [discriminate|]. intros _. eexists. reflexivity.
Qed.

Lemma resample_distinct fuel r best_fit source : forall t sink0 sink,
  resample fuel r t best_fit source sink0 = Some (Returned sink) ->
  pair_eqb source sink = false /\ (sink = sink0 \/ In sink best_fit).
Proof.
  induction fuel as [|fuel IH]; intros t sink0 sink E; cbn [resample] in E;
    destruct (pair_eqb source sink0) eqn:Ep; try discriminate.
  - injection E as <-. split; [exact Ep | left; reflexivity].
  - destruct (choice r t best_fit) as [q|] eqn:Ec; [|discriminate].
    destruct (IH _ _ _ E) as [H1 [->|H2]].
    + split; [exact H1 | right; eapply choice_In; exact Ec].
    + split; [exact H1 | right; exact H2].
  - injection E as <-. split; [exact Ep | left; reflexivity].
Qed.

Lemma resample_terminates r best_fit source p : forall d t sink0,
  choice r (t + d) best_fit = Returned p -> pair_eqb source p = false ->
  exists sink, forall fuel, (d < fuel)%nat ->
    resample fuel r t best_fit source sink0 = Some (Returned sink).
Proof.
  induction d as [|d IH]; intros t sink0 Ec Hp.
  - rewrite Nat.add_0_r in Ec.
    destruct (pair_eqb source sink0) eqn:E0.
    + exists p. intros [|fuel] Hf; [lia|]. cbn [resample]. rewrite E0, Ec.
      destruct fuel; cbn [resample]; rewrite Hp; reflexivity.
    + exists sink0. intros [|fuel] _; cbn [resample]; rewrite E0; reflexivity.
  - destruct (pair_eqb source sink0) eqn:E0.
    + destruct (choice_nonempty r _ t _ _ Ec) as [q Eq].
      destruct (IH (S t) q) as [sink Hs].
      { rewrite <- Ec. f_equal. lia. } { exact Hp. }
      exists sink. intros [|fuel] Hf; [lia|]. cbn [resample]. rewrite E0, Eq.
      apply Hs. lia.
    + exists sink0. intros [|fuel] _; cbn [resample]; rewrite E0; reflexivity.
Qed.

(** X14.  The re-sampling loop ends as soon as a draw differs from the
    source pair: if the first draw gives [source_pair] and draw [2 + t] gives
    a different pair, then with more than [t] iterations allowed
    [shortest_path_dist] leaves the loop with a sink pair of [best_fit] that
    differs from the source pair, and goes on to drain the two graphs. *)
Theorem shortest_path_dist_returns_after_distinct_draw
    (r : rng) (g1 g2 : wgraph) (best_fit : list (Z * Z))
    (source_pair p : Z * Z) (t : nat) :
  choice r 0 best_fit = Returned source_pair ->
  choice r (2 + t) best_fit = Returned p ->
  pair_eqb source_pair p = false ->
  exists sink_pair,
    pair_eqb source_pair sink_pair = false /\ In sink_pair best_fit /\
    forall fuel, (t < fuel)%nat ->
      shortest_path_dist fuel r g1 g2 best_fit =
      Some (drain g1 g2 best_fit source_pair sink_pair).
Proof.
  intros E0 Et Hp.
  destruct (choice_nonempty r _ 1 _ _ E0) as [q Eq].
  destruct (resample_terminates r best_fit source_pair p t 2 q Et Hp) as [sink Hs].
  exists sink.
  destruct (resample_distinct _ _ _ _ _ _ _ (Hs (S t) (Nat.lt_succ_diag_r t))) as [Hd Hin].
  split; [exact Hd | split].
  - destruct Hin as [->|Hin]; [eapply choice_In; exact Eq | exact Hin].
  - intros fuel Hf. unfold shortest_path_dist. rewrite E0, Eq, (Hs fuel Hf). reflexivity.
Qed.

End Draining.

(** A triangle with a direct edge of weight 5 and a detour of weight 2 + 3. *)
Definition triangle : wgraph :=
  Graph [0; 1; 2] [(0, 1, Some 2); (1, 2, Some 3); (0, 2, Some 5)].

Lemma triangle_weighted : weighted triangle.
Proof.
  intros e [<-|[<-|[<-|[]]]]; discriminate.
Qed.

Lemma triangle_path : path triangle 0 2 [0; 2].
Proof.
  split; [|split; reflexivity].
  split; [|exact I]. unfold adjacent. simpl. right. left. reflexivity.
Qed.

Lemma drain_step_takes_fewest_hops_paths_witness :
  weighted triangle /\ has_node triangle 0 = true /\ has_node triangle 2 = true /\
  exists p1 p2 x1 x2,
    weight_sum triangle p1 x1 /\ weight_sum triangle p2 x2 /\
    drain_step 0 2 0 2 (State triangle triangle [] [] []) =
    Returned (State (remove_path triangle p1) (remove_path triangle p2)
                [x1] [x2] [], true).
Proof.
  split; [exact triangle_weighted | split; [reflexivity | split; [reflexivity|]]].
  destruct (drain_step_takes_fewest_hops_paths 0 2 0 2
              (State triangle triangle [] [] [])
              triangle_weighted triangle_weighted
              eq_refl eq_refl eq_refl eq_refl) as [H _].
  destruct (H (ex_intro _ [0; 2] triangle_path) (ex_intro _ [0; 2] triangle_path))
    as (p1 & p2 & x1 & x2 & _ & _ & Hx1 & Hx2 & _ & _ & E).
  exists p1, p2, x1, x2. split; [exact Hx1 | split; [exact Hx2 | exact E]].
Defined.

(** One round on the triangle: the only path with the fewest edges is the
    direct edge, so both lists record its weight 5 and the detour stays. *)
Example drain_triangle :
  drain_step 0 2 0 2 (State triangle triangle [] [] []) =
  Returned (State (Graph [0; 1; 2] [(0, 1, Some 2); (1, 2, Some 3)])
                  (Graph [0; 1; 2] [(0, 1, Some 2); (1, 2, Some 3)])
                  [5] [5] [], true).
Proof. vm_compute. reflexivity. Qed.

Lemma weight_lists_keep_equal_length_witness :
  exists d st',
    drain triangle triangle [(1, -1); (2, -2); (3, -3)] (1, -1) (3, -3) =
      Returned (d, st') /\
    length (G1_weight_list st') = length (G2_weight_list st').
Proof.
  assert (E : drain triangle triangle [(1, -1); (2, -2); (3, -3)] (1, -1) (3, -3) =
              Returned (Root 0,
                        State (Graph [0; 1; 2] []) (Graph [0; 1; 2] [])
                          [5; 5] [5; 5] []))
    by (vm_compute; reflexivity).
  eexists. eexists. split; [exact E|].
  exact (proj1 (proj2 weight_lists_keep_equal_length _ _ _ _ _ _ _ E)).
Defined.


Lemma drain_loop_only_removes_edges_witness :
  exists st',
    drain_loop 9 0 2 0 2 (State triangle triangle [] [] []) = Returned st' /\
    nodes (G1 st') = [0; 1; 2] /\ incl (edges (G1 st')) (edges triangle).
Proof.
  assert (E : drain_loop 9 0 2 0 2 (State triangle triangle [] [] []) =
              Returned (State (Graph [0; 1; 2] []) (Graph [0; 1; 2] [])
                          [5; 5] [5; 5] []))
    by (vm_compute; reflexivity).
  eexists. split; [exact E|].
  destruct (drain_loop_only_removes_edges 9 0 2 0 2 _ _ E) as (N1 & I1 & _).
  split; [exact N1 | exact I1].
Defined.


Lemma drain_returns_on_weighted_graphs_witness :
  weighted triangle /\
  exists d st',
    drain triangle triangle [(1, -1); (3, -3)] (1, -1) (3, -3) = Returned (d, st').
Proof.
  split; [exact triangle_weighted|].
  exact (drain_returns_on_weighted_graphs triangle triangle [(1, -1); (3, -3)]
           (1, -1) (3, -3) triangle_weighted triangle_weighted
           eq_refl eq_refl eq_refl eq_refl).
Defined.


Lemma shortest_path_dist_returns_after_distinct_draw_witness :
  exists sink_pair,
    (forall fuel, (0 < fuel)%nat ->
       shortest_path_dist fuel (fun t => t) triangle triangle [(1, -1); (2, -2); (3, -3)] =
       Some (drain triangle triangle [(1, -1); (2, -2); (3, -3)] (1, -1) sink_pair)).
Proof.
  destruct (shortest_path_dist_returns_after_distinct_draw (fun t => t) triangle triangle
              [(1, -1); (2, -2); (3, -3)] (1, -1) (3, -3) 0 eq_refl eq_refl eq_refl)
    as (sink & _ & _ & H).
  exists sink. exact H.
Defined.

End ShortestPathDist.


(** * The random graphs both scripts start from

    [get_random_capacity_undirected_graph], lines 10-55 of
    closest_nodes/good_neighbors.py and of closest_nodes/shortest_path_dist.py
    (the two copies are the same). *)

Module RandomGraph.
Import Nx GoodNeighbors ShortestPathDist.
#[local] Open Scope Z_scope.

(** How a call of [get_random_capacity_undirected_graph] ends: the bare
    [return] of line 33, the graph of line 55, the [NameError] of the
    undefined name [complete_graph] at line 36, or an exception of the
    [random] module. *)
Inductive ending : Type :=
| ReturnsNone
| ReturnsGraph (G : graph Z)
| RaisesNameError
| Raises (e : exn).

(** [random.randint(a, b)]: [ValueError] on an empty range. *)
Definition randint (r : rng) (t : nat) (a b : Z) : outcome Z :=
  if b <? a then Raised ValueError
  else Returned (a + Z.of_nat (r t) mod (b - a + 1)).

(** [range(n)]. *)
Definition range (n : Z) : list Z := map Z.of_nat (seq 0 (Z.to_nat n)).

(** [G.add_nodes_from(nodes)]. *)
Definition add_nodes_from (G : graph Z) (new : list Z) : graph Z :=
  fold_left (fun G i => add_node G i) new G.

(** The [while edge_count < m] loop of lines 41-53, run for at most [fuel]
    iterations; [None] when it is still running after them.  [t] counts the
    draws made so far. *)
Fixpoint edge_loop (fuel : nat) (r : rng) (t : nat) (nlist : list Z)
    (m max_cap edge_count : Z) (G : graph Z) : option (outcome (graph Z)) :=
  if edge_count <? m then
    match fuel with
    | O => None
    | S fuel' =>
        match choice r t nlist with
        | Raised e => Some (Raised e)
        | Returned u =>
            match choice r (S t) nlist with
            | Raised e => Some (Raised e)
            | Returned v =>
                if (u =? v) || has_edge G u v
                then edge_loop fuel' r (S (S t)) nlist m max_cap edge_count G
                else
                  match randint r (S (S t)) 1 max_cap with
                  | Raised e => Some (Raised e)
                  | Returned capa =>
                      edge_loop fuel' r (S (S (S t))) nlist m max_cap
                        (edge_count + 1) (add_edge G u v capa)
                  end
            end
        end
    end
  else Some (Returned G).

Definition get_random_capacity_undirected_graph (fuel : nat) (r : rng)
    (n m max_cap : Z) : option ending :=
  let G := add_nodes_from empty (range n) in
  if n =? 1 then Some ReturnsNone
  else
    let max_edges := n * (n - 1) in
    if m >=? max_edges then Some RaisesNameError
    else
      let nlist := nodes G in
      match edge_loop fuel r 0 nlist m max_cap 0 G with
      | None => None
      | Some (Returned G) => Some (ReturnsGraph G)
      | Some (Raised e) => Some (Raises e)
      end.

Definition default_max_cap : Z := 20.

(** *** Proofs *)

(** The two ends of an edge, smaller first. *)
Definition ends (e : Z * Z * option Z) : Z * Z :=
  (Z.min (fst (fst e)) (snd (fst e)), Z.max (fst (fst e)) (snd (fst e))).

(** An edge between two different nodes of [range n] whose weight is a
    capacity between 1 and [max_cap]. *)
Definition edge_ok (n max_cap : Z) (e : Z * Z * option Z) : Prop :=
  0 <= fst (fst e) < n /\ 0 <= snd (fst e) < n /\ fst (fst e) <> snd (fst e) /\
  exists capa, snd e = Some capa /\ 1 <= capa <= max_cap.

(** A graph on [range n] without self-loops and without parallel edges. *)
Definition built (n max_cap : Z) (G : graph Z) : Prop :=
  nodes G = range n /\
  Forall (edge_ok n max_cap) (edges G) /\
  NoDup (map ends (edges G)).

Definition all_pairs (n : nat) : list (Z * Z) :=
  flat_map (fun b => map (fun a => (Z.of_nat a, Z.of_nat b)) (seq 0 b)) (seq 0 n).

Lemma all_pairs_length n : (2 * length (all_pairs n) + n = n * n)%nat.
Proof.
  induction n as [|n IH]; [reflexivity|].
  unfold all_pairs in *. rewrite seq_S, flat_map_app, length_app. cbn [flat_map plus].
  rewrite app_nil_r, length_map, length_seq. lia.
Qed.

Lemma in_all_pairs n a b : 0 <= a < b -> b < Z.of_nat n -> In (a, b) (all_pairs n).
Proof.
  intros Ha Hb. unfold all_pairs. apply in_flat_map.
  exists (Z.to_nat b). split; [apply in_seq; lia|].
  apply in_map_iff. exists (Z.to_nat a). split; [f_equal; lia | apply in_seq; lia].
Qed.

Lemma built_edge_bound n max_cap (G : graph Z) :
  built n max_cap G -> 2 * Z.of_nat (length (edges G)) <= n * (n - 1).
Proof.
  intros (_ & Hok & Hnd).
  destruct (edges G) as [|e0 es] eqn:Ee; [simpl; nia|].
  assert (Hn : 0 <= n).
  { inversion Hok as [|? ? (H & _) _]; subst. lia. }
  rewrite <- Ee in *. clear Ee e0 es.
  assert (Hincl : incl (map ends (edges G)) (all_pairs (Z.to_nat n))).
  { intros p Hp. apply in_map_iff in Hp. destruct Hp as (e & <- & He).
    rewrite Forall_forall in Hok. destruct (Hok e He) as (Ha & Hb & Hab & _).
    unfold ends. apply in_all_pairs; lia. }
  pose proof (NoDup_incl_length Hnd Hincl) as Hlen.
  rewrite length_map in Hlen.
  pose proof (all_pairs_length (Z.to_nat n)) as Hall. nia.
Qed.

Lemma add_nodes_from_range n :
  nodes (add_nodes_from empty (range n)) = range n /\
  edges (add_nodes_from empty (range n)) = [].
Proof.
  unfold add_nodes_from, range. split.
  - generalize (Z.to_nat n) as k. intros k. induction k as [|k IH]; [reflexivity|].
    rewrite seq_S, map_app, fold_left_app. cbn [map fold_left plus].
    unfold add_node at 1.
    match goal with |- context [@has_node Z ?g ?x] =>
      assert (Hf : @has_node Z g x = false) end.
    { unfold has_node. rewrite IH.
      apply not_true_is_false. intros H. apply existsb_exists in H.
      destruct H as (x & Hx & Heq). apply in_map_iff in Hx.
      destruct Hx as (i & <- & Hi). apply in_seq in Hi. apply Z.eqb_eq in Heq. lia. }
    rewrite Hf. cbn [nodes]. rewrite IH. reflexivity.
  - rewrite (fold_add_node_edges (fun i => i)). reflexivity.
Qed.

Lemma in_range n u : In u (range n) <-> 0 <= u < n.
Proof.
  unfold range. rewrite in_map_iff. split.
  - intros (i & <- & Hi). apply in_seq in Hi. lia.
  - intros H. exists (Z.to_nat u). split; [lia | apply in_seq; lia].
Qed.

Lemma has_node_range (G : graph Z) n u : nodes G = range n -> 0 <= u < n -> has_node G u = true.
Proof.
  intros Hn Hu. unfold has_node. rewrite Hn. apply existsb_exists.
  exists u. split; [apply in_range, Hu | apply Z.eqb_refl].
Qed.

Lemma add_edge_absent (G : graph Z) u v w :
  has_node G u = true -> has_node G v = true -> has_edge G u v = false ->
  add_edge G u v w = Graph (nodes G) (edges G ++ [(u, v, Some w)]).
Proof.
  intros Hu Hv He. unfold add_edge.
  assert (E : add_node (add_node G u) v = G).
  { unfold add_node at 2. rewrite Hu. unfold add_node. rewrite Hv. reflexivity. }
  rewrite E, He. reflexivity.
Qed.

Lemma ends_joins (e : Z * Z * option Z) u v :
  ends e = ends (u, v, @None Z) -> joins u v e = true.
Proof.
  destruct e as [[a b] w]. unfold ends. cbn [fst snd]. intros H.
  apply joins_iff. injection H as H1 H2. lia.
Qed.

Lemma built_add_edge n max_cap (G : graph Z) u v capa :
  built n max_cap G -> 0 <= u < n -> 0 <= v < n -> u <> v ->
  has_edge G u v = false -> 1 <= capa <= max_cap ->
  built n max_cap (add_edge G u v capa) /\
  length (edges (add_edge G u v capa)) = S (length (edges G)).
Proof.
  intros (Hn & Hok & Hnd) Hu Hv Huv He Hc.
  rewrite (add_edge_absent G u v capa (has_node_range G n u Hn Hu)
             (has_node_range G n v Hn Hv) He).
  unfold built. cbn [nodes edges]. split.
  - split; [exact Hn|]. split.
    + apply Forall_app. split; [exact Hok|]. constructor; [|constructor].
      unfold edge_ok. cbn [fst snd]. repeat split; try lia.
      exists capa. split; [reflexivity | lia].
    + rewrite map_app. cbn [map].
      apply NoDup_app_remove_l with (l := []).
      apply Permutation_NoDup with (l := ends (u, v, Some capa) :: map ends (edges G)).
      * apply Permutation_cons_append.
      * constructor; [|exact Hnd]. intros Hin. apply in_map_iff in Hin.
        destruct Hin as (e & Hee & Hin).
        pose proof (has_edge_false G u v He e Hin) as Hj.
        rewrite (ends_joins e u v) in Hj; [discriminate|].
        rewrite Hee. reflexivity.
  - rewrite length_app. simpl. lia.
Qed.

Section Loop.
Context (r : rng) (n m max_cap : Z).

Lemma edge_loop_ends fuel : forall t c G,
  built n max_cap G -> Z.of_nat (length (edges G)) = c -> c <= Z.max 0 m ->
  match edge_loop fuel r t (range n) m max_cap c G with
  | None => True
  | Some (Returned G') =>
      built n max_cap G' /\ Z.of_nat (length (edges G')) = Z.max 0 m
  | Some (Raised e) =>
      (e = IndexError /\ n <= 0) \/ (e = ValueError /\ max_cap < 1 /\ 2 <= n)
  end.
Proof.
  induction fuel as [|fuel IH]; intros t c G Hb Hc Hle; cbn [edge_loop].
  - destruct (Z.ltb_spec c m); [exact I|]. split; [exact Hb | lia].
  - destruct (Z.ltb_spec c m) as [Hlt|Hge]; [|split; [exact Hb | lia]].
    destruct (choice r t (range n)) as [u|e] eqn:Eu.
    + destruct (choice r (S t) (range n)) as [v|e] eqn:Ev.
      * apply choice_In, in_range in Eu. apply choice_In, in_range in Ev.
        destruct ((u =? v) || has_edge G u v) eqn:Eskip.
        -- apply IH; assumption.
        -- apply orb_false_iff in Eskip. destruct Eskip as [Hne He].
           apply Z.eqb_neq in Hne.
           unfold randint. destruct (Z.ltb_spec max_cap 1) as [Hcap|Hcap].
           ++ right. repeat split; lia.
           ++ assert (Hcapa : 1 <= 1 + Z.of_nat (r (S (S t))) mod (max_cap - 1 + 1) <= max_cap).
              { pose proof (Z.mod_pos_bound (Z.of_nat (r (S (S t)))) (max_cap - 1 + 1)). lia. }
              destruct (built_add_edge n max_cap G u v _ Hb Eu Ev Hne He Hcapa) as [Hb' Hl'].
              apply IH; [exact Hb' | rewrite Hl'; lia | lia].
      * unfold choice in Ev. destruct (range n); [|discriminate].
        unfold choice in Eu. discriminate.
    + left. unfold choice in Eu. destruct (range n) as [|d l] eqn:Er; [|discriminate].
      split; [congruence|].
      destruct (Z.leb_spec n 0) as [H|H]; [exact H|].
      assert (Hin : In 0 (range n)) by (apply in_range; lia).
      rewrite Er in Hin. destruct Hin.
Qed.

Lemma edge_loop_never_ends fuel : forall t c G,
  0 < n -> n * (n - 1) < 2 * m -> 1 <= max_cap ->
  built n max_cap G -> Z.of_nat (length (edges G)) = c ->
  edge_loop fuel r t (range n) m max_cap c G = None.
Proof.
  induction fuel as [|fuel IH]; intros t c G Hn Hm Hcap Hb Hc; cbn [edge_loop];
    pose proof (built_edge_bound n max_cap G Hb) as Hbound;
    (destruct (Z.ltb_spec c m) as [Hlt|Hge]; [|lia]); [reflexivity|].
  assert (Hne : range n <> []).
  { intros E. assert (Hin : In 0 (range n)) by (apply in_range; lia).
    rewrite E in Hin. destruct Hin. }
  destruct (choice r t (range n)) as [u|e] eqn:Eu;
    [|unfold choice in Eu; destruct (range n); [congruence | discriminate]].
  destruct (choice r (S t) (range n)) as [v|e] eqn:Ev;
    [|unfold choice in Ev; destruct (range n); [congruence | discriminate]].
  apply choice_In, in_range in Eu. apply choice_In, in_range in Ev.
  destruct ((u =? v) || has_edge G u v) eqn:Eskip.
  - apply IH; assumption.
  - apply orb_false_iff in Eskip. destruct Eskip as [Hneq He].
    apply Z.eqb_neq in Hneq.
    unfold randint. destruct (Z.ltb_spec max_cap 1) as [H|_]; [lia|].
    assert (Hcapa : 1 <= 1 + Z.of_nat (r (S (S t))) mod (max_cap - 1 + 1) <= max_cap).
    { pose proof (Z.mod_pos_bound (Z.of_nat (r (S (S t)))) (max_cap - 1 + 1)). lia. }
    destruct (built_add_edge n max_cap G u v _ Hb Eu Ev Hneq He Hcapa) as [Hb' Hl'].
    apply IH; try assumption. rewrite Hl'. lia.
Qed.

End Loop.

Lemma built_start n max_cap : built n max_cap (add_nodes_from empty (range n)).
Proof.
  destruct (add_nodes_from_range n) as [Hn He].
  split; [exact Hn|]. rewrite He. split; constructor.
Qed.

Lemma generator_returns_built fuel r n m max_cap G :
  get_random_capacity_undirected_graph fuel r n m max_cap = Some (ReturnsGraph G) ->
  built n max_cap G /\ Z.of_nat (length (edges G)) = Z.max 0 m.
Proof.
  unfold get_random_capacity_undirected_graph.
  destruct (n =? 1); [discriminate|].
  destruct (m >=? n * (n - 1)); [discriminate|].
  destruct (add_nodes_from_range n) as [Hn He]. rewrite Hn.
  pose proof (edge_loop_ends r n m max_cap fuel 0 0 _ (built_start n max_cap)) as H.
  rewrite He in H. specialize (H eq_refl ltac:(lia)).
  destruct (edge_loop fuel r 0 (range n) m max_cap 0 _) as [[G'|e]|]; try discriminate.
  intros E. injection E as <-. exact H.
Qed.

(** X15.  What each way of ending tells about a call of
    [get_random_capacity_undirected_graph]: it returns [None] exactly for
    [n = 1]; for [m >= n * (n - 1)] it raises [NameError] instead of building
    the complete graph; a returned graph has the nodes [0 .. n-1] and exactly
    [max 0 m] edges, each between two different nodes, no two between the same
    pair, with a capacity between 1 and [max_cap]; the [random] module only
    raises for a negative [n] ([IndexError]) or for [max_cap < 1]
    ([ValueError]). *)
Theorem get_random_capacity_undirected_graph_endings (fuel : nat) (r : rng)
    (n m max_cap : Z) :
  match get_random_capacity_undirected_graph fuel r n m max_cap with
  | Some ReturnsNone => n = 1
  | Some RaisesNameError => n <> 1 /\ n * (n - 1) <= m
  | Some (Raises e) =>
      n <> 1 /\ 0 < m < n * (n - 1) /\
      ((e = IndexError /\ n < 0) \/ (e = ValueError /\ max_cap < 1 /\ 2 <= n))
  | Some (ReturnsGraph G) =>
      n <> 1 /\ m < n * (n - 1) /\
      built n max_cap G /\ Z.of_nat (length (edges G)) = Z.max 0 m
  | None => n <> 1 /\ 0 < m < n * (n - 1)
  end.
Proof.
  unfold get_random_capacity_undirected_graph.
  destruct (Z.eqb_spec n 1) as [H1|H1]; [exact H1|].
  destruct (m >=? n * (n - 1)) eqn:Em.
  - split; [exact H1|]. apply Z.geb_le in Em. lia.
  - rewrite Z.geb_leb in Em. apply Z.leb_gt in Em.
    destruct (add_nodes_from_range n) as [Hn He].
    rewrite Hn.
    pose proof (edge_loop_ends r n m max_cap fuel 0 0 _ (built_start n max_cap)) as H.
    rewrite He in H. specialize (H eq_refl ltac:(lia)).
    assert (Hpos : edge_loop fuel r 0 (range n) m max_cap 0 (add_nodes_from empty (range n))
                   <> Some (Returned (add_nodes_from empty (range n))) -> 0 < m).
    { destruct fuel; cbn [edge_loop]; destruct (Z.ltb_spec 0 m); congruence || auto. }
    destruct (edge_loop fuel r 0 (range n) m max_cap 0 _) as [[G'|e]|] eqn:E.
    + destruct H as [Hb Hl]. repeat split; try assumption; apply Hb.
    + assert (0 < m) by (apply Hpos; discriminate).
      split; [exact H1|]. split; [lia|].
      destruct H as [[-> Hle]|[-> H]]; [left | right; exact (conj eq_refl H)].
      split; [reflexivity|]. nia.
    + assert (0 < m) by (apply Hpos; discriminate). split; [exact H1 | lia].
Qed.

(** X16.  [max_edges] is [n * (n - 1)], twice what an undirected graph
    without self-loops can hold.  For [n * (n - 1) / 2 < m < n * (n - 1)] the
    loop can never reach [m] edges: whatever the random draws, the call is
    still running after any number of iterations. *)
Theorem get_random_capacity_undirected_graph_never_returns (fuel : nat) (r : rng)
    (n m max_cap : Z) :
  0 <= n -> n * (n - 1) < 2 * m -> m < n * (n - 1) -> 1 <= max_cap ->
  get_random_capacity_undirected_graph fuel r n m max_cap = None.
Proof.
  intros Hn Hlo Hhi Hcap. unfold get_random_capacity_undirected_graph.
  destruct (Z.eqb_spec n 1) as [H1|H1]; [subst; lia|].
  destruct (m >=? n * (n - 1)) eqn:Em; [apply Z.geb_le in Em; lia|].
  destruct (add_nodes_from_range n) as [Hnodes He]. rewrite Hnodes.
  assert (Hn' : 0 < n) by nia.
  rewrite (edge_loop_never_ends r n m max_cap fuel 0 0 _ Hn' Hlo Hcap
             (built_start n max_cap)); [reflexivity|].
  rewrite He. reflexivity.
Qed.

Lemma get_random_capacity_undirected_graph_never_returns_witness :
  get_random_capacity_undirected_graph 50 (fun t => t) 3 4 default_max_cap = None.
Proof.
  apply get_random_capacity_undirected_graph_never_returns; unfold default_max_cap; lia.
Defined.

(** The draws 0, 1, 2, ... build a graph with two edges on three nodes. *)
Example get_random_capacity_undirected_graph_counting_draws :
  get_random_capacity_undirected_graph 5 (fun t => t) 3 2 5 =
  Some (ReturnsGraph (Graph [0; 1; 2] [(0, 1, Some 3); (2, 0, Some 3)])).
Proof. vm_compute. reflexivity. Qed.

(** X17.  A graph returned by the generator for [n] nodes is a valid input of
    [get_neighbor_edges G n]: the call returns [n] profiles whose entries are
    capacities between 1 and [max_cap], and the profiles hold [2 * m] entries
    in all, one for each end of each edge. *)
Theorem generated_graph_profiles (fuel : nat) (r : rng) (n m max_cap : Z)
    (G : graph Z) :
  get_random_capacity_undirected_graph fuel r n m max_cap = Some (ReturnsGraph G) ->
  exists neighbor,
    get_neighbor_edges G (Z.to_nat n) = Returned neighbor /\
    length neighbor = Z.to_nat n /\
    Forall (Forall (fun w => 1 <= w <= max_cap)) neighbor /\
    Z.of_nat (length (concat neighbor)) = 2 * Z.max 0 m.
Proof.
  intros E. destruct (generator_returns_built _ _ _ _ _ _ E) as [(Hn & Hok & _) Hl].
  rewrite Forall_forall in Hok.
  assert (Hb : endpoints_below (Z.to_nat n) (edges_data G 1)).
  { unfold endpoints_below, edges_data. apply Forall_forall. intros edge Hin.
    apply in_map_iff in Hin. destruct Hin as (e & <- & He).
    destruct (Hok e He) as (Ha & Hb & _). cbn [fst snd]. lia. }
  unfold get_neighbor_edges. rewrite (neighbor_loop _ _ Hb). cbn [bind].
  eexists. split; [reflexivity|]. split; [|split].
  - rewrite !length_map, length_seq. reflexivity.
  - apply Forall_forall. intros l Hl'. rewrite map_map in Hl'.
    apply in_map_iff in Hl'. destruct Hl' as (u & <- & _).
    apply Forall_forall. intros w Hw.
    apply (Permutation_in _ (Permutation_sym (sorted_desc_perm _))) in Hw.
    unfold incident in Hw. apply in_flat_map in Hw. destruct Hw as (edge & Hin & Hw).
    assert (Hw' : w = snd edge).
    { apply in_app_or in Hw.
      destruct Hw as [Hw|Hw]; destruct (_ =? _) in Hw; simpl in Hw;
        try contradiction; (destruct Hw as [Hw|Hw]; [symmetry; exact Hw | contradiction]). }
    subst w. unfold edges_data in Hin. apply in_map_iff in Hin.
    destruct Hin as (e & <- & He). destruct (Hok e He) as (_ & _ & _ & capa & -> & Hc).
    exact Hc.
  - rewrite sorted_desc_total, (incident_total _ _ Hb).
    unfold edges_data. rewrite length_map. lia.
Qed.

Lemma generated_graph_profiles_witness :
  exists neighbor,
    get_neighbor_edges (Graph [0; 1; 2] [(0, 1, Some 3); (2, 0, Some 3)]) 3 =
      Returned neighbor /\
    Z.of_nat (length (concat neighbor)) = 4.
Proof.
  destruct (generated_graph_profiles 5 (fun t => t) 3 2 5 _
              get_random_capacity_undirected_graph_counting_draws)
    as (neighbor & E & _ & _ & Ht).
  exists neighbor. split; [exact E | exact Ht].
Defined.

End RandomGraph.
